(** * EasyLang: lexer, parser and tree-walking interpreter

    A shallow embedding of [src/interpreter/lexer.ts], [src/interpreter/parser.ts]
    and [src/interpreter/interpreter.ts], with the statements of the language
    description checked against it.

    Layout: the host (JavaScript) operations the three classes call, the token
    and syntax-tree types, the three classes in modules of their names, the
    example programs, and then the lemmas and theorems. *)

From Stdlib Require Import ZArith QArith Qround String Ascii List Bool Lia.
From Stdlib Require Import PrimFloat SpecFloat FloatOps.
From stdpp Require Import base option gmap strings list.

Set Warnings "-register-all".

Local Open Scope string_scope.

(** ** Host operations

    Numbers are IEEE binary64 values, the kernel's primitive floats; text is a
    sequence of 8-bit code units. The functions below follow ECMA-262 for the
    built-ins the source calls. *)
Module JS.

Definition LF : ascii := "010"%char.
Definition CR : ascii := "013"%char.
Definition TAB : ascii := "009"%char.
Definition NUL : ascii := "000"%char.
Definition DQUOTE : ascii := "034"%char.

(** [s] between double quotes *)
Definition quoted (s : string) : string := String DQUOTE s ++ String DQUOTE "".

(** [s.charAt(i)]: the empty string ([None]) past the end. *)
Definition charAt (s : string) (i : nat) : option ascii := String.get i s.

(** [s.substring(a, b)]: both ends clamped to the length, swapped when [a > b]. *)
Definition substring (s : string) (a b : nat) : string :=
  let lo := Nat.min a b in
  let hi := Nat.max a b in
  String.substring lo (hi - lo) s.

(** [s.repeat(n)] *)
Fixpoint repeat (s : string) (n : nat) : string :=
  match n with
  | O => ""
  | S n' => s ++ repeat s n'
  end.

(** *** Decimal text of integers *)

Definition digit_char (d : Z) : ascii := ascii_of_nat (48 + Z.to_nat d).

Fixpoint digits_of_pos (fuel : nat) (n : Z) (acc : string) : string :=
  match fuel with
  | O => acc
  | S fuel' =>
      let acc' := String (digit_char (n mod 10)) acc in
      if (n / 10 =? 0)%Z then acc' else digits_of_pos fuel' (n / 10) acc'
  end.

(** Decimal digits of [n >= 0], most significant first. *)
Definition digits_of_Z (n : Z) : string :=
  digits_of_pos (S (Z.to_nat (Z.log2 n))) n "".

(** [String(n)] for an integer [n]. *)
Definition string_of_Z (n : Z) : string :=
  if (n <? 0)%Z then "-" ++ digits_of_Z (- n) else digits_of_Z n.

Definition string_of_nat (n : nat) : string := string_of_Z (Z.of_nat n).

(** *** Number values *)

Definition float_of_SF (x : spec_float) : float := SF2Prim x.

(** The binary64 value nearest to [m * 2^e] (ties to even). *)
Definition round_dyadic (m e : Z) : float :=
  float_of_SF (binary_normalize prec emax m e false).

(** The binary64 value nearest to [n / d] for [n >= 0], [d > 0]: the quotient
    is taken with 64 bits more than [d] has and a sticky last bit, so that
    the final rounding sees on which side of every halfway point it lies. *)
Definition round_ratio (n d : Z) : float :=
  let p := (Z.log2 d + 66)%Z in
  let q := (Z.shiftl n p / d)%Z in
  let sticky := if (Z.shiftl n p mod d =? 0)%Z then 0%Z else 1%Z in
  round_dyadic (2 * q + sticky) (- p - 1).

(** The Number value of the decimal [m * 10^e], [m >= 0]. Exponents beyond
    the range of binary64 are cut short before any power is computed. *)
Definition round_decimal (m e : Z) : float :=
  if (m =? 0)%Z then zero
  else
    let len := Z.of_nat (String.length (digits_of_Z m)) in
    if (400 <? len + e)%Z then infinity
    else if (len + e <? -400)%Z then zero
    else if (0 <=? e)%Z then round_dyadic (m * 10 ^ e) 0
    else round_ratio m (10 ^ (- e)).

Definition isNaN (x : float) : bool := is_nan x.
Definition isFinite (x : float) : bool := negb (is_nan x) && negb (is_infinity x).

(** The exact rational value of a finite float. *)
Definition Q_of_finite (m : positive) (e : Z) : Q :=
  (inject_Z (Zpos m) * Qpower (2 # 1) e)%Q.

(** [Math.floor] *)
Definition Math_floor (x : float) : float :=
  match Prim2SF x with
  | S754_finite s m e =>
      if (0 <=? e)%Z then x
      else
        let v := (if s then Zneg m else Zpos m) in
        let fl := (v / 2 ^ (- e))%Z in
        if (fl =? 0)%Z then (if s then neg_zero else zero)
        else round_dyadic fl 0
  | _ => x
  end.

(** [Number::remainder], the [%] operator: the sign of the dividend,
    truncating division, computed exactly. *)
Definition remainder (n d : float) : float :=
  match Prim2SF n, Prim2SF d with
  | S754_nan, _ | _, S754_nan => nan
  | S754_infinity _, _ => nan
  | _, S754_zero _ => nan
  | _, S754_infinity _ => n
  | S754_zero _, _ => n
  | S754_finite sn mn en, S754_finite _ md ed =>
      let e := Z.min en ed in
      let a := (Zpos mn * 2 ^ (en - e))%Z in
      let b := (Zpos md * 2 ^ (ed - e))%Z in
      let r := (a mod b)%Z in
      if (r =? 0)%Z then (if sn then neg_zero else zero)
      else round_dyadic (if sn then - r else r) e
  end.

(** *** [Number::toString] (radix 10) *)

(** The number [n] of decimal digits before the point: [10^(n-1) <= v < 10^n]. *)
Fixpoint adjust_magnitude (fuel : nat) (v : Q) (n : Z) : Z :=
  match fuel with
  | O => n
  | S fuel' =>
      if Qle_bool (Qpower (10 # 1) n) v then adjust_magnitude fuel' v (n + 1)
      else if Qle_bool (Qpower (10 # 1) (n - 1)) v then n
      else adjust_magnitude fuel' v (n - 1)
  end.

Definition magnitude (m : positive) (e : Z) : Z :=
  let bits := (Z.log2 (Zpos m) + e)%Z in
  adjust_magnitude 8 (Q_of_finite m e) (bits * 30103 / 100000).

(** The open or closed interval of reals that round to the float [m * 2^e]:
    halfway to each neighbour, the ends included when [m] is even. *)
Definition rounds_to (m : positive) (e : Z) (x : Q) : bool :=
  let boundary := (Zpos m =? 2 ^ 52)%Z && (-1074 <? e)%Z in
  let lo := (if boundary
             then inject_Z (4 * Zpos m - 1) * Qpower (2 # 1) (e - 2)
             else inject_Z (2 * Zpos m - 1) * Qpower (2 # 1) (e - 1))%Q in
  let hi := (inject_Z (2 * Zpos m + 1) * Qpower (2 # 1) (e - 1))%Q in
  if Z.even (Zpos m)
  then Qle_bool lo x && Qle_bool x hi
  else negb (Qle_bool x lo) && negb (Qle_bool hi x).

(** The candidate with [k] digits, if one rounds to the float: the integer
    [s] nearest the scaled value among its floor and ceiling, the even one
    on a tie. *)
Definition candidate (m : positive) (e n : Z) (k : Z) : option Z :=
  let v := Q_of_finite m e in
  let unit := Qpower (10 # 1) (n - k) in
  let lo := Qfloor (v / unit) in
  let hi := (lo + 1)%Z in
  let ok_lo := rounds_to m e (inject_Z lo * unit) in
  let ok_hi := rounds_to m e (inject_Z hi * unit) in
  let d_lo := (v - inject_Z lo * unit)%Q in
  let d_hi := (inject_Z hi * unit - v)%Q in
  match ok_lo, ok_hi with
  | true, true =>
      if Qle_bool d_lo d_hi
      then (if Qle_bool d_hi d_lo then Some (if Z.even lo then lo else hi) else Some lo)
      else Some hi
  | true, false => Some lo
  | false, true => Some hi
  | false, false => None
  end.

Fixpoint shortest (fuel : nat) (m : positive) (e n : Z) (k : Z) : Z * Z :=
  match fuel with
  | O => (k, 0%Z)
  | S fuel' =>
      match candidate m e n k with
      | Some s => (k, s)
      | None => shortest fuel' m e n (k + 1)
      end
  end.

Definition zeros (n : Z) : string := repeat "0" (Z.to_nat n).

(** The digits [s] (with [k] of them) and the exponent [n], laid out as
    ECMA-262 lays them out. *)
Definition layout (s : string) (k n : Z) : string :=
  if (k <=? n)%Z && (n <=? 21)%Z then s ++ zeros (n - k)
  else if (0 <? n)%Z && (n <=? 21)%Z then
    String.substring 0 (Z.to_nat n) s ++ "." ++
    String.substring (Z.to_nat n) (Z.to_nat (k - n)) s
  else if (-6 <? n)%Z && (n <=? 0)%Z then "0." ++ zeros (- n) ++ s
  else
    let ex := (n - 1)%Z in
    let sign := if (ex <? 0)%Z then "-" else "+" in
    let mant := if (k =? 1)%Z then s
                else String.substring 0 1 s ++ "." ++
                     String.substring 1 (Z.to_nat (k - 1)) s in
    mant ++ "e" ++ sign ++ digits_of_Z (Z.abs ex).

Definition finite_toString (m : positive) (e : Z) : string :=
  let n := magnitude m e in
  let '(k, s) := shortest 21 m e n 1 in
  (* a ceiling that reached the next power of ten is that power's one digit *)
  if (s =? 10 ^ k)%Z then layout "1" 1 (n + 1)
  else layout (digits_of_Z s) k n.

Definition Number_toString (x : float) : string :=
  match Prim2SF x with
  | S754_nan => "NaN"
  | S754_zero _ => "0"
  | S754_infinity s => if s then "-Infinity" else "Infinity"
  | S754_finite s m e => (if s then "-" else "") ++ finite_toString m e
  end.

(** *** [parseFloat] *)

Definition is_digit (c : ascii) : bool :=
  (48 <=? nat_of_ascii c)%nat && (nat_of_ascii c <=? 57)%nat.

(** White space and line terminators among the 8-bit code units. *)
Definition is_white_space (c : ascii) : bool :=
  let n := nat_of_ascii c in
  ((9 <=? n)%nat && (n <=? 13)%nat) || (n =? 32)%nat || (n =? 160)%nat.

Fixpoint trim_start (s : string) : string :=
  match s with
  | String c s' => if is_white_space c then trim_start s' else s
  | EmptyString => s
  end.

(** The longest run of decimal digits at the head of [s], and the rest. *)
Fixpoint span_digits (s : string) : string * string :=
  match s with
  | String c s' =>
      if is_digit c
      then let '(d, r) := span_digits s' in (String c d, r)
      else ("", s)
  | EmptyString => ("", "")
  end.

Fixpoint Z_of_digits (acc : Z) (s : string) : Z :=
  match s with
  | String c s' => Z_of_digits (10 * acc + (Z.of_nat (nat_of_ascii c) - 48)) s'
  | EmptyString => acc
  end.

(** ExponentPart, when one is there: [e] or [E], a sign or none, digits. *)
Definition scan_exponent (s : string) : Z * string :=
  match s with
  | String c s1 =>
      if Ascii.eqb c "e" || Ascii.eqb c "E" then
        let '(neg, s2) :=
          match s1 with
          | String "+" r => (false, r)
          | String "-" r => (true, r)
          | _ => (false, s1)
          end in
        match span_digits s2 with
        | ("", _) => (0%Z, s)
        | (d, r) => ((if neg then - Z_of_digits 0 d else Z_of_digits 0 d)%Z, r)
        end
      else (0%Z, s)
  | EmptyString => (0%Z, s)
  end.

(** StrUnsignedDecimalLiteral at the head of [s]: its value and the rest. *)
Definition scan_unsigned (s : string) : option (float * string) :=
  if String.prefix "Infinity" s
  then Some (infinity, String.substring 8 (String.length s - 8) s)
  else
    let '(int_part, r1) := span_digits s in
    let '(dot, frac_part, r2) :=
      match r1 with
      | String "." r => let '(f, r') := span_digits r in (true, f, r')
      | _ => (false, "", r1)
      end in
    match int_part, frac_part with
    | "", "" => None
    | _, _ =>
        let rest := if dot then r2 else r1 in
        let '(ex, rest') := scan_exponent rest in
        let m := Z_of_digits 0 (int_part ++ frac_part) in
        Some (round_decimal m (ex - Z.of_nat (String.length frac_part)), rest')
    end.

(** StrDecimalLiteral at the head of [s]: a sign or none, then the above. *)
Definition scan_literal (s : string) : option (float * string) :=
  match s with
  | String "+" r => scan_unsigned r
  | String "-" r =>
      match scan_unsigned r with
      | Some (v, r') => Some (PrimFloat.opp v, r')
      | None => None
      end
  | _ => scan_unsigned s
  end.

(** [parseFloat(s)]: leading white space is skipped, the longest prefix that
    is a decimal literal gives the value and whatever follows it is ignored;
    [NaN] when there is no such prefix. *)
Definition parseFloat (s : string) : float :=
  match scan_literal (trim_start s) with
  | Some (v, _) => v
  | None => nan
  end.

End JS.

(** ** Tokens ([src/types/token.ts]) *)

Record Position := { pos_line : Z; pos_column : Z }.

Inductive TokenType :=
| BANAO | SADA | AGAR | WARNA | DOHRANA | JAB_TAK | SYSTEM | KA_SYSTEM
| RETURN | LIKHO | PUCHHO | RANGE | IN
| SACH | JHOOTH
| AUR | YA | NAHI
| IDENTIFIER | NUMBER | STRING
| PLUS | MINUS | MULTIPLY | DIVIDE | MODULO | POWER
| EQUAL | NOT_EQUAL | LESS_THAN | GREATER_THAN | LESS_EQUAL | GREATER_EQUAL
| ASSIGN
| LEFT_PAREN | RIGHT_PAREN | LEFT_BRACE | RIGHT_BRACE | COMMA | COLON
| NEWLINE | EOF | INDENT | DEDENT
(** What [keywords[text]] yields for a [text] that names a property every
    object inherits ([constructor], [toString], ...): a truthy value that is
    no member of the enumeration. *)
| INHERITED_PROPERTY (name : string).

Record Token := { type : TokenType; value : string; position : Position }.

(** [EasyLangError] ([lexer.ts], lines 3-13) *)
Record EasyLangError := {
  err_message : string;
  err_line : Z;
  err_column : Z;
  err_type : string
}.

(** The constructor, with its default for [type]. *)
Definition SyntaxError (message : string) (line column : Z) : EasyLangError :=
  {| err_message := message; err_line := line; err_column := column;
     err_type := "SyntaxError" |}.

(** ** The lexer ([src/interpreter/lexer.ts]) *)
Module Lexer.
Import JS.

(** The fields of the class. [indentStack] is the array as the source holds
    it: pushes at the end, the last entry on top. *)
Record t := mk {
  source : string;
  tokens : list Token;
  current : nat;
  line : Z;
  column : Z;
  indentStack : list nat
}.

Definition new (source : string) : t :=
  {| source := source; tokens := []; current := 0; line := 1; column := 1;
     indentStack := [0] |}.

Definition with_tokens (ts : list Token) (lx : t) : t :=
  mk (source lx) ts (current lx) (line lx) (column lx) (indentStack lx).
Definition with_current (c : nat) (lx : t) : t :=
  mk (source lx) (tokens lx) c (line lx) (column lx) (indentStack lx).
Definition with_line (l : Z) (lx : t) : t :=
  mk (source lx) (tokens lx) (current lx) l (column lx) (indentStack lx).
Definition with_column (c : Z) (lx : t) : t :=
  mk (source lx) (tokens lx) (current lx) (line lx) c (indentStack lx).
Definition with_indentStack (st : list nat) (lx : t) : t :=
  mk (source lx) (tokens lx) (current lx) (line lx) (column lx) st.

(** A call either returns, leaving the lexer in a new state, or throws. *)
Inductive Result :=
| Ok (lx : t)
| Throw (e : EasyLangError).

(** [keywords[text] || TokenType.IDENTIFIER]: the table is an object
    literal, so a lookup also finds what every object inherits. *)
Definition inherited_properties : list string :=
  ["constructor"; "hasOwnProperty"; "isPrototypeOf"; "propertyIsEnumerable";
   "toLocaleString"; "toString"; "valueOf"; "__proto__";
   "__defineGetter__"; "__defineSetter__"; "__lookupGetter__"; "__lookupSetter__"].

Definition keywords (text : string) : option TokenType :=
  if String.eqb text "banao" then Some BANAO
  else if String.eqb text "sada" then Some SADA
  else if String.eqb text "agar" then Some AGAR
  else if String.eqb text "warna" then Some WARNA
  else if String.eqb text "dohrana" then Some DOHRANA
  else if String.eqb text "jab" then Some JAB_TAK
  else if String.eqb text "tak" then Some JAB_TAK
  else if String.eqb text "system" then Some SYSTEM
  else if String.eqb text "ka" then Some KA_SYSTEM
  else if String.eqb text "return" then Some RETURN
  else if String.eqb text "likho" then Some LIKHO
  else if String.eqb text "puchho" then Some PUCHHO
  else if String.eqb text "range" then Some RANGE
  else if String.eqb text "in" then Some IN
  else if String.eqb text "sach" then Some SACH
  else if String.eqb text "jhooth" then Some JHOOTH
  else if String.eqb text "aur" then Some AUR
  else if String.eqb text "ya" then Some YA
  else if String.eqb text "nahi" then Some NAHI
  else if existsb (String.eqb text) inherited_properties
       then Some (INHERITED_PROPERTY text)
  else None.

Definition isDigit (c : ascii) : bool :=
  (48 <=? nat_of_ascii c)%nat && (nat_of_ascii c <=? 57)%nat.

Definition isAlpha (c : ascii) : bool :=
  let n := nat_of_ascii c in
  ((97 <=? n)%nat && (n <=? 122)%nat) || ((65 <=? n)%nat && (n <=? 90)%nat)
  || Ascii.eqb c "_".

Definition isAlphaNumeric (c : ascii) : bool := isAlpha c || isDigit c.

Definition isAtEnd (lx : t) : bool := (String.length (source lx) <=? current lx)%nat.

(** [advance()]: the character read ([None] for the empty string that
    [charAt] gives past the end) and the lexer after it. *)
Definition advance (lx : t) : option ascii * t :=
  (charAt (source lx) (current lx),
   with_current (S (current lx)) (with_column (column lx + 1) lx)).

(** [match(expected)] *)
Definition match_ (expected : ascii) (lx : t) : bool * t :=
  if isAtEnd lx then (false, lx)
  else
    match charAt (source lx) (current lx) with
    | Some c =>
        if Ascii.eqb c expected
        then (true, with_column (column lx + 1) (with_current (S (current lx)) lx))
        else (false, lx)
    | None => (false, lx)
    end.

Definition peek (lx : t) : ascii :=
  if isAtEnd lx then NUL else default NUL (charAt (source lx) (current lx)).

Definition peekNext (lx : t) : ascii :=
  if (String.length (source lx) <=? current lx + 1)%nat then NUL
  else default NUL (charAt (source lx) (current lx + 1)).

Definition addToken (ty : TokenType) (v : string) (lx : t) : t :=
  with_tokens
    (tokens lx ++
     [{| type := ty; value := v;
         position := {| pos_line := line lx;
                        pos_column := column lx - Z.of_nat (String.length v) |} |}])
    lx.

(** [while (cond) { this.advance(); }]: every turn moves [current] on, so
    the length of the source bounds the turns. *)
Fixpoint advanceWhile (cond : t -> bool) (fuel : nat) (lx : t) : t :=
  match fuel with
  | O => lx
  | S fuel' => if cond lx then advanceWhile cond fuel' (snd (advance lx)) else lx
  end.

Definition remaining (lx : t) : nat := S (String.length (source lx) - current lx).

(** The loop of [handleIndentation] that measures the run of blanks. *)
Fixpoint countIndent (fuel : nat) (indent : nat) (lx : t) : nat * t :=
  match fuel with
  | O => (indent, lx)
  | S fuel' =>
      if negb (isAtEnd lx) && (Ascii.eqb (peek lx) " " || Ascii.eqb (peek lx) TAB)
      then
        let indent' := if Ascii.eqb (peek lx) " " then indent + 1 else indent + 4 in
        countIndent fuel' indent' (snd (advance lx))
      else (indent, lx)
  end.

(** The loop of [handleIndentation] that pops and emits DEDENT. *)
Fixpoint popIndents (fuel : nat) (indent : nat) (lx : t) : t :=
  match fuel with
  | O => lx
  | S fuel' =>
      if (1 <? length (indentStack lx))%nat && (indent <? List.last (indentStack lx) 0)%nat
      then popIndents fuel' indent
             (addToken DEDENT "" (with_indentStack (List.removelast (indentStack lx)) lx))
      else lx
  end.

Definition handleIndentation (lx : t) : Result :=
  let lx := with_current (current lx - 1) lx in
  let startColumn := column lx in
  let '(indent, lx) := countIndent (remaining lx) 0 lx in
  let currentIndent := List.last (indentStack lx) 0 in
  if (currentIndent <? indent)%nat then
    Ok (addToken INDENT (repeat " " indent)
          (with_indentStack (indentStack lx ++ [indent]) lx))
  else if (indent <? currentIndent)%nat then
    let lx := popIndents (length (indentStack lx)) indent lx in
    if negb (List.last (indentStack lx) 0 =? indent)%nat
    then Throw (SyntaxError "Indentation error" (line lx) startColumn)
    else Ok lx
  else Ok lx.

(** The scanning loop of [string()], which also counts lines. *)
Fixpoint stringBody (fuel : nat) (lx : t) : t :=
  match fuel with
  | O => lx
  | S fuel' =>
      if negb (Ascii.eqb (peek lx) DQUOTE) && negb (isAtEnd lx) then
        let lx :=
          if Ascii.eqb (peek lx) LF
          then with_column 1 (with_line (line lx + 1) lx)
          else lx in
        stringBody fuel' (snd (advance lx))
      else lx
  end.

Definition string_ (lx : t) : Result :=
  let start := current lx - 1 in
  let lx := stringBody (remaining lx) lx in
  if isAtEnd lx then Throw (SyntaxError "Unterminated string" (line lx) (column lx))
  else
    let lx := snd (advance lx) in
    let v := substring (source lx) (start + 1) (current lx - 1) in
    Ok (addToken STRING v lx).

Definition number (lx : t) : t :=
  let start := current lx - 1 in
  let lx := advanceWhile (fun l => isDigit (peek l)) (remaining lx) lx in
  let lx :=
    if Ascii.eqb (peek lx) "." && isDigit (peekNext lx) then
      let lx := snd (advance lx) in
      advanceWhile (fun l => isDigit (peek l)) (remaining lx) lx
    else lx in
  addToken NUMBER (substring (source lx) start (current lx)) lx.

(** The two-word keywords: [first] has been read and a blank follows; the
    token is merged when [second] stands right after that blank, and the
    blank is given back otherwise. *)
Definition compound (second : string) (ty : TokenType) (merged : string)
    (lx : t) : option t * t :=
  let nextStart := current lx + 1 in
  let lx := snd (advance lx) in
  let n := String.length second in
  if String.eqb (substring (source lx) nextStart (nextStart + n)) second then
    let lx := with_column (column lx + Z.of_nat n) (with_current (current lx + n) lx) in
    (Some (addToken ty merged lx), lx)
  else
    (None, with_column (column lx - 1) (with_current (current lx - 1) lx)).

Definition identifier (lx : t) : t :=
  let start := current lx - 1 in
  let lx := advanceWhile (fun l => isAlphaNumeric (peek l)) (remaining lx) lx in
  let text := substring (source lx) start (current lx) in
  let '(done1, lx) :=
    if String.eqb text "jab" && Ascii.eqb (peek lx) " "
    then compound "tak" JAB_TAK "jab tak" lx
    else (None, lx) in
  match done1 with
  | Some lx' => lx'
  | None =>
      let '(done2, lx) :=
        if String.eqb text "ka" && Ascii.eqb (peek lx) " "
        then compound "system" KA_SYSTEM "ka system" lx
        else (None, lx) in
      match done2 with
      | Some lx' => lx'
      | None => addToken (default IDENTIFIER (keywords text)) text lx
      end
  end.

Definition charIs (c : option ascii) (ch : ascii) : bool :=
  match c with
  | Some x => Ascii.eqb x ch
  | None => false
  end.

(** One or two characters: [two] when [second] follows, [one] otherwise. *)
Definition oneOrTwo (second : ascii) (two : TokenType) (twoText : string)
    (one : TokenType) (oneText : string) (lx : t) : t :=
  let '(m, lx) := match_ second lx in
  if m then addToken two twoText lx else addToken one oneText lx.

Definition scanToken (lx : t) : Result :=
  let '(c, lx) := advance lx in
  if charIs c " " || charIs c CR || charIs c TAB then
    if (column lx =? 2)%Z then handleIndentation lx else Ok lx
  else if charIs c LF then
    let lx := addToken NEWLINE (String LF "") lx in
    Ok (with_column 1 (with_line (line lx + 1) lx))
  else if charIs c "+" then Ok (addToken PLUS "+" lx)
  else if charIs c "-" then Ok (addToken MINUS "-" lx)
  else if charIs c "/" then Ok (addToken DIVIDE "/" lx)
  else if charIs c "%" then Ok (addToken MODULO "%" lx)
  else if charIs c "(" then Ok (addToken LEFT_PAREN "(" lx)
  else if charIs c ")" then Ok (addToken RIGHT_PAREN ")" lx)
  else if charIs c "{" then Ok (addToken LEFT_BRACE "{" lx)
  else if charIs c "}" then Ok (addToken RIGHT_BRACE "}" lx)
  else if charIs c "," then Ok (addToken COMMA "," lx)
  else if charIs c ":" then Ok (addToken COLON ":" lx)
  else if charIs c "*" then Ok (oneOrTwo "*" POWER "**" MULTIPLY "*" lx)
  else if charIs c "=" then Ok (oneOrTwo "=" EQUAL "==" ASSIGN "=" lx)
  else if charIs c "!" then
    let '(m, lx) := match_ "=" lx in
    if m then Ok (addToken NOT_EQUAL "!=" lx)
    else Throw (SyntaxError "Unexpected character" (line lx) (column lx))
  else if charIs c "<" then Ok (oneOrTwo "=" LESS_EQUAL "<=" LESS_THAN "<" lx)
  else if charIs c ">" then Ok (oneOrTwo "=" GREATER_EQUAL ">=" GREATER_THAN ">" lx)
  else if charIs c DQUOTE then string_ lx
  else if charIs c "#" then
    Ok (advanceWhile (fun l => negb (Ascii.eqb (peek l) LF) && negb (isAtEnd l))
          (remaining lx) lx)
  else
    match c with
    | Some ch =>
        if isDigit ch then Ok (number lx)
        else if isAlpha ch then Ok (identifier lx)
        else Throw (SyntaxError ("Unexpected character: " ++ String ch "")
                      (line lx) (column lx))
    | None => Throw (SyntaxError "Unexpected character: " (line lx) (column lx))
    end.

(** What [tokenize()] gives: the token array, or the error it threw.
    [OutOfSteps] is the bound of the model running out. *)
Inductive Outcome :=
| Tokens (ts : list Token)
| Failed (e : EasyLangError)
| OutOfSteps.

(** [while (this.indentStack.length > 1) { pop; DEDENT }] *)
Fixpoint finalDedents (fuel : nat) (lx : t) : t :=
  match fuel with
  | O => lx
  | S fuel' =>
      if (1 <? length (indentStack lx))%nat
      then finalDedents fuel'
             (addToken DEDENT "" (with_indentStack (List.removelast (indentStack lx)) lx))
      else lx
  end.

Fixpoint scanAll (fuel : nat) (lx : t) : Outcome :=
  if isAtEnd lx then
    let lx := finalDedents (length (indentStack lx)) lx in
    Tokens (tokens (addToken EOF "" lx))
  else
    match fuel with
    | O => OutOfSteps
    | S fuel' =>
        match scanToken lx with
        | Ok lx' => scanAll fuel' lx'
        | Throw e => Failed e
        end
    end.

(** [new Lexer(source).tokenize()]. A call of [scanToken] that finds a
    carriage return first on its line reads it a second time, and every
    other call moves on, so twice the length bounds the calls. *)
Definition tokenize (source : string) : Outcome :=
  scanAll (2 * String.length source + 1) (new source).

End Lexer.

(** ** The syntax tree ([src/types/ast.ts]) *)

(** [Literal.value] with its [dataType] tag. *)
Inductive LiteralValue :=
| LNumber (v : float)
| LString (v : string)
| LBoolean (v : bool).

(** [CallExpression.callee] is [(callee as Identifier).name]: [None] is the
    [undefined] that reading [name] off any other node gives. *)
Inductive Expression :=
| BinaryExpression (left : Expression) (operator : string) (right : Expression)
    (position : Position)
| UnaryExpression (operator : string) (operand : Expression) (position : Position)
| CallExpression (callee : option string) (arguments : list Expression)
    (position : Position)
| Identifier (name : string) (position : Position)
| Literal (v : LiteralValue) (position : Position)
| InputStatement (prompt : string) (position : Position).

Inductive FunctionStyle := system_style | arrow_style.

Inductive Statement :=
| VariableDeclaration (identifier : string) (v : Expression) (isConstant : bool)
    (position : Position)
| Assignment (identifier : string) (v : Expression) (position : Position)
| IfStatement (condition : Expression) (thenBranch : list Statement)
    (elseBranch : option (list Statement)) (position : Position)
| WhileLoop (condition : Expression) (body : list Statement) (position : Position)
| ForLoop (variable : string) (iterable : Expression) (body : list Statement)
    (position : Position)
| FunctionDeclaration (name : string) (parameters : list string)
    (body : list Statement) (style : FunctionStyle) (position : Position)
| ReturnStatement (v : option Expression) (position : Position)
| PrintStatement (v : Expression) (position : Position)
(** an expression in statement position ([expr as Statement]) *)
| ExpressionStatement (e : Expression).

Record Program := { program_body : list Statement; program_position : Position }.

Definition expression_position (e : Expression) : Position :=
  match e with
  | BinaryExpression _ _ _ p | UnaryExpression _ _ p | CallExpression _ _ p
  | Identifier _ p | Literal _ p | InputStatement _ p => p
  end.

(** ** The parser ([src/interpreter/parser.ts]) *)
Module Parser.

Record t := mk { tokens : list Token; current : nat }.

Definition new (tokens : list Token) : t := {| tokens := tokens; current := 0 |}.

(** A call returns a value, throws, or exhausts the depth the model allows. *)
Inductive Result (A : Type) :=
| Ok (a : A) (p : t)
| Throw (e : EasyLangError) (p : t)
| OutOfFuel.
Arguments Ok {A}. Arguments Throw {A}. Arguments OutOfFuel {A}.

Definition M (A : Type) : Type := t -> Result A.

Definition ret {A} (a : A) : M A := fun p => Ok a p.
Definition bind {A B} (m : M A) (k : A -> M B) : M B :=
  fun p => match m p with
           | Ok a p' => k a p'
           | Throw e p' => Throw e p'
           | OutOfFuel => OutOfFuel
           end.
Definition throw {A} (e : EasyLangError) : M A := fun p => Throw e p.
Definition outOfFuel {A} : M A := fun _ => OutOfFuel.

Notation "x <- m ;; k" := (bind m (fun x => k))
  (at level 100, m at next level, right associativity).
Notation "m ;;; k" := (bind m (fun _ => k))
  (at level 100, right associativity).

(** [this.tokens[i]]. Every array [tokenize] builds ends in EOF and
    [advance] never steps past an EOF, so the parser reads inside the array;
    outside it this gives an EOF token where the host gives [undefined]. *)
Definition tokenAt (ts : list Token) (i : nat) : Token :=
  default {| type := EOF; value := ""; position := {| pos_line := 0; pos_column := 0 |} |}
          (ts !! i).

Definition TokenType_eqb (a b : TokenType) : bool :=
  match a, b with
  | BANAO, BANAO | SADA, SADA | AGAR, AGAR | WARNA, WARNA | DOHRANA, DOHRANA
  | JAB_TAK, JAB_TAK | SYSTEM, SYSTEM | KA_SYSTEM, KA_SYSTEM | RETURN, RETURN
  | LIKHO, LIKHO | PUCHHO, PUCHHO | RANGE, RANGE | IN, IN | SACH, SACH
  | JHOOTH, JHOOTH | AUR, AUR | YA, YA | NAHI, NAHI | IDENTIFIER, IDENTIFIER
  | NUMBER, NUMBER | STRING, STRING | PLUS, PLUS | MINUS, MINUS
  | MULTIPLY, MULTIPLY | DIVIDE, DIVIDE | MODULO, MODULO | POWER, POWER
  | EQUAL, EQUAL | NOT_EQUAL, NOT_EQUAL | LESS_THAN, LESS_THAN
  | GREATER_THAN, GREATER_THAN | LESS_EQUAL, LESS_EQUAL
  | GREATER_EQUAL, GREATER_EQUAL | ASSIGN, ASSIGN | LEFT_PAREN, LEFT_PAREN
  | RIGHT_PAREN, RIGHT_PAREN | LEFT_BRACE, LEFT_BRACE | RIGHT_BRACE, RIGHT_BRACE
  | COMMA, COMMA | COLON, COLON | NEWLINE, NEWLINE | EOF, EOF | INDENT, INDENT
  | DEDENT, DEDENT => true
  | INHERITED_PROPERTY x, INHERITED_PROPERTY y => String.eqb x y
  | _, _ => false
  end.

Definition peek (p : t) : Token := tokenAt (tokens p) (current p).
Definition previous (p : t) : Token := tokenAt (tokens p) (current p - 1).
Definition isAtEnd (p : t) : bool := TokenType_eqb (type (peek p)) EOF.

Definition check (ty : TokenType) (p : t) : bool :=
  if isAtEnd p then false else TokenType_eqb (type (peek p)) ty.

Definition advance : M Token :=
  fun p =>
    let p' := if negb (isAtEnd p) then mk (tokens p) (S (current p)) else p in
    Ok (previous p') p'.

(** [match(...types)] *)
Fixpoint match_ (types : list TokenType) : M bool :=
  match types with
  | [] => ret false
  | ty :: rest =>
      fun p => if check ty p then (advance ;;; ret true) p else match_ rest p
  end.

Definition consume (ty : TokenType) (message : string) : M Token :=
  fun p =>
    if check ty p then advance p
    else
      let token := peek p in
      Throw (SyntaxError message (pos_line (position token))
               (pos_column (position token))) p.

(** [getPosition()] without an argument *)
Definition getPosition : M Position := fun p => Ok (position (previous p)) p.

Definition startsStatement (ty : TokenType) : bool :=
  match ty with
  | BANAO | SADA | AGAR | DOHRANA | JAB_TAK | SYSTEM | RETURN | LIKHO => true
  | _ => false
  end.

(** The loop of [synchronize()]; every turn advances. *)
Fixpoint synchronizeLoop (fuel : nat) (p : t) : t :=
  match fuel with
  | O => p
  | S fuel' =>
      if isAtEnd p then p
      else if TokenType_eqb (type (previous p)) NEWLINE then p
      else if startsStatement (type (peek p)) then p
      else
        match advance p with
        | Ok _ p' => synchronizeLoop fuel' p'
        | _ => p
        end
  end.

Definition synchronize (p : t) : t :=
  match advance p with
  | Ok _ p' => synchronizeLoop (length (tokens p)) p'
  | _ => p
  end.

(** [try { m } catch (error) { this.synchronize(); throw error; }] *)
Definition recovering {A} (m : M A) : M A :=
  fun p => match m p with
           | Throw e p' => Throw e (synchronize p')
           | r => r
           end.

Definition consumeNewlineAndIndent : M unit :=
  consume NEWLINE "Expected newline" ;;;
  m <- match_ [INDENT] ;;
  if m then ret tt
  else fun p => Throw (SyntaxError "Expected indentation"
                         (pos_line (position (peek p)))
                         (pos_column (position (peek p)))) p.

(** *** Expressions

    [expression] stands for [this.expression()] one level of nesting further
    in; [fuel] bounds the turns of the loops and the self-recursion of
    [unary] and [power]. The knot is tied by [expression] below. *)
Section Expressions.
Variable expression : M Expression.

Definition primary : M Expression :=
  fun p =>
    if check SACH p then
      (advance ;;; pos <- getPosition ;; ret (Literal (LBoolean true) pos)) p
    else if check JHOOTH p then
      (advance ;;; pos <- getPosition ;; ret (Literal (LBoolean false) pos)) p
    else if check NUMBER p then
      (tok <- advance ;; pos <- getPosition ;;
       ret (Literal (LNumber (JS.parseFloat (value tok))) pos)) p
    else if check STRING p then
      (tok <- advance ;; pos <- getPosition ;;
       ret (Literal (LString (value tok)) pos)) p
    else if check PUCHHO p then
      (advance ;;;
       tok <- consume STRING "Expected string after puchho" ;;
       pos <- getPosition ;;
       ret (InputStatement (value tok) pos)) p
    else if check RANGE p then
      (advance ;;;
       consume LEFT_PAREN ("Expected " ++ JS.quoted "(" ++ " after range") ;;;
       arg <- expression ;;
       consume RIGHT_PAREN ("Expected " ++ JS.quoted ")" ++ " after range argument") ;;;
       pos <- getPosition ;;
       ret (CallExpression (Some "range") [arg] pos)) p
    else if check IDENTIFIER p then
      (tok <- advance ;; pos <- getPosition ;;
       ret (Identifier (value tok) pos)) p
    else if check LEFT_PAREN p then
      (advance ;;;
       expr <- expression ;;
       consume RIGHT_PAREN ("Expected " ++ JS.quoted ")" ++ " after expression") ;;;
       ret expr) p
    else
      Throw (SyntaxError "Expected expression"
               (pos_line (position (peek p)))
               (pos_column (position (peek p)))) p.

(** [do { args.push(this.expression()); } while (this.match(COMMA));] *)
Fixpoint argumentsLoop (fuel : nat) (args : list Expression) : M (list Expression) :=
  match fuel with
  | O => outOfFuel
  | S f =>
      e <- expression ;;
      m <- match_ [COMMA] ;;
      if m then argumentsLoop f (args ++ [e])%list else ret (args ++ [e])%list
  end.

Definition finishCall (fuel : nat) (callee : Expression) : M Expression :=
  args <- (fun p => if negb (check RIGHT_PAREN p)
                    then argumentsLoop fuel [] p else Ok [] p) ;;
  consume RIGHT_PAREN ("Expected " ++ JS.quoted ")" ++ " after arguments") ;;;
  ret (CallExpression
         (match callee with Identifier name _ => Some name | _ => None end)
         args (expression_position callee)).

(** [while (true) { if (this.match(LEFT_PAREN)) ... else break; }] *)
Fixpoint callLoop (fuel : nat) (expr : Expression) : M Expression :=
  match fuel with
  | O => outOfFuel
  | S f =>
      m <- match_ [LEFT_PAREN] ;;
      if m then (expr' <- finishCall f expr ;; callLoop f expr')
      else ret expr
  end.

Definition call (fuel : nat) : M Expression :=
  expr <- primary ;; callLoop fuel expr.

Fixpoint unary (fuel : nat) : M Expression :=
  match fuel with
  | O => outOfFuel
  | S f =>
      m <- match_ [NAHI; MINUS] ;;
      if m then
        fun p =>
          let operator := value (previous p) in
          (right <- unary f ;;
           pos <- getPosition ;;
           ret (UnaryExpression operator right pos)) p
      else call f
  end.

(** One turn of a loop [while (this.match(...)) { ... }] of a binary
    level: [operand] parses the right side, [again] is the next turn. *)
Definition binaryTurn (types : list TokenType) (operand : M Expression)
    (again : Expression -> M Expression) (expr : Expression) : M Expression :=
  m <- match_ types ;;
  if m then
    fun p =>
      let operator := value (previous p) in
      (right <- operand ;;
       again (BinaryExpression expr operator right (expression_position expr))) p
  else ret expr.

Fixpoint binaryLoop (types : list TokenType) (operand : M Expression)
    (fuel : nat) (expr : Expression) : M Expression :=
  match fuel with
  | O => outOfFuel
  | S f => binaryTurn types operand (binaryLoop types operand f) expr
  end.

(** Right associative: an [if], not a loop, whose right side is [power]. *)
Fixpoint power (fuel : nat) : M Expression :=
  match fuel with
  | O => outOfFuel
  | S f => expr <- unary f ;; binaryTurn [POWER] (power f) ret expr
  end.

Definition factor (fuel : nat) : M Expression :=
  expr <- power fuel ;;
  binaryLoop [DIVIDE; MULTIPLY; MODULO] (power fuel) fuel expr.

Definition term (fuel : nat) : M Expression :=
  expr <- factor fuel ;; binaryLoop [MINUS; PLUS] (factor fuel) fuel expr.

Definition comparison (fuel : nat) : M Expression :=
  expr <- term fuel ;;
  binaryLoop [GREATER_THAN; GREATER_EQUAL; LESS_THAN; LESS_EQUAL]
    (term fuel) fuel expr.

Definition equality (fuel : nat) : M Expression :=
  expr <- comparison fuel ;;
  binaryLoop [EQUAL; NOT_EQUAL] (comparison fuel) fuel expr.

Definition logicalAnd (fuel : nat) : M Expression :=
  expr <- equality fuel ;; binaryLoop [AUR] (equality fuel) fuel expr.

Definition logicalOr (fuel : nat) : M Expression :=
  expr <- logicalAnd fuel ;; binaryLoop [YA] (logicalAnd fuel) fuel expr.

End Expressions.

Fixpoint expression (fuel : nat) : M Expression :=
  match fuel with
  | O => outOfFuel
  | S f => logicalOr (expression f) f
  end.

(** *** Statements

    [statement] stands for [this.statement()] one block further in; the
    knot is tied by [statement] below. *)
Section Statements.
Variable fuel : nat.
Variable statement : M Statement.

Definition variableDeclaration (isConstant : bool) : M Statement :=
  name <- consume IDENTIFIER
            ("Expected variable name after " ++ (if isConstant then "sada" else "banao")) ;;
  consume ASSIGN ("Expected " ++ JS.quoted "=" ++ " after variable name") ;;;
  v <- expression fuel ;;
  ret (VariableDeclaration (value name) v isConstant (position name)).

(** The loop of [blockStatement]; a turn consumes a NEWLINE or parses a
    statement. *)
Fixpoint blockLoop (n : nat) (isArrowFunction : bool)
    (statements : list Statement) : M (list Statement) :=
  match n with
  | O => outOfFuel
  | S n' =>
      fun p =>
        if negb (check DEDENT p) && negb (check EOF p)
           && (negb isArrowFunction || negb (check RIGHT_BRACE p))
        then
          (m <- match_ [NEWLINE] ;;
           if m then blockLoop n' isArrowFunction statements
           else
             stmt <- statement ;;
             blockLoop n' isArrowFunction (statements ++ [stmt])%list) p
        else Ok statements p
  end.

Definition blockStatement (isArrowFunction : bool) : M (list Statement) :=
  statements <- blockLoop fuel isArrowFunction [] ;;
  (if negb isArrowFunction then match_ [DEDENT] else ret false) ;;;
  ret statements.

Definition ifStatement : M Statement :=
  condition <- expression fuel ;;
  consume COLON ("Expected " ++ JS.quoted ":" ++ " after if condition") ;;;
  consumeNewlineAndIndent ;;;
  thenBranch <- blockStatement false ;;
  m <- match_ [WARNA] ;;
  elseBranch <- (if m then
                   consume COLON ("Expected " ++ JS.quoted ":" ++ " after warna") ;;;
                   consumeNewlineAndIndent ;;;
                   b <- blockStatement false ;;
                   ret (Some b)
                 else ret None) ;;
  pos <- getPosition ;;
  ret (IfStatement condition thenBranch elseBranch pos).

Definition forLoop : M Statement :=
  variable <- consume IDENTIFIER "Expected variable name in for loop" ;;
  consume IN ("Expected " ++ JS.quoted "in" ++ " after for loop variable") ;;;
  iterable <- expression fuel ;;
  consume COLON ("Expected " ++ JS.quoted ":" ++ " after for loop expression") ;;;
  consumeNewlineAndIndent ;;;
  body <- blockStatement false ;;
  pos <- getPosition ;;
  ret (ForLoop (value variable) iterable body pos).

Definition whileLoop : M Statement :=
  condition <- expression fuel ;;
  consume COLON ("Expected " ++ JS.quoted ":" ++ " after while condition") ;;;
  consumeNewlineAndIndent ;;;
  body <- blockStatement false ;;
  pos <- getPosition ;;
  ret (WhileLoop condition body pos).

(** [do { parameters.push(consume(IDENTIFIER).value); } while (match(COMMA));] *)
Fixpoint parametersLoop (n : nat) (parameters : list string) : M (list string) :=
  match n with
  | O => outOfFuel
  | S n' =>
      tok <- consume IDENTIFIER "Expected parameter name" ;;
      m <- match_ [COMMA] ;;
      if m then parametersLoop n' (parameters ++ [value tok])%list
      else ret (parameters ++ [value tok])%list
  end.

(** [functionDeclaration(style, name?)]; [name] is given for the arrow style. *)
Definition functionDeclaration (style : FunctionStyle) (name : string) : M Statement :=
  functionName <- (match style with
                   | system_style =>
                       tok <- consume IDENTIFIER "Expected function name" ;;
                       ret (value tok)
                   | arrow_style => ret name
                   end) ;;
  consume LEFT_PAREN ("Expected " ++ JS.quoted "(" ++ " after function name") ;;;
  parameters <- (fun p => if negb (check RIGHT_PAREN p)
                          then parametersLoop fuel [] p else Ok [] p) ;;
  consume RIGHT_PAREN ("Expected " ++ JS.quoted ")" ++ " after parameters") ;;;
  (match style with
   | system_style =>
       consume COLON ("Expected " ++ JS.quoted ":" ++ " after function signature") ;;;
       consumeNewlineAndIndent
   | arrow_style =>
       consume LEFT_BRACE ("Expected " ++ JS.quoted "{" ++ " after arrow function signature") ;;;
       match_ [NEWLINE] ;;; ret tt
   end) ;;;
  body <- blockStatement (match style with arrow_style => true | _ => false end) ;;
  (match style with
   | arrow_style =>
       consume RIGHT_BRACE ("Expected " ++ JS.quoted "}" ++ " after arrow function body") ;;;
       ret tt
   | system_style => ret tt
   end) ;;;
  pos <- getPosition ;;
  ret (FunctionDeclaration functionName parameters body style pos).

Definition returnStatement : M Statement :=
  v <- (fun p => if negb (check NEWLINE p) && negb (isAtEnd p)
                 then (e <- expression fuel ;; ret (Some e)) p
                 else Ok None p) ;;
  pos <- getPosition ;;
  ret (ReturnStatement v pos).

Definition printStatement : M Statement :=
  v <- expression fuel ;;
  pos <- getPosition ;;
  ret (PrintStatement v pos).

Definition assignmentOrExpression : M Statement :=
  expr <- expression fuel ;;
  match expr with
  | Identifier name pos =>
      m <- match_ [ASSIGN] ;;
      if m then (v <- expression fuel ;; ret (Assignment name v pos))
      else ret (ExpressionStatement expr)
  | _ => ret (ExpressionStatement expr)
  end.

(** The body of [statement()]. *)
Definition statementBody : M Statement :=
  recovering
    (fun p =>
       if check BANAO p then (advance ;;; variableDeclaration false) p
       else if check SADA p then (advance ;;; variableDeclaration true) p
       else if check AGAR p then (advance ;;; ifStatement) p
       else if check DOHRANA p then (advance ;;; forLoop) p
       else if check JAB_TAK p then (advance ;;; whileLoop) p
       else if check SYSTEM p then (advance ;;; functionDeclaration system_style "") p
       else if check RETURN p then (advance ;;; returnStatement) p
       else if check LIKHO p then (advance ;;; printStatement) p
       else if check IDENTIFIER p then
         let checkpoint := current p in
         (name <- advance ;;
          m <- match_ [KA_SYSTEM] ;;
          if m then functionDeclaration arrow_style (value name)
          else fun p' => assignmentOrExpression (mk (tokens p') checkpoint)) p
       else assignmentOrExpression p).

End Statements.

Fixpoint statement (fuel : nat) : M Statement :=
  match fuel with
  | O => outOfFuel
  | S f => statementBody f (statement f)
  end.

(** The loop of [parse()]. *)
Fixpoint parseLoop (fuel : nat) (statements : list Statement) : M (list Statement) :=
  match fuel with
  | O => outOfFuel
  | S f =>
      fun p =>
        if negb (isAtEnd p) then
          if check NEWLINE p then (advance ;;; parseLoop f statements) p
          else (stmt <- statement f ;; parseLoop f (statements ++ [stmt])%list) p
        else Ok statements p
  end.

(** What [parse()] gives: the program, or the error it threw. [Exhausted]
    is the depth bound of the model running out. *)
Inductive Outcome :=
| Parsed (program : Program)
| Failed (e : EasyLangError)
| Exhausted.

(** [new Parser(tokens).parse()]. Every turn of a loop and every level of
    nesting consumes a token, so a bound linear in their number is enough. *)
Definition parse (tokens : list Token) : Outcome :=
  match parseLoop (2 * length tokens + 16) [] (new tokens) with
  | Ok statements _ =>
      Parsed {| program_body := statements;
                program_position := {| pos_line := 1; pos_column := 1 |} |}
  | Throw e _ => Failed e
  | OutOfFuel => Exhausted
  end.

End Parser.

(** ** The interpreter ([src/interpreter/interpreter.ts]) *)

(** [EasyLangFunction]. Environments are objects that closures share, so the
    interpreter keeps them in a store and [closure] is an address in it.
    A function object is never written after its creation; [identity] tells
    one object from another, as [===] does. *)
Record EasyLangFunction := {
  identity : nat;
  name : string;
  parameters : list string;
  body : list Statement;
  closure : nat
}.

(** [RuntimeValue]: the [type] tag with the [value] it goes with. *)
Inductive RuntimeValue :=
| VNumber (v : float)
| VString (v : string)
| VBoolean (v : bool)
| VFunction (v : EasyLangFunction)
| VRange (v : float).

(** What a [throw] carries. *)
Inductive Thrown :=
| Error (message : string)
| ReturnException (v : RuntimeValue)
| Positioned (e : EasyLangError).

(** [class Environment] *)
Module Environment.

Record t := mk {
  values : gmap string RuntimeValue;
  constants : gset string;
  parent : option nat
}.

(** [new Environment(parent)] *)
Definition new (parent : option nat) : t :=
  {| values := ∅; constants := ∅; parent := parent |}.

(** The store of environments; an environment is named by its index. *)
Abbreviation store := (list t).

Definition at_ (h : store) (self : nat) : t := default (new None) (h !! self).

Definition has (e : t) (name : string) : bool := bool_decide (is_Some (values e !! name)).

(** [define(name, value, isConstant)] on the environment at [self] *)
Definition define (self : nat) (name : string) (v : RuntimeValue)
    (isConstant : bool) (h : store) : Thrown + store :=
  let e := at_ h self in
  if has e name then inl (Error ("Variable '" ++ name ++ "' already defined"))
  else
    inr (<[self := {| values := <[name := v]> (values e);
                      constants := if isConstant then {[name]} ∪ constants e
                                   else constants e;
                      parent := parent e |}]> h).

(** [get(name)]. An environment is created after its parent, so a chain
    that starts at [self] has at most [self + 1] links: [fuel] counts them. *)
Fixpoint get_from (fuel : nat) (h : store) (self : nat) (name : string)
    : Thrown + RuntimeValue :=
  let e := at_ h self in
  match values e !! name with
  | Some v => inr v
  | None =>
      match parent e, fuel with
      | Some p, S fuel' => get_from fuel' h p name
      | _, _ => inl (Error ("Undefined variable '" ++ name ++ "'"))
      end
  end.

Definition get (self : nat) (name : string) (h : store) : Thrown + RuntimeValue :=
  get_from self h self name.

(** [assign(name, value)] *)
Fixpoint assign_from (fuel : nat) (h : store) (self : nat) (name : string)
    (v : RuntimeValue) : Thrown + store :=
  let e := at_ h self in
  if bool_decide (name ∈ constants e)
  then inl (Error ("Cannot reassign constant '" ++ name ++ "'"))
  else if has e name then
    inr (<[self := {| values := <[name := v]> (values e);
                      constants := constants e;
                      parent := parent e |}]> h)
  else
    match parent e, fuel with
    | Some p, S fuel' => assign_from fuel' h p name v
    | _, _ => inl (Error ("Undefined variable '" ++ name ++ "'"))
    end.

Definition assign (self : nat) (name : string) (v : RuntimeValue) (h : store)
    : Thrown + store :=
  assign_from self h self name v.

End Environment.

(** The object [interpret] returns; [error] is absent ([None]) on success. *)
Record InterpretResult := { result_output : list string; result_error : option string }.

Module Interpreter.

(** The fields of the class. [globals] is the environment at address 0.
    [inputCallback] is the host's function: what it answers may depend on
    how often it has been asked, which [inputCalls] counts. [functionCount]
    numbers the function objects created so far. *)
Record t := mk {
  heap : Environment.store;
  environment : nat;
  output : list string;
  inputCallback : option (nat -> string -> string);
  inputCalls : nat;
  functionCount : nat
}.

Definition globals : nat := 0.

Definition with_heap (h : Environment.store) (st : t) : t :=
  mk h (environment st) (output st) (inputCallback st) (inputCalls st) (functionCount st).
Definition with_environment (e : nat) (st : t) : t :=
  mk (heap st) e (output st) (inputCallback st) (inputCalls st) (functionCount st).
Definition with_output (o : list string) (st : t) : t :=
  mk (heap st) (environment st) o (inputCallback st) (inputCalls st) (functionCount st).
Definition with_inputCalls (n : nat) (st : t) : t :=
  mk (heap st) (environment st) (output st) (inputCallback st) n (functionCount st).
Definition with_functionCount (n : nat) (st : t) : t :=
  mk (heap st) (environment st) (output st) (inputCallback st) (inputCalls st) n.

(** [setupBuiltins()]: the [range] entry of the global environment. *)
Definition rangeBuiltin : EasyLangFunction :=
  {| identity := 0; name := "range"; parameters := ["n"]; body := [];
     closure := globals |}.

(** [new Interpreter(inputCallback)] *)
Definition new (inputCallback : option (nat -> string -> string)) : t :=
  {| heap := [ {| Environment.values := {["range" := VFunction rangeBuiltin]};
                  Environment.constants := ∅;
                  Environment.parent := None |} ];
     environment := globals;
     output := [];
     inputCallback := inputCallback;
     inputCalls := 0;
     functionCount := 1 |}.

(** A call returns a value, throws, or exhausts the bound of the model. *)
Inductive Result (A : Type) :=
| Ok (a : A) (st : t)
| Throw (e : Thrown) (st : t)
| OutOfFuel.
Arguments Ok {A}. Arguments Throw {A}. Arguments OutOfFuel {A}.

Definition M (A : Type) : Type := t -> Result A.

Definition ret {A} (a : A) : M A := fun st => Ok a st.
Definition bind {A B} (m : M A) (k : A -> M B) : M B :=
  fun st => match m st with
           | Ok a st' => k a st'
           | Throw e st' => Throw e st'
           | OutOfFuel => OutOfFuel
           end.
Definition throw {A} (e : Thrown) : M A := fun st => Throw e st.
Definition outOfFuel {A} : M A := fun _ => OutOfFuel.

Notation "x <- m ;; k" := (bind m (fun x => k))
  (at level 100, m at next level, right associativity).
Notation "m ;;; k" := (bind m (fun _ => k))
  (at level 100, right associativity).

(** [try { m } finally { restore }] *)
Definition finally {A} (m : M A) (restore : t -> t) : M A :=
  fun st => match m st with
           | Ok a st' => Ok a (restore st')
           | Throw e st' => Throw e (restore st')
           | OutOfFuel => OutOfFuel
           end.

(** A method of [Environment] that writes, run on the store. *)
Definition onHeap (f : Environment.store -> Thrown + Environment.store) : M unit :=
  fun st => match f (heap st) with
           | inr h => Ok tt (with_heap h st)
           | inl e => Throw e st
           end.

(** [this.environment.get(name)] *)
Definition lookup (name : string) : M RuntimeValue :=
  fun st => match Environment.get (environment st) name (heap st) with
           | inr v => Ok v st
           | inl e => Throw e st
           end.

(** [this.environment = new Environment(parent)]: the new environment takes
    the next address of the store. *)
Definition enter (parent : nat) : M unit :=
  fun st => Ok tt (with_environment (length (heap st))
                    (with_heap (heap st ++ [Environment.new (Some parent)]) st)).

Definition typeName (v : RuntimeValue) : string :=
  match v with
  | VNumber _ => "number"
  | VString _ => "string"
  | VBoolean _ => "boolean"
  | VFunction _ => "function"
  | VRange _ => "range"
  end.

Definition isTruthy (v : RuntimeValue) : bool :=
  match v with
  | VBoolean b => b
  | VNumber n => negb (PrimFloat.eqb n 0)
  | VString s => (0 <? String.length s)%nat
  | _ => true
  end.

(** [left.value === right.value] under equal tags: numbers as IEEE numbers,
    function objects by identity. *)
Definition isEqual (left right : RuntimeValue) : bool :=
  match left, right with
  | VNumber a, VNumber b => PrimFloat.eqb a b
  | VString a, VString b => String.eqb a b
  | VBoolean a, VBoolean b => Bool.eqb a b
  | VFunction f, VFunction g => (identity f =? identity g)%nat
  | VRange a, VRange b => PrimFloat.eqb a b
  | _, _ => false
  end.

Definition stringify (v : RuntimeValue) : string :=
  match v with
  | VBoolean b => if b then "sach" else "jhooth"
  | VNumber n => JS.Number_toString n
  | VString s => s
  | _ => "[object]"
  end.

Section WithHost.

(** [Math.pow], which ECMA-262 leaves to the implementation to approximate. *)
Variable Math_pow : float -> float -> float.

(** [fuel] bounds the turns of the loops; [visitStatement] and
    [visitExpression] stand for the two methods one call further in. The
    knot is tied by the fixpoint below. *)
Section Visitors.
Variable fuel : nat.
Variable visitStatement : Statement -> M unit.
Variable visitExpression : Expression -> M RuntimeValue.

(** [for (const statement of statements) this.visitStatement(statement)] *)
Fixpoint visitStatements (statements : list Statement) : M unit :=
  match statements with
  | [] => ret tt
  | s :: rest => visitStatement s ;;; visitStatements rest
  end.

Definition visitProgram (node : Program) : M unit :=
  visitStatements (program_body node).

Definition visitVariableDeclaration (identifier : string) (value : Expression)
    (isConstant : bool) : M unit :=
  v <- visitExpression value ;;
  fun st => onHeap (Environment.define (environment st) identifier v isConstant) st.

Definition visitAssignment (identifier : string) (value : Expression) : M unit :=
  v <- visitExpression value ;;
  fun st => onHeap (Environment.assign (environment st) identifier v) st.

Definition visitIfStatement (condition : Expression)
    (thenBranch : list Statement) (elseBranch : option (list Statement)) : M unit :=
  c <- visitExpression condition ;;
  if isTruthy c then visitStatements thenBranch
  else match elseBranch with
       | Some branch => visitStatements branch
       | None => ret tt
       end.

(** The [while] of [visitWhileLoop], a turn at a time: the condition,
    then the body under its [try], whose [catch] rethrows a
    [ReturnException] and breaks on anything else. *)
Fixpoint whileTurns (n : nat) (condition : Expression) (body : list Statement)
    : M unit :=
  match n with
  | O => outOfFuel
  | S n' =>
      c <- visitExpression condition ;;
      if isTruthy c then
        fun st =>
          match visitStatements body st with
          | Ok _ st' => whileTurns n' condition body st'
          | Throw (ReturnException v) st' => Throw (ReturnException v) st'
          | Throw _ st' => Ok tt st'
          | OutOfFuel => OutOfFuel
          end
      else ret tt
  end.

Definition visitWhileLoop (condition : Expression) (body : list Statement) : M unit :=
  whileTurns fuel condition body.

(** [for (let i = 0; i < iterable.value; i++) { define; body }] *)
Fixpoint forTurns (n : nat) (variable : string) (body : list Statement)
    (bound i : float) : M unit :=
  match n with
  | O => outOfFuel
  | S n' =>
      if PrimFloat.ltb i bound then
        (fun st => onHeap (Environment.define (environment st) variable
                            (VNumber i) false) st) ;;;
        visitStatements body ;;;
        forTurns n' variable body bound (i + 1)%float
      else ret tt
  end.

Definition visitForLoop (variable : string) (iterable : Expression)
    (body : list Statement) : M unit :=
  it <- visitExpression iterable ;;
  match it with
  | VRange bound =>
      fun st =>
        let previous := environment st in
        finally (enter previous ;;; forTurns fuel variable body bound 0%float)
                (with_environment previous) st
  | _ => throw (Error "For loop requires a range")
  end.

Definition visitFunctionDeclaration (name : string) (parameters : list string)
    (body : list Statement) : M unit :=
  fun st =>
    let func := {| identity := functionCount st; name := name;
                   parameters := parameters; body := body;
                   closure := environment st |} in
    onHeap (Environment.define (environment st) name (VFunction func) false)
           (with_functionCount (S (functionCount st)) st).

Definition visitReturnStatement (value : option Expression) : M unit :=
  v <- (match value with
        | Some e => visitExpression e
        | None => ret (VBoolean false)
        end) ;;
  throw (ReturnException v).

Definition visitPrintStatement (value : Expression) : M unit :=
  v <- visitExpression value ;;
  fun st => Ok tt (with_output (output st ++ [stringify v]) st).

Definition invalidBinary (left : RuntimeValue) (operator : string)
    (right : RuntimeValue) : Thrown :=
  Error ("Invalid binary operation: " ++ typeName left ++ " " ++ operator
         ++ " " ++ typeName right).

(** The [switch] of [visitBinaryExpression] on two numbers, for the
    operators that need numbers. *)
Definition numeric (operator : string) (a b : float) : option (Thrown + RuntimeValue) :=
  if String.eqb operator "-" then Some (inr (VNumber (a - b)%float))
  else if String.eqb operator "*" then Some (inr (VNumber (a * b)%float))
  else if String.eqb operator "/" then
    if PrimFloat.eqb b 0 then Some (inl (Error "Division by zero"))
    else Some (inr (VNumber (a / b)%float))
  else if String.eqb operator "%" then Some (inr (VNumber (JS.remainder a b)))
  else if String.eqb operator "**" then Some (inr (VNumber (Math_pow a b)))
  else if String.eqb operator "<" then Some (inr (VBoolean (PrimFloat.ltb a b)))
  else if String.eqb operator ">" then Some (inr (VBoolean (PrimFloat.ltb b a)))
  else if String.eqb operator "<=" then Some (inr (VBoolean (PrimFloat.leb a b)))
  else if String.eqb operator ">=" then Some (inr (VBoolean (PrimFloat.leb b a)))
  else None.

Definition binaryOperation (operator : string) (left right : RuntimeValue)
    : Thrown + RuntimeValue :=
  if String.eqb operator "+" then
    match left, right with
    | VString _, _ | _, VString _ =>
        inr (VString (stringify left ++ stringify right))
    | VNumber a, VNumber b => inr (VNumber (a + b)%float)
    | _, _ => inl (invalidBinary left operator right)
    end
  else if String.eqb operator "==" then inr (VBoolean (isEqual left right))
  else if String.eqb operator "!=" then inr (VBoolean (negb (isEqual left right)))
  else if String.eqb operator "aur" then
    inr (VBoolean (isTruthy left && isTruthy right))
  else if String.eqb operator "ya" then
    inr (VBoolean (isTruthy left || isTruthy right))
  else
    match left, right with
    | VNumber a, VNumber b =>
        match numeric operator a b with
        | Some r => r
        | None => inl (invalidBinary left operator right)
        end
    | _, _ => inl (invalidBinary left operator right)
    end.

Definition lift (r : Thrown + RuntimeValue) : M RuntimeValue :=
  match r with
  | inr v => ret v
  | inl e => throw e
  end.

Definition visitBinaryExpression (left : Expression) (operator : string)
    (right : Expression) : M RuntimeValue :=
  l <- visitExpression left ;;
  r <- visitExpression right ;;
  lift (binaryOperation operator l r).

Definition visitUnaryExpression (operator : string) (operand : Expression)
    : M RuntimeValue :=
  v <- visitExpression operand ;;
  if String.eqb operator "nahi" then ret (VBoolean (negb (isTruthy v)))
  else
    match String.eqb operator "-", v with
    | true, VNumber n => ret (VNumber (- n)%float)
    | _, _ => throw (Error ("Invalid unary operation: " ++ operator ++ " "
                            ++ typeName v))
    end.

(** [node.arguments.map(arg => this.visitExpression(arg))] *)
Fixpoint visitArguments (arguments : list Expression) : M (list RuntimeValue) :=
  match arguments with
  | [] => ret []
  | a :: rest =>
      v <- visitExpression a ;;
      vs <- visitArguments rest ;;
      ret (v :: vs)
  end.

(** The loop that binds the parameters of a call, in the environment
    that is current. *)
Fixpoint bindParameters (parameters : list string) (args : list RuntimeValue)
    : M unit :=
  match parameters, args with
  | p :: ps, a :: rest =>
      (fun st => onHeap (Environment.define (environment st) p a false) st) ;;;
      bindParameters ps rest
  | _, _ => ret tt
  end.

Definition visitCallExpression (callee : option string)
    (arguments : list Expression) : M RuntimeValue :=
  match callee with
  | None =>
      (* [undefined] is a key of no environment *)
      throw (Error "Undefined variable 'undefined'")
  | Some calleeName =>
      if String.eqb calleeName "range" then
        match arguments with
        | [a] =>
            arg <- visitExpression a ;;
            match arg with
            | VNumber n => ret (VRange (JS.Math_floor n))
            | _ => throw (Error "range() argument must be a number")
            end
        | _ => throw (Error "range() expects exactly one argument")
        end
      else
        c <- lookup calleeName ;;
        match c with
        | VFunction func =>
            args <- visitArguments arguments ;;
            if negb (length args =? length (parameters func))%nat then
              throw (Error ("Function '" ++ name func ++ "' expects "
                            ++ JS.string_of_nat (length (parameters func))
                            ++ " arguments, got "
                            ++ JS.string_of_nat (length args)))
            else
              fun st =>
                let previous := environment st in
                (enter (closure func) ;;;
                 bindParameters (parameters func) args ;;;
                 finally
                   (fun st' =>
                      match visitStatements (body func) st' with
                      | Ok _ st'' => Ok (VBoolean false) st''
                      | Throw (ReturnException v) st'' => Ok v st''
                      | Throw e st'' => Throw e st''
                      | OutOfFuel => OutOfFuel
                      end)
                   (with_environment previous)) st
        | _ => throw (Error ("'" ++ calleeName ++ "' is not a function"))
        end
  end.

Definition visitIdentifier (name : string) : M RuntimeValue := lookup name.

Definition visitLiteral (v : LiteralValue) : M RuntimeValue :=
  ret (match v with
       | LNumber n => VNumber n
       | LString s => VString s
       | LBoolean b => VBoolean b
       end).

Definition visitInputStatement (prompt : string) : M RuntimeValue :=
  fun st =>
    match inputCallback st with
    | Some callback =>
        let input := callback (inputCalls st) prompt in
        let st := with_inputCalls (S (inputCalls st)) st in
        let num := JS.parseFloat input in
        if negb (JS.isNaN num) && JS.isFinite num
        then Ok (VNumber num) st
        else Ok (VString input) st
    | None => Throw (Error "Input not available in this context") st
    end.

(** The [switch] of [visitStatement]. *)
Definition visitStatementBody (node : Statement) : M unit :=
  match node with
  | VariableDeclaration identifier value isConstant _ =>
      visitVariableDeclaration identifier value isConstant
  | Assignment identifier value _ => visitAssignment identifier value
  | IfStatement condition thenBranch elseBranch _ =>
      visitIfStatement condition thenBranch elseBranch
  | WhileLoop condition body _ => visitWhileLoop condition body
  | ForLoop variable iterable body _ => visitForLoop variable iterable body
  | FunctionDeclaration name parameters body _ _ =>
      visitFunctionDeclaration name parameters body
  | ReturnStatement value _ => visitReturnStatement value
  | PrintStatement value _ => visitPrintStatement value
  | ExpressionStatement e => visitExpression e ;;; ret tt
  end.

(** The [switch] of [visitExpression]. *)
Definition visitExpressionBody (node : Expression) : M RuntimeValue :=
  match node with
  | BinaryExpression l operator r _ => visitBinaryExpression l operator r
  | UnaryExpression operator operand _ => visitUnaryExpression operator operand
  | CallExpression callee arguments _ => visitCallExpression callee arguments
  | Identifier name _ => visitIdentifier name
  | Literal v _ => visitLiteral v
  | InputStatement prompt _ => visitInputStatement prompt
  end.

End Visitors.

Fixpoint visitStatement (fuel : nat) (node : Statement) : M unit :=
  match fuel with
  | O => outOfFuel
  | S f => visitStatementBody f (visitStatement f) (visitExpression f) node
  end
with visitExpression (fuel : nat) (node : Expression) : M RuntimeValue :=
  match fuel with
  | O => outOfFuel
  | S f => visitExpressionBody (visitStatement f) (visitExpression f) node
  end.

(** The statements of a block, each run by [visitStatement]. *)
Definition run (fuel : nat) (statements : list Statement) : M unit :=
  visitStatements (visitStatement fuel) statements.

(** The text the [catch] of [interpret] makes of what was thrown. A
    [ReturnException] is built by [super()] without a message: its
    [message] is the empty string. *)
Definition errorText (e : Thrown) : string :=
  match e with
  | Positioned e =>
      err_type e ++ " at line " ++ JS.string_of_Z (err_line e) ++ ":"
      ++ JS.string_of_Z (err_column e) ++ ": " ++ err_message e
  | Error message => message
  | ReturnException _ => ""
  end.

(** [interpret(program)]: the result object and the interpreter after the
    call; [None] when the program does not finish within [fuel]. *)
Definition interpret (fuel : nat) (program : Program) (st : t)
    : option (InterpretResult * t) :=
  match visitProgram (visitStatement fuel) program (with_output [] st) with
  | Ok _ st' => Some ({| result_output := output st'; result_error := None |}, st')
  | Throw e st' =>
      Some ({| result_output := output st'; result_error := Some (errorText e) |}, st')
  | OutOfFuel => None
  end.

End WithHost.

(** [related R st r]: the interpreter [st] a call started from and the one it
    left behind, by returning or by throwing, are related by [R]. *)
Definition related {A} (R : t -> t -> Prop) (st : t) (r : Result A) : Prop :=
  match r with
  | Ok _ st' | Throw _ st' => R st st'
  | OutOfFuel => True
  end.

Definition preserves {A} (R : t -> t -> Prop) (m : M A) : Prop :=
  forall st, related R st (m st).

End Interpreter.

(** ** The callers ([src/App.tsx] and the REPL component)

    Both run the three stages in a row inside one [try]: an error of the
    lexer or of the parser reaches the caller's [catch], and [interpret] is
    not called. *)
Module App.

Inductive Run :=
| TokenizeThrew (e : EasyLangError)
| ParseThrew (e : EasyLangError)
| Returned (result : InterpretResult) (interpreter : Interpreter.t)
| Unfinished.

(** The [try] block of the REPL's [executeCommand], on the interpreter it
    keeps between submissions. *)
Definition submit (Math_pow : float -> float -> float) (fuel : nat)
    (interpreter : Interpreter.t) (code : string) : Run :=
  match Lexer.tokenize code with
  | Lexer.Tokens tokens =>
      match Parser.parse tokens with
      | Parser.Parsed ast =>
          match Interpreter.interpret Math_pow fuel ast interpreter with
          | Some (result, interpreter') => Returned result interpreter'
          | None => Unfinished
          end
      | Parser.Failed e => ParseThrew e
      | Parser.Exhausted => Unfinished
      end
  | Lexer.Failed e => TokenizeThrew e
  | Lexer.OutOfSteps => Unfinished
  end.

(** The [try] block of [executeCode]: a new interpreter, without an input
    callback, for every run. *)
Definition executeCode (Math_pow : float -> float -> float) (fuel : nat)
    (code : string) : Run :=
  submit Math_pow fuel (Interpreter.new None) code.

End App.

(** ** The description's reading of input text

    Modelled on the words of the description, to compare with what
    [visitInputStatement] does: the text is a number when the entire string is
    a valid finite number. *)
Definition entire_text_is_finite_number (text : string) : bool :=
  match JS.scan_literal text with
  | Some (v, "") => JS.isFinite v
  | _ => false
  end.

(** ** Worked examples *)
Module Examples.

(** The lines of a source text, joined by line feeds. *)
Definition source (lines : list string) : string :=
  String.concat (String JS.LF "") lines.

(** A [Math.pow] to run the examples with (none of them raises to a power):
    the repeated product for a whole exponent up to 64, NaN beyond. *)
Fixpoint product (n : nat) (b : float) : float :=
  match n with
  | O => 1%float
  | S n' => (b * product n' b)%float
  end.

Definition pow (b e : float) : float :=
  match Prim2SF e with
  | S754_zero _ => 1%float
  | S754_finite false m ex =>
      if (0 <=? ex)%Z && (Zpos m * 2 ^ ex <=? 64)%Z
      then product (Z.to_nat (Zpos m * 2 ^ ex)) b
      else if (ex <? 0)%Z && (Zpos m mod 2 ^ (- ex) =? 0)%Z && (Zpos m / 2 ^ (- ex) <=? 64)%Z
      then product (Z.to_nat (Zpos m / 2 ^ (- ex))) b
      else nan
  | _ => nan
  end.

Definition scenarioA : string := source ["banao x = 10"; "banao y = 3"; "likho x + y"].
Definition scenarioB : string := source ["dohrana i in range(3):"; "    likho i"].
Definition scenarioC : string :=
  source ["agar 5 > 10:"; "    likho " ++ JS.quoted "a"; "warna:"; "    likho " ++ JS.quoted "b"].
Definition scenarioD : string := source ["banao x = 5"; "likho x / 0"].

(** A block followed by a line that is not indented. *)
Definition dedentToZero : string := source ["agar jhooth:"; "    likho 1"; "likho 2"].

(** An error raised in the body of a [jab tak] loop. *)
Definition errorInLoop : string := source ["likho 7"; "jab tak sach:"; "    likho 1 / 0"].

(** A loop whose condition stays true and whose body never fails. *)
Definition endlessLoop : string := source ["banao x = 0"; "jab tak sach:"; "    x = 1"].

Definition constantThenAssignment : string := source ["sada X = 1"; "X = 2"].
Definition constantAssignedInLoop : string :=
  source ["sada X = 1"; "jab tak sach:"; "    X = 2"].

(** A function made inside a call, returned, and called after the call that
    made it has returned. The parameter is reassigned after the inner
    function is declared, and the caller has a variable of the same name. *)
Definition closureProgram : string :=
  source ["outer ka system (a) {";
          "inner ka system () { return a }";
          "a = a + 1";
          "return inner";
          "}";
          "banao a = 100";
          "banao g = outer(5)";
          "likho g()"].

Definition topLevelReturn : string := source ["likho 1"; "return 5"; "likho 2"].

(** The statements of [topLevelReturn], at no position in particular. *)
Definition print_of (n : float) : Statement :=
  PrintStatement (Literal (LNumber n) {| pos_line := 1; pos_column := 1 |})
    {| pos_line := 1; pos_column := 1 |}.

Definition return_five : Statement :=
  ReturnStatement (Some (Literal (LNumber 5) {| pos_line := 1; pos_column := 1 |}))
    {| pos_line := 1; pos_column := 1 |}.

Definition whileCounting : string :=
  source ["banao c = 0"; "jab tak c < 3:"; "    likho c"; "    c = c + 1"].

(** The kinds of the tokens, which is what the parser reads. *)
Definition kinds (o : Lexer.Outcome) : option (list TokenType) :=
  match o with
  | Lexer.Tokens ts => Some (map type ts)
  | _ => None
  end.

Definition at11 : Position := {| pos_line := 1; pos_column := 1 |}.

(** The loop of scenario B, at no position in particular. *)
Definition range_loop : Statement :=
  ForLoop "i" (CallExpression (Some "range") [Literal (LNumber 3) at11] at11)
    [PrintStatement (Identifier "i" at11) at11] at11.

(** [scenarioD] as the parser returns it. *)
Definition scenarioD_declaration : Statement :=
  VariableDeclaration "x" (Literal (LNumber 5) {| pos_line := 1; pos_column := 11 |})
    false {| pos_line := 1; pos_column := 7 |}.

Definition scenarioD_print : Statement :=
  PrintStatement
    (BinaryExpression (Identifier "x" {| pos_line := 2; pos_column := 7 |}) "/"
       (Literal (LNumber 0) {| pos_line := 2; pos_column := 11 |})
       {| pos_line := 2; pos_column := 7 |})
    {| pos_line := 2; pos_column := 11 |}.

Definition scenarioD_program : Program :=
  {| program_body := [scenarioD_declaration; scenarioD_print];
     program_position := at11 |}.

(** [constantThenAssignment] as the parser returns it. *)
Definition constant_declaration : Statement :=
  VariableDeclaration "X" (Literal (LNumber 1) {| pos_line := 1; pos_column := 10 |})
    true {| pos_line := 1; pos_column := 6 |}.

Definition constant_assignment : Statement :=
  Assignment "X" (Literal (LNumber 2) {| pos_line := 2; pos_column := 5 |})
    {| pos_line := 2; pos_column := 1 |}.

Definition constant_program : Program :=
  {| program_body := [constant_declaration; constant_assignment];
     program_position := at11 |}.

(** The interpreter after [sada X = 1]. *)
Definition after_constant_declaration : Interpreter.t :=
  match Interpreter.run pow 3 [constant_declaration] (Interpreter.new None) with
  | Interpreter.Ok _ st => st
  | _ => Interpreter.new None
  end.

(** The token array of a source that the lexer accepts. *)
Definition kinds_and_tokens (code : string) : option (list Token) :=
  match Lexer.tokenize code with
  | Lexer.Tokens ts => Some ts
  | _ => None
  end.

(** The statements of [closureProgram], and the interpreter before its last
    statement, the call of the returned function. *)
Definition closure_statements : list Statement :=
  match Parser.parse <$> kinds_and_tokens closureProgram with
  | Some (Parser.Parsed program) => program_body program
  | _ => []
  end.

Definition before_closure_call : Interpreter.t :=
  match Interpreter.run pow 10 (take 3 closure_statements) (Interpreter.new None) with
  | Interpreter.Ok _ st => st
  | _ => Interpreter.new None
  end.

(** The function object that [g] is bound to. *)
Definition inner_function : EasyLangFunction :=
  match Environment.get 0 "g" (Interpreter.heap before_closure_call) with
  | inr (VFunction f) => f
  | _ => Interpreter.rangeBuiltin
  end.

(** Two submissions to one interpreter, as the REPL makes them. *)
Definition firstSubmission : string := source ["banao x = 5"; "likho x"].
Definition secondSubmission : string := "likho x + 1".

Definition statements_of (code : string) : list Statement :=
  match Parser.parse <$> kinds_and_tokens code with
  | Some (Parser.Parsed program) => program_body program
  | _ => []
  end.

Definition first_program : Program :=
  {| program_body := statements_of firstSubmission; program_position := at11 |}.

Definition second_program : Program :=
  {| program_body := statements_of secondSubmission; program_position := at11 |}.

(** The interpreter after the first submission. *)
Definition after_first_submission : Interpreter.t :=
  match App.submit pow 10 (Interpreter.new None) firstSubmission with
  | App.Returned _ st => st
  | _ => Interpreter.new None
  end.

End Examples.

(** ** Vocabulary of the statements below *)

(** What [interpret] returned, without the interpreter it left behind. *)
Definition returned (r : option (InterpretResult * Interpreter.t)) : option InterpretResult :=
  fst <$> r.

(** What a run through the three stages returned, when [interpret] was reached. *)
Definition shown (r : App.Run) : option InterpretResult :=
  match r with
  | App.Returned result _ => Some result
  | _ => None
  end.

(** A relation between the interpreter before and after that is reflexive,
    transitive, and kept by each of the elementary writes. *)
Record respects_writes (R : Interpreter.t -> Interpreter.t -> Prop) : Prop := {
  rw_refl : forall st, R st st;
  rw_trans : forall a b c, R a b -> R b c -> R a c;
  rw_define : forall st name v c h,
    Environment.define (Interpreter.environment st) name v c (Interpreter.heap st) = inr h ->
    R st (Interpreter.with_heap h st);
  rw_assign : forall st name v h,
    Environment.assign (Interpreter.environment st) name v (Interpreter.heap st) = inr h ->
    R st (Interpreter.with_heap h st);
  rw_enter : forall st p,
    R st (Interpreter.with_environment (length (Interpreter.heap st))
            (Interpreter.with_heap
               (Interpreter.heap st ++ [Environment.new (Some p)]) st));
  rw_restore : forall st e, R st (Interpreter.with_environment e st);
  rw_print : forall st line,
    R st (Interpreter.with_output (Interpreter.output st ++ [line]) st);
  rw_input : forall st n, R st (Interpreter.with_inputCalls n st);
  rw_count : forall st n, R st (Interpreter.with_functionCount n st)
}.

(** The output buffer is only ever appended to. *)
Definition output_grows (st st' : Interpreter.t) : Prop :=
  Interpreter.output st `prefix_of` Interpreter.output st'.

(** The environment at address [a] of the store holds [X] as a constant of
    value [v]. *)
Definition holds_constant (h : Environment.store) (a : nat) (X : string)
    (v : RuntimeValue) : Prop :=
  exists env, h !! a = Some env /\ X ∈ Environment.constants env /\
              Environment.values env !! X = Some v.

Definition keeps_constant (a : nat) (X : string) (v : RuntimeValue)
    (st st' : Interpreter.t) : Prop :=
  holds_constant (Interpreter.heap st) a X v -> holds_constant (Interpreter.heap st') a X v.

(** An assignment to [X] from the environment at [self] meets a constant: [X]
    is marked constant there, or it is unknown there and the same holds from
    the parent. *)
Inductive resolves_to_constant (h : Environment.store) (X : string) : nat -> Prop :=
| constant_here self :
    X ∈ Environment.constants (Environment.at_ h self) ->
    resolves_to_constant h X self
| constant_above self p :
    X ∉ Environment.constants (Environment.at_ h self) ->
    Environment.values (Environment.at_ h self) !! X = None ->
    Environment.parent (Environment.at_ h self) = Some p ->
    p < self ->
    resolves_to_constant h X p ->
    resolves_to_constant h X self.

(** Every environment of the store was created after its parent. *)
Definition parents_come_first (h : Environment.store) : Prop :=
  forall a env p, h !! a = Some env -> Environment.parent env = Some p -> p < a.

(** The bindings of a call: each parameter with its argument, in order. *)
Fixpoint bindAll (ps : list string) (vals : list RuntimeValue)
    (values : gmap string RuntimeValue) : gmap string RuntimeValue :=
  match ps, vals with
  | p :: ps', v :: vals' => bindAll ps' vals' (<[p := v]> values)
  | _, _ => values
  end.

(** The interpreter in which the body of a call starts: a new environment,
    at the next address of the store, whose parent is the environment the
    function captured, holding the parameters; every other environment is
    where and what it was. *)
Definition calleeState (func : EasyLangFunction) (vals : list RuntimeValue)
    (st : Interpreter.t) : Interpreter.t :=
  Interpreter.with_heap
    (Interpreter.heap st ++
       [ {| Environment.values := bindAll (parameters func) vals ∅;
            Environment.constants := ∅;
            Environment.parent := Some (closure func) |} ])
    (Interpreter.with_environment (length (Interpreter.heap st)) st).

(** The [try] block of a call: the body, with its [catch] for the return
    signal. *)
Definition callBody (Math_pow : float -> float -> float) (fuel : nat)
    (func : EasyLangFunction) : Interpreter.M RuntimeValue :=
  fun st =>
    match Interpreter.run Math_pow fuel (body func) st with
    | Interpreter.Ok _ st' => Interpreter.Ok (VBoolean false) st'
    | Interpreter.Throw (ReturnException v) st' => Interpreter.Ok v st'
    | Interpreter.Throw e st' => Interpreter.Throw e st'
    | Interpreter.OutOfFuel => Interpreter.OutOfFuel
    end.

(** [parents_come_first], decided: [a] is the address of the head of [h]. *)
Fixpoint parents_before (a : nat) (h : Environment.store) : bool :=
  match h with
  | [] => true
  | env :: rest =>
      match Environment.parent env with
      | Some p => (p <? a)%nat
      | None => true
      end && parents_before (S a) rest
  end.

(** A computation that never lets a return signal out. *)
Definition contains_return {A} (m : Interpreter.M A) : Prop :=
  forall st v st', m st <> Interpreter.Throw (ReturnException v) st'.

(** The same interpreter with [before] ahead of its output lines. *)
Definition prepend (before : list string) (st : Interpreter.t) : Interpreter.t :=
  Interpreter.with_output (before ++ Interpreter.output st) st.

(** The same result in the interpreter with [before] ahead of its output. *)
Definition shift {A} (before : list string) (r : Interpreter.Result A)
    : Interpreter.Result A :=
  match r with
  | Interpreter.Ok a st => Interpreter.Ok a (prepend before st)
  | Interpreter.Throw e st => Interpreter.Throw e (prepend before st)
  | Interpreter.OutOfFuel => Interpreter.OutOfFuel
  end.

(** A computation that never reads the output buffer, and only appends. *)
Definition appends_only {A} (m : Interpreter.M A) : Prop :=
  forall before st, m (prepend before st) = shift before (m st).

(** A name bound in an environment of the store stays bound there. *)
Definition keeps_bindings (st st' : Interpreter.t) : Prop :=
  forall a env x,
    Interpreter.heap st !! a = Some env -> is_Some (Environment.values env !! x) ->
    exists env', Interpreter.heap st' !! a = Some env' /\
                 is_Some (Environment.values env' !! x).

(** The interpreter in which the body of a loop over a range runs its first
    turn: a new environment, child of the current one, holding the loop
    variable at 0. *)
Definition firstTurn (variable : string) (st : Interpreter.t) : Interpreter.t :=
  Interpreter.with_heap
    (Interpreter.heap st ++
       [ {| Environment.values := {[variable := VNumber 0]};
            Environment.constants := ∅;
            Environment.parent := Some (Interpreter.environment st) |} ])
    (Interpreter.with_environment (length (Interpreter.heap st)) st).

(** A step of the lexer that leaves the indent stack alone and adds no
    INDENT or DEDENT token. *)
Definition structure_free (lx lx' : Lexer.t) : Prop :=
  Lexer.indentStack lx' = Lexer.indentStack lx /\
  exists added, Lexer.tokens lx' = (Lexer.tokens lx ++ added)%list /\
                Forall (fun t => type t <> DEDENT /\ type t <> INDENT) added.

(** What bounds the calls of [scanToken] that are left: two for every
    character not yet read, and one more at the start of a line. *)
Definition lexer_measure (lx : Lexer.t) : nat :=
  2 * (String.length (Lexer.source lx) - Lexer.current lx)
  + (if (Lexer.column lx =? 1)%Z then 1 else 0).

(** The lexer [b] is the lexer [a] after reading on in the same source. *)
Definition reads_on (a b : Lexer.t) : Prop :=
  Lexer.current a <= Lexer.current b /\ Lexer.source b = Lexer.source a.

(** A value that names no environment outside a store of [n] environments. *)
Definition value_ok (n : nat) (v : RuntimeValue) : Prop :=
  match v with
  | VFunction f => closure f < n
  | _ => True
  end.

Definition values_ok (n : nat) (l : list RuntimeValue) : Prop := Forall (value_ok n) l.

Definition unit_ok (n : nat) (u : unit) : Prop := True.

Definition thrown_ok (n : nat) (e : Thrown) : Prop :=
  match e with
  | ReturnException v => value_ok n v
  | _ => True
  end.

(** Every environment of the store was created after its parent, and every
    function object bound in it captured an environment of the store. *)
Definition heap_ok (h : Environment.store) : Prop :=
  forall a env, h !! a = Some env ->
    (forall p, Environment.parent env = Some p -> p < a) /\
    (forall x v, Environment.values env !! x = Some v -> value_ok (length h) v).

Definition well_formed (st : Interpreter.t) : Prop :=
  heap_ok (Interpreter.heap st) /\
  Interpreter.environment st < length (Interpreter.heap st).

(** What a call started in [st] left behind is well formed, the store has
    lost no environment, and what was returned or thrown names environments
    of the store only. *)
Definition result_ok {A} (P : nat -> A -> Prop) (st : Interpreter.t)
    (r : Interpreter.Result A) : Prop :=
  match r with
  | Interpreter.Ok a st' =>
      well_formed st' /\
      length (Interpreter.heap st) <= length (Interpreter.heap st') /\
      P (length (Interpreter.heap st')) a
  | Interpreter.Throw e st' =>
      well_formed st' /\
      length (Interpreter.heap st) <= length (Interpreter.heap st') /\
      thrown_ok (length (Interpreter.heap st')) e
  | Interpreter.OutOfFuel => True
  end.

Definition keeps_well_formed {A} (P : nat -> A -> Prop) (m : Interpreter.M A) : Prop :=
  forall st, well_formed st -> result_ok P st (m st).

(** [m'] gives what [m] gives wherever [m] finishes within its bound. *)
Definition extends {A} (m m' : Interpreter.M A) : Prop :=
  forall st, m st <> Interpreter.OutOfFuel -> m' st = m st.

(** ** The output console ([OutputConsole], the component that shows a result) *)
Module OutputConsole.

(** What the component draws: the placeholder text, or the lines with the
    error box when there is one to show. *)
Inductive View :=
| Placeholder
| Lines (output : list string) (error : option string).

(** The truth value the host gives [error?: string]: [undefined] and the
    empty string are falsy. *)
Definition truthy (error : option string) : bool :=
  match error with
  | Some text => negb (String.eqb text "")
  | None => false
  end.

(** [output.length === 0 && !error ? placeholder : <>lines, error && box</>] *)
Definition render (output : list string) (error : option string) : View :=
  if (length output =? 0)%nat && negb (truthy error) then Placeholder
  else Lines output (if truthy error then error else None).

End OutputConsole.

(** ** The state [executeCode] sets ([src/App.tsx], lines 56-72) *)
Module AppState.

Record t := mk { output : list string; error : option string }.

(** [setOutput(result.output); setError(result.error)], or in the [catch]
    [setOutput([]); setError(err.message)]. *)
Definition after (r : App.Run) : option t :=
  match r with
  | App.Returned result _ =>
      Some {| output := result_output result; error := result_error result |}
  | App.TokenizeThrew e | App.ParseThrew e =>
      Some {| output := []; error := Some (err_message e) |}
  | App.Unfinished => None
  end.

Definition view (s : t) : OutputConsole.View := OutputConsole.render (output s) (error s).

End AppState.

(** ** The REPL component: its state and its handlers *)
Module REPL.

(** [REPLEntry]; an absent field is [None]. *)
Record Entry := {
  entry_input : string;
  entry_output : option string;
  entry_error : option string
}.

(** The state of the component. [currentInput] is [None] for the
    [undefined] that reading [commandHistory] outside its bounds would
    store. *)
Record t := mk {
  history : list Entry;
  currentInput : option string;
  commandHistory : list string;
  historyIndex : Z;
  interpreter : Interpreter.t
}.

Definition new : t :=
  {| history := []; currentInput := Some ""; commandHistory := []; historyIndex := -1;
     interpreter := Interpreter.new None |}.

(** [!input.trim()]: every character is white space or a line terminator. *)
Fixpoint blank (input : string) : bool :=
  match input with
  | String c rest => JS.is_white_space c && blank rest
  | EmptyString => true
  end.

(** [commandHistory[i]] *)
Definition recall (commandHistory : list string) (i : Z) : option string :=
  if (i <? 0)%Z then None else commandHistory !! Z.to_nat i.

(** [executeCommand(input)]; [None] when the run does not finish within the
    bound of the model. *)
Definition executeCommand (Math_pow : float -> float -> float) (fuel : nat)
    (input : string) (st : t) : option t :=
  if blank input then Some st
  else
    let entered (entry : Entry) (interpreter' : Interpreter.t) :=
      Some {| history := history st ++ [entry];
              currentInput := Some "";
              commandHistory := commandHistory st ++ [input];
              historyIndex := -1;
              interpreter := interpreter' |} in
    match App.submit Math_pow fuel (interpreter st) input with
    | App.Returned result interpreter' =>
        entered {| entry_input := input;
                   entry_output := Some (String.concat (String JS.LF "") (result_output result));
                   entry_error := result_error result |} interpreter'
    | App.TokenizeThrew e | App.ParseThrew e =>
        entered {| entry_input := input; entry_output := None;
                   entry_error := Some (err_message e) |} (interpreter st)
    | App.Unfinished => None
    end.

Inductive Key := Enter | ArrowUp | ArrowDown | OtherKey.

(** [handleKeyDown(e)] *)
Definition handleKeyDown (Math_pow : float -> float -> float) (fuel : nat)
    (key : Key) (st : t) : option t :=
  match key with
  | Enter =>
      match currentInput st with
      | Some input => executeCommand Math_pow fuel input st
      | None => None
      end
  | ArrowUp =>
      if (0 <? length (commandHistory st))%nat then
        let newIndex :=
          if (historyIndex st =? -1)%Z then (Z.of_nat (length (commandHistory st)) - 1)%Z
          else Z.max 0 (historyIndex st - 1) in
        Some (mk (history st) (recall (commandHistory st) newIndex) (commandHistory st)
                 newIndex (interpreter st))
      else Some st
  | ArrowDown =>
      if (0 <=? historyIndex st)%Z then
        let newIndex := (historyIndex st + 1)%Z in
        if (Z.of_nat (length (commandHistory st)) <=? newIndex)%Z then
          Some (mk (history st) (Some "") (commandHistory st) (-1) (interpreter st))
        else
          Some (mk (history st) (recall (commandHistory st) newIndex) (commandHistory st)
                   newIndex (interpreter st))
      else Some st
  | OtherKey => Some st
  end.

(** [onChange]: the text of the input field *)
Definition typed (text : string) (st : t) : t :=
  mk (history st) (Some text) (commandHistory st) (historyIndex st) (interpreter st).

(** [clearREPL()] *)
Definition clearREPL (st : t) : t := new.

(** What the user does, and the component after a sequence of it. *)
Inductive Event := Pressed (key : Key) | Typed (text : string) | Reset.

Definition handle (Math_pow : float -> float -> float) (fuel : nat)
    (event : Event) (st : t) : option t :=
  match event with
  | Pressed key => handleKeyDown Math_pow fuel key st
  | Typed text => Some (typed text st)
  | Reset => Some (clearREPL st)
  end.

Fixpoint session (Math_pow : float -> float -> float) (fuel : nat)
    (events : list Event) (st : t) : option t :=
  match events with
  | [] => Some st
  | event :: rest =>
      match handle Math_pow fuel event st with
      | Some st' => session Math_pow fuel rest st'
      | None => None
      end
  end.

(** [key] pressed [n] times; the arrow keys always return. *)
Fixpoint pressed (Math_pow : float -> float -> float) (fuel : nat)
    (key : Key) (n : nat) (st : t) : option t :=
  match n with
  | O => Some st
  | S n' =>
      match handleKeyDown Math_pow fuel key st with
      | Some st' => pressed Math_pow fuel key n' st'
      | None => None
      end
  end.

End REPL.

(** ** Further examples *)
Module MoreExamples.

(** A function declared with the same parameter twice, and the interpreter
    after the declaration. *)
Definition twice_statements : list Statement :=
  Examples.statements_of "f ka system (a, a) { return a }".

Definition after_twice : Interpreter.t :=
  match Interpreter.run Examples.pow 5 twice_statements (Interpreter.new None) with
  | Interpreter.Ok _ st => st
  | _ => Interpreter.new None
  end.

Definition twice_function : EasyLangFunction :=
  match Environment.get 0 "f" (Interpreter.heap after_twice) with
  | inr (VFunction f) => f
  | _ => Interpreter.rangeBuiltin
  end.

(** A function that returns from inside a loop. *)
Definition returns_from_a_loop : EasyLangFunction :=
  {| identity := 1; name := "f"; parameters := [];
     body := [WhileLoop (Literal (LBoolean true) Examples.at11)
                [ReturnStatement (Some (Literal (LNumber 9) Examples.at11)) Examples.at11]
                Examples.at11;
              PrintStatement (Literal (LString "not reached") Examples.at11) Examples.at11];
     closure := 0 |}.

(** The interpreter after [banao x = 5]. *)
Definition after_x : Interpreter.t :=
  match Interpreter.run Examples.pow 5 [Examples.scenarioD_declaration]
          (Interpreter.new None) with
  | Interpreter.Ok _ st => st
  | _ => Interpreter.new None
  end.

(** A loop whose body declares [x]. *)
Definition declaring_loop : Statement :=
  WhileLoop (Literal (LBoolean true) Examples.at11)
    [Examples.scenarioD_declaration;
     PrintStatement (Identifier "x" Examples.at11) Examples.at11]
    Examples.at11.

(** A constant assigned in the body of a function that is called from the
    branch of a conditional, as the parser returns the program. *)
Definition constantInFunction : string :=
  Examples.source ["sada X = 1"; "f ka system () { X = 2 }"; "agar sach:"; "    f()"].

Definition nested_assignment : Statement :=
  Assignment "X" (Literal (LNumber 2) {| pos_line := 2; pos_column := 22 |})
    {| pos_line := 2; pos_column := 18 |}.

Definition nested_function_declaration : Statement :=
  FunctionDeclaration "f" [] [nested_assignment] arrow_style
    {| pos_line := 2; pos_column := 24 |}.

Definition nested_call : Expression :=
  CallExpression (Some "f") [] {| pos_line := 4; pos_column := 6 |}.

Definition nested_conditional : Statement :=
  IfStatement (Literal (LBoolean true) {| pos_line := 3; pos_column := 6 |})
    [ExpressionStatement nested_call] None {| pos_line := 4; pos_column := 9 |}.

Definition nested_program : Program :=
  {| program_body := [Examples.constant_declaration; nested_function_declaration;
                      nested_conditional];
     program_position := Examples.at11 |}.

(** The function object that [f] is bound to. *)
Definition nested_function : EasyLangFunction :=
  {| identity := 1; name := "f"; parameters := []; body := [nested_assignment];
     closure := 0 |}.

(** The interpreter after the two declarations, and when the body of [f]
    starts. *)
Definition after_nested_declarations : Interpreter.t :=
  match Interpreter.run Examples.pow 6
          [Examples.constant_declaration; nested_function_declaration]
          (Interpreter.new None) with
  | Interpreter.Ok _ st => st
  | _ => Interpreter.new None
  end.

Definition in_the_nested_call : Interpreter.t :=
  match Interpreter.bind (Interpreter.enter 0)
          (fun _ => Interpreter.bindParameters [] []) after_nested_declarations with
  | Interpreter.Ok _ st => st
  | _ => Interpreter.new None
  end.

(** A submission that declares [x] and then fails. *)
Definition failedSubmission : string := Examples.source ["banao x = 5"; "likho y"].

Definition failed_declaration : Statement :=
  VariableDeclaration "x" (Literal (LNumber 5) {| pos_line := 1; pos_column := 11 |})
    false {| pos_line := 1; pos_column := 7 |}.

Definition failed_print : Statement :=
  PrintStatement (Identifier "y" {| pos_line := 2; pos_column := 7 |})
    {| pos_line := 2; pos_column := 7 |}.

Definition failed_program : Program :=
  {| program_body := [failed_declaration; failed_print];
     program_position := Examples.at11 |}.

Definition after_failed_declaration : Interpreter.t :=
  match Interpreter.run Examples.pow 10 [failed_declaration] (Interpreter.new None) with
  | Interpreter.Ok _ st => st
  | _ => Interpreter.new None
  end.

Definition after_failed_submission : Interpreter.t :=
  match App.submit Examples.pow 10 (Interpreter.new None) failedSubmission with
  | App.Returned _ st => st
  | _ => Interpreter.new None
  end.

(** The interpreter in which [f], whose body returns from inside a loop, is
    declared. *)
Definition after_declaring_f : Interpreter.t :=
  match Interpreter.visitStatement Examples.pow 3
          (FunctionDeclaration "f" [] (body returns_from_a_loop) arrow_style Examples.at11)
          (Interpreter.new None) with
  | Interpreter.Ok _ st => st
  | _ => Interpreter.new None
  end.

End MoreExamples.

(** ** Vocabulary of the further properties *)

(** A thrown value that carries no position: anything but an
    [EasyLangError]. *)
Definition unpositioned (e : Thrown) : Prop :=
  match e with
  | Positioned _ => False
  | _ => True
  end.

Definition throws_unpositioned {A} (m : Interpreter.M A) : Prop :=
  forall st e st', m st = Interpreter.Throw e st' -> unpositioned e.

(** A computation that, when it returns, leaves current the environment it
    started in. *)
Definition keeps_scope {A} (m : Interpreter.M A) : Prop :=
  forall st a st',
    m st = Interpreter.Ok a st' ->
    Interpreter.environment st' = Interpreter.environment st.

(** Nothing assigns [inputCallback] after the constructor. *)
Definition same_callback (st st' : Interpreter.t) : Prop :=
  Interpreter.inputCallback st' = Interpreter.inputCallback st.

(** The history index of the REPL is -1 or an index of the command history,
    and the input field holds a string. *)
Definition history_in_bounds (st : REPL.t) : Prop :=
  (REPL.historyIndex st = -1 \/
   0 <= REPL.historyIndex st < Z.of_nat (length (REPL.commandHistory st)))%Z /\
  is_Some (REPL.currentInput st).

(** A token type other than the two that give the structure and the one
    that ends the array. *)
Definition ordinary (ty : TokenType) : bool :=
  match ty with
  | INDENT | DEDENT | EOF => false
  | _ => true
  end.

(** INDENT and DEDENT read as brackets: the number of blocks open after
    [ts], starting from [depth]; [None] when a DEDENT closes a block that was
    not opened. *)
Fixpoint nesting (depth : nat) (ts : list Token) : option nat :=
  match ts with
  | [] => Some depth
  | t :: rest =>
      match type t with
      | INDENT => nesting (S depth) rest
      | DEDENT =>
          match depth with
          | O => None
          | S d => nesting d rest
          end
      | _ => nesting depth rest
      end
  end.

Fixpoint increasing (l : list nat) : Prop :=
  match l with
  | a :: (b :: _) as rest => a < b /\ increasing rest
  | _ => True
  end.

(** The indent stack: a 0 at the bottom, growing widths above it. *)
Definition stack_ok (stack : list nat) : Prop :=
  (exists rest, stack = 0 :: rest) /\ increasing stack.

(** A step of the lexer that leaves the indent stack alone and adds ordinary
    tokens only. *)
Definition adds_ordinary (lx lx' : Lexer.t) : Prop :=
  Lexer.indentStack lx' = Lexer.indentStack lx /\
  exists added, Lexer.tokens lx' = (Lexer.tokens lx ++ added)%list /\
                Forall (fun t => ordinary (type t) = true) added.

(** What every lexer on the way through a source satisfies: one block is
    open for each width above the 0 of the stack. *)
Definition lexer_ok (lx : Lexer.t) : Prop :=
  stack_ok (Lexer.indentStack lx) /\
  nesting 0 (Lexer.tokens lx) = Some (length (Lexer.indentStack lx) - 1) /\
  Forall (fun t => type t <> EOF) (Lexer.tokens lx).

(** The occurrences of a character in a text. *)
Fixpoint count_char (c : ascii) (s : string) : nat :=
  match s with
  | String a rest => (if Ascii.eqb a c then 1 else 0) + count_char c rest
  | EmptyString => 0
  end.

(** The tokens the parser has not read yet. *)
Definition tokens_left (p : Parser.t) : nat :=
  length (Parser.tokens p) - Parser.current p.

(** An array whose last token is an EOF, as [tokenize] builds them. *)
Definition ends_with_EOF (ts : list Token) : Prop :=
  exists body eof, ts = (body ++ [eof])%list /\ type eof = EOF.

(** The parser stands on a token of such an array: [peek] reads inside it. *)
Definition reads_inside (p : Parser.t) : Prop :=
  ends_with_EOF (Parser.tokens p) /\ Parser.current p < length (Parser.tokens p).

(** A call of the parser made at [p] has come to an end with [r]: it threw,
    or it returned having read at least [k] tokens of the same array, and
    standing inside the array if it stood inside before. *)
Definition consumed {A} (k : nat) (p : Parser.t) (r : Parser.Result A) : Prop :=
  match r with
  | Parser.Ok _ p' =>
      Parser.tokens p' = Parser.tokens p /\ tokens_left p' + k <= tokens_left p /\
      (reads_inside p -> reads_inside p')
  | Parser.Throw _ _ => True
  | Parser.OutOfFuel => False
  end.

(** ** Where a statement executes *)

(** What the interpreter evaluates: a statement, an expression, a block, the
    arguments of a call, the turns of a loop that are still to run. *)
Inductive Place :=
| AtStatement (s : Statement)
| AtExpression (e : Expression)
| AtBlock (statements : list Statement)
| AtArguments (arguments : list Expression)
| AtWhileTurns (n : nat) (condition : Expression) (body : list Statement)
| AtForTurns (n : nat) (variable : string) (body : list Statement) (bound i : float).

(** The evaluation of [place], started in [st], throws [e] and leaves [st']. *)
Definition throws (Math_pow : float -> float -> float) (fuel : nat) (place : Place)
    (st : Interpreter.t) (e : Thrown) (st' : Interpreter.t) : Prop :=
  match place with
  | AtStatement s =>
      Interpreter.visitStatement Math_pow fuel s st = Interpreter.Throw e st'
  | AtExpression x =>
      Interpreter.visitExpression Math_pow fuel x st = Interpreter.Throw e st'
  | AtBlock statements =>
      Interpreter.run Math_pow fuel statements st = Interpreter.Throw e st'
  | AtArguments arguments =>
      Interpreter.visitArguments (Interpreter.visitExpression Math_pow fuel) arguments st =
        Interpreter.Throw e st'
  | AtWhileTurns n condition body =>
      Interpreter.whileTurns (Interpreter.visitStatement Math_pow fuel)
        (Interpreter.visitExpression Math_pow fuel) n condition body st =
        Interpreter.Throw e st'
  | AtForTurns n variable body bound i =>
      Interpreter.forTurns (Interpreter.visitStatement Math_pow fuel) n variable body
        bound i st = Interpreter.Throw e st'
  end.

Section OutsideLoops.
Variable Math_pow : float -> float -> float.

(** The statement [s0], which [visitStatement] is called on with the bound
    [fuel0] in the interpreter [st0]; [st1] is the interpreter it leaves when
    it throws. *)
Variable fuel0 : nat.
Variable s0 : Statement.
Variable st0 st1 : Interpreter.t.

(** [outside_loops fuel place st st']: the evaluation of [place], started in
    [st], comes to [s0] in [st0], and no body of a [jab tak] loop is between
    [place] and [s0]: what holds [s0] is a block of the program, a branch of a
    conditional, the body of a loop over a range, the body of a function that
    is called, or an expression or the condition of a loop that calls such a
    function. Every part that is evaluated before [s0] on the way has
    completed. [st'] is [st1] in the environment that is current when an error
    thrown by [s0] has left [place]: a call and a loop over a range restore
    the environment they started in. *)
Inductive outside_loops : nat -> Place -> Interpreter.t -> Interpreter.t -> Prop :=
| at_the_statement :
    outside_loops fuel0 (AtStatement s0) st0 st1
| in_declaration_value f x v c position st st' :
    outside_loops f (AtExpression v) st st' ->
    outside_loops (S f) (AtStatement (VariableDeclaration x v c position)) st st'
| in_assignment_value f x v position st st' :
    outside_loops f (AtExpression v) st st' ->
    outside_loops (S f) (AtStatement (Assignment x v position)) st st'
| in_if_condition f c thenBranch elseBranch position st st' :
    outside_loops f (AtExpression c) st st' ->
    outside_loops (S f) (AtStatement (IfStatement c thenBranch elseBranch position)) st st'
| in_then_branch f c thenBranch elseBranch position st cv sta st' :
    Interpreter.visitExpression Math_pow f c st = Interpreter.Ok cv sta ->
    Interpreter.isTruthy cv = true ->
    outside_loops f (AtBlock thenBranch) sta st' ->
    outside_loops (S f) (AtStatement (IfStatement c thenBranch elseBranch position)) st st'
| in_else_branch f c thenBranch branch position st cv sta st' :
    Interpreter.visitExpression Math_pow f c st = Interpreter.Ok cv sta ->
    Interpreter.isTruthy cv = false ->
    outside_loops f (AtBlock branch) sta st' ->
    outside_loops (S f) (AtStatement (IfStatement c thenBranch (Some branch) position))
      st st'
| in_while_loop f c body position st st' :
    outside_loops f (AtWhileTurns f c body) st st' ->
    outside_loops (S f) (AtStatement (WhileLoop c body position)) st st'
| in_while_condition f n c body st st' :
    outside_loops f (AtExpression c) st st' ->
    outside_loops f (AtWhileTurns (S n) c body) st st'
| in_a_later_while_turn f n c body st cv sta stb st' :
    Interpreter.visitExpression Math_pow f c st = Interpreter.Ok cv sta ->
    Interpreter.isTruthy cv = true ->
    Interpreter.run Math_pow f body sta = Interpreter.Ok tt stb ->
    outside_loops f (AtWhileTurns n c body) stb st' ->
    outside_loops f (AtWhileTurns (S n) c body) st st'
| in_for_iterable f variable iterable body position st st' :
    outside_loops f (AtExpression iterable) st st' ->
    outside_loops (S f) (AtStatement (ForLoop variable iterable body position)) st st'
| in_for_loop f variable iterable body position st bound sta stb st' :
    Interpreter.visitExpression Math_pow f iterable st =
      Interpreter.Ok (VRange bound) sta ->
    Interpreter.enter (Interpreter.environment sta) sta = Interpreter.Ok tt stb ->
    outside_loops f (AtForTurns f variable body bound 0%float) stb st' ->
    outside_loops (S f) (AtStatement (ForLoop variable iterable body position)) st
      (Interpreter.with_environment (Interpreter.environment sta) st')
| in_for_body f n variable body bound i st sta st' :
    PrimFloat.ltb i bound = true ->
    Interpreter.onHeap
      (Environment.define (Interpreter.environment st) variable (VNumber i) false) st =
      Interpreter.Ok tt sta ->
    outside_loops f (AtBlock body) sta st' ->
    outside_loops f (AtForTurns (S n) variable body bound i) st st'
| in_a_later_for_turn f n variable body bound i st sta stb st' :
    PrimFloat.ltb i bound = true ->
    Interpreter.onHeap
      (Environment.define (Interpreter.environment st) variable (VNumber i) false) st =
      Interpreter.Ok tt sta ->
    Interpreter.run Math_pow f body sta = Interpreter.Ok tt stb ->
    outside_loops f (AtForTurns n variable body bound (i + 1)%float) stb st' ->
    outside_loops f (AtForTurns (S n) variable body bound i) st st'
| in_return_value f v position st st' :
    outside_loops f (AtExpression v) st st' ->
    outside_loops (S f) (AtStatement (ReturnStatement (Some v) position)) st st'
| in_print_value f v position st st' :
    outside_loops f (AtExpression v) st st' ->
    outside_loops (S f) (AtStatement (PrintStatement v position)) st st'
| in_expression_statement f e st st' :
    outside_loops f (AtExpression e) st st' ->
    outside_loops (S f) (AtStatement (ExpressionStatement e)) st st'
| in_block_first f s rest st st' :
    outside_loops f (AtStatement s) st st' ->
    outside_loops f (AtBlock (s :: rest)) st st'
| in_block_later f s rest st sta st' :
    Interpreter.visitStatement Math_pow f s st = Interpreter.Ok tt sta ->
    outside_loops f (AtBlock rest) sta st' ->
    outside_loops f (AtBlock (s :: rest)) st st'
| in_left_operand f l operator r position st st' :
    outside_loops f (AtExpression l) st st' ->
    outside_loops (S f) (AtExpression (BinaryExpression l operator r position)) st st'
| in_right_operand f l operator r position st lv sta st' :
    Interpreter.visitExpression Math_pow f l st = Interpreter.Ok lv sta ->
    outside_loops f (AtExpression r) sta st' ->
    outside_loops (S f) (AtExpression (BinaryExpression l operator r position)) st st'
| in_operand f operator operand position st st' :
    outside_loops f (AtExpression operand) st st' ->
    outside_loops (S f) (AtExpression (UnaryExpression operator operand position)) st st'
| in_range_argument f a position st st' :
    outside_loops f (AtExpression a) st st' ->
    outside_loops (S f) (AtExpression (CallExpression (Some "range") [a] position)) st st'
| in_call_arguments f g arguments position st func st' :
    String.eqb g "range" = false ->
    Environment.get (Interpreter.environment st) g (Interpreter.heap st) =
      inr (VFunction func) ->
    outside_loops f (AtArguments arguments) st st' ->
    outside_loops (S f) (AtExpression (CallExpression (Some g) arguments position)) st st'
| in_call_body f g arguments position st func vals sta stb st' :
    String.eqb g "range" = false ->
    Environment.get (Interpreter.environment st) g (Interpreter.heap st) =
      inr (VFunction func) ->
    Interpreter.visitArguments (Interpreter.visitExpression Math_pow f) arguments st =
      Interpreter.Ok vals sta ->
    length vals = length (parameters func) ->
    Interpreter.bind (Interpreter.enter (closure func))
      (fun _ => Interpreter.bindParameters (parameters func) vals) sta =
      Interpreter.Ok tt stb ->
    outside_loops f (AtBlock (body func)) stb st' ->
    outside_loops (S f) (AtExpression (CallExpression (Some g) arguments position)) st
      (Interpreter.with_environment (Interpreter.environment sta) st')
| in_argument_first f a rest st st' :
    outside_loops f (AtExpression a) st st' ->
    outside_loops f (AtArguments (a :: rest)) st st'
| in_argument_later f a rest st v sta st' :
    Interpreter.visitExpression Math_pow f a st = Interpreter.Ok v sta ->
    outside_loops f (AtArguments rest) sta st' ->
    outside_loops f (AtArguments (a :: rest)) st st'.

End OutsideLoops.

(** * Properties *)

Local Open Scope list_scope.

(** ** What every run preserves

    A relation between the interpreter before and after a step that is
    reflexive, transitive and kept by each elementary write is kept by every
    statement and expression, whether it returns or throws. *)
Section Preservation.
Import Interpreter.

Variable Math_pow : float -> float -> float.
Variable R : t -> t -> Prop.

Hypothesis R_refl : forall st, R st st.
Hypothesis R_trans : forall a b c, R a b -> R b c -> R a c.
Hypothesis R_define : forall st name v c h,
  Environment.define (environment st) name v c (heap st) = inr h -> R st (with_heap h st).
Hypothesis R_assign : forall st name v h,
  Environment.assign (environment st) name v (heap st) = inr h -> R st (with_heap h st).
Hypothesis R_enter : forall st p,
  R st (with_environment (length (heap st))
          (with_heap (heap st ++ [Environment.new (Some p)]) st)).
Hypothesis R_restore : forall st e, R st (with_environment e st).
Hypothesis R_print : forall st line, R st (with_output (output st ++ [line]) st).
Hypothesis R_input : forall st n, R st (with_inputCalls n st).
Hypothesis R_count : forall st n, R st (with_functionCount n st).

Lemma preserves_ret {A} (a : A) : preserves R (ret a).
Proof. intros st. apply R_refl. Qed.

Lemma preserves_throw {A} (e : Thrown) : preserves R (@throw A e).
Proof. intros st. apply R_refl. Qed.

Lemma preserves_outOfFuel {A} : preserves R (@outOfFuel A).
Proof. intros st. exact Logic.I. Qed.

Lemma preserves_bind {A B} (m : M A) (k : A -> M B) :
  preserves R m -> (forall a, preserves R (k a)) -> preserves R (bind m k).
Proof.
  intros Hm Hk st. unfold bind. specialize (Hm st).
  destruct (m st) as [a st'|e st'|]; simpl in *; auto.
  specialize (Hk a st'). destruct (k a st'); simpl in *; eauto.
Qed.

Lemma preserves_finally {A} (m : M A) (restore : t -> t) :
  preserves R m -> (forall st, R st (restore st)) -> preserves R (finally m restore).
Proof.
  intros Hm Hr st. unfold finally. specialize (Hm st).
  destruct (m st); simpl in *; eauto.
Qed.

Lemma preserves_define name v c :
  preserves R (fun st => onHeap (Environment.define (environment st) name v c) st).
Proof.
  intros st. unfold onHeap.
  destruct (Environment.define _ _ _ _ _) eqn:E; simpl; eauto.
Qed.

Lemma preserves_assign name v :
  preserves R (fun st => onHeap (Environment.assign (environment st) name v) st).
Proof.
  intros st. unfold onHeap.
  destruct (Environment.assign _ _ _ _) eqn:E; simpl; eauto.
Qed.

Lemma preserves_lookup name : preserves R (lookup name).
Proof. intros st. unfold lookup. destruct (Environment.get _ _ _); simpl; auto. Qed.

Lemma preserves_enter p : preserves R (enter p).
Proof. intros st. apply R_enter. Qed.

Lemma preserves_lift r : preserves R (lift r).
Proof. destruct r; [apply preserves_throw | apply preserves_ret]. Qed.

Section Visitors.
Variable fuel : nat.
Variable vs : Statement -> M unit.
Variable ve : Expression -> M RuntimeValue.
Hypothesis Hvs : forall s, preserves R (vs s).
Hypothesis Hve : forall e, preserves R (ve e).

Lemma preserves_visitStatements l : preserves R (visitStatements vs l).
Proof.
  induction l as [|s l IH]; simpl.
  - apply preserves_ret.
  - apply preserves_bind; auto.
Qed.

Lemma preserves_whileTurns n c b : preserves R (whileTurns vs ve n c b).
Proof.
  induction n as [|n IH]; simpl.
  - apply preserves_outOfFuel.
  - apply preserves_bind; [auto|]. intros v.
    destruct (isTruthy v); [|apply preserves_ret].
    intros st. pose proof (preserves_visitStatements b st) as Hb.
    destruct (visitStatements vs b st) as [[] st'|e st'|]; simpl in *; auto.
    + specialize (IH st'). destruct (whileTurns vs ve n c b st'); simpl in *; eauto.
    + destruct e; simpl; auto.
Qed.

Lemma preserves_forTurns n variable b bound i :
  preserves R (forTurns vs n variable b bound i).
Proof.
  revert i. induction n as [|n IH]; intros i; simpl.
  - apply preserves_outOfFuel.
  - destruct (PrimFloat.ltb i bound); [|apply preserves_ret].
    apply preserves_bind; [apply preserves_define|]. intros _.
    apply preserves_bind; [apply preserves_visitStatements|]. intros _. apply IH.
Qed.

Lemma preserves_visitArguments l : preserves R (visitArguments ve l).
Proof.
  induction l as [|a l IH]; simpl.
  - apply preserves_ret.
  - apply preserves_bind; [auto|]. intros v.
    apply preserves_bind; [auto|]. intros vs'. apply preserves_ret.
Qed.

Lemma preserves_bindParameters ps args : preserves R (bindParameters ps args).
Proof.
  revert args. induction ps as [|p ps IH]; intros [|a args]; simpl;
    try apply preserves_ret.
  apply preserves_bind; [apply preserves_define|]. intros _. apply IH.
Qed.

Lemma preserves_visitCallExpression callee args :
  preserves R (visitCallExpression vs ve callee args).
Proof.
  unfold visitCallExpression. destruct callee as [calleeName|]; [|apply preserves_throw].
  destruct (String.eqb calleeName "range").
  - destruct args as [|a [|]]; try apply preserves_throw.
    apply preserves_bind; [auto|]. intros [] ; try apply preserves_throw. apply preserves_ret.
  - apply preserves_bind; [apply preserves_lookup|].
    intros []; try apply preserves_throw.
    apply preserves_bind; [apply preserves_visitArguments|]. intros vals.
    destruct (negb _); [apply preserves_throw|].
    intros st.
    refine (preserves_bind _ _ (preserves_enter _) _ st). intros _.
    apply preserves_bind; [apply preserves_bindParameters|]. intros _.
    apply preserves_finally; [|intros; apply R_restore].
    intros st'. pose proof (preserves_visitStatements (body v) st') as Hb.
    destruct (visitStatements vs (body v) st') as [[] st''|e st''|]; simpl in *; auto.
    destruct e; simpl; auto.
Qed.

Lemma preserves_visitStatementBody s : preserves R (visitStatementBody fuel vs ve s).
Proof.
  destruct s; simpl.
  - apply preserves_bind; [auto|]. intros w. apply preserves_define.
  - apply preserves_bind; [auto|]. intros w. apply preserves_assign.
  - apply preserves_bind; [auto|]. intros c.
    destruct (isTruthy c); [apply preserves_visitStatements|].
    destruct elseBranch; [apply preserves_visitStatements | apply preserves_ret].
  - apply preserves_whileTurns.
  - apply preserves_bind; [auto|]. intros []; try apply preserves_throw.
    intros st. apply preserves_finally; [|intros; apply R_restore].
    apply preserves_bind; [apply preserves_enter|]. intros _. apply preserves_forTurns.
  - intros st. unfold visitFunctionDeclaration.
    pose proof (preserves_define name0
                  (VFunction {| identity := functionCount st; name := name0;
                                parameters := parameters0; body := body0;
                                closure := environment st |}) false
                  (with_functionCount (S (functionCount st)) st)) as H.
    simpl in H.
    destruct (onHeap _ _) as [[] st'|e st'|]; simpl in *; eauto.
  - apply preserves_bind; [|intros; apply preserves_throw].
    destruct v; [auto | apply preserves_ret].
  - apply preserves_bind; [auto|]. intros w st. apply R_print.
  - apply preserves_bind; [auto|]. intros; apply preserves_ret.
Qed.

Lemma preserves_visitExpressionBody e : preserves R (visitExpressionBody Math_pow vs ve e).
Proof.
  destruct e; simpl.
  - apply preserves_bind; [auto|]. intros l. apply preserves_bind; [auto|]. intros r.
    apply preserves_lift.
  - apply preserves_bind; [auto|]. intros w.
    destruct (String.eqb operator "nahi"); [apply preserves_ret|].
    destruct (String.eqb operator "-"), w; try apply preserves_throw; apply preserves_ret.
  - apply preserves_visitCallExpression.
  - apply preserves_lookup.
  - apply preserves_ret.
  - intros st. unfold visitInputStatement.
    destruct (inputCallback st); simpl; auto.
    destruct (_ && _); simpl; apply R_input.
Qed.

End Visitors.

Lemma visit_preserves fuel :
  (forall s, preserves R (visitStatement Math_pow fuel s)) /\
  (forall e, preserves R (visitExpression Math_pow fuel e)).
Proof.
  induction fuel as [|f [IHs IHe]]; simpl.
  - split; intros; apply preserves_outOfFuel.
  - split; intros.
    + apply preserves_visitStatementBody; auto.
    + apply preserves_visitExpressionBody; auto.
Qed.

Lemma run_preserves fuel l : preserves R (run Math_pow fuel l).
Proof. apply preserves_visitStatements, visit_preserves. Qed.

End Preservation.

Lemma visit_respects Math_pow R fuel :
  respects_writes R ->
  (forall s, Interpreter.preserves R (Interpreter.visitStatement Math_pow fuel s)) /\
  (forall e, Interpreter.preserves R (Interpreter.visitExpression Math_pow fuel e)).
Proof. intros []. apply visit_preserves; assumption. Qed.

Lemma run_respects Math_pow R fuel l :
  respects_writes R -> Interpreter.preserves R (Interpreter.run Math_pow fuel l).
Proof. intros []. apply run_preserves; assumption. Qed.

(** ** Sequences of statements *)

Lemma visitStatements_app (vs : Statement -> Interpreter.M unit) l1 l2 st :
  Interpreter.visitStatements vs (l1 ++ l2) st =
  match Interpreter.visitStatements vs l1 st with
  | Interpreter.Ok _ st' => Interpreter.visitStatements vs l2 st'
  | Interpreter.Throw e st' => Interpreter.Throw e st'
  | Interpreter.OutOfFuel => Interpreter.OutOfFuel
  end.
Proof.
  revert st. induction l1 as [|s l1 IH]; intros st; simpl; [reflexivity|].
  unfold Interpreter.bind. destruct (vs s st); auto.
Qed.

(** A statement that throws ends the sequence it is in, whatever follows it. *)
Lemma run_until_throw Math_pow fuel pre s post st st1 e st2 :
  Interpreter.run Math_pow fuel pre st = Interpreter.Ok tt st1 ->
  Interpreter.visitStatement Math_pow fuel s st1 = Interpreter.Throw e st2 ->
  Interpreter.run Math_pow fuel (pre ++ s :: post) st = Interpreter.Throw e st2.
Proof.
  intros Hpre Hs. unfold Interpreter.run in *. rewrite visitStatements_app, Hpre.
  simpl. unfold Interpreter.bind. rewrite Hs. reflexivity.
Qed.

(** ** The lexer always finishes *)

Lemma lexer_Ok_inj a b : Lexer.Ok a = Lexer.Ok b -> a = b.
Proof. intros H. injection H as ->. reflexivity. Qed.

Lemma reads_on_refl lx : reads_on lx lx.
Proof. split; [lia | reflexivity]. Qed.

Lemma reads_on_trans a b c : reads_on a b -> reads_on b c -> reads_on a c.
Proof. intros [H1 H2] [H3 H4]. split; [lia | congruence]. Qed.

Lemma reads_on_advance lx : reads_on lx (snd (Lexer.advance lx)).
Proof. split; simpl; [lia | reflexivity]. Qed.

Lemma reads_on_addToken ty v a b : reads_on a b -> reads_on a (Lexer.addToken ty v b).
Proof. intros H. exact H. Qed.

Lemma reads_on_advanceWhile cond fuel : forall lx,
  reads_on lx (Lexer.advanceWhile cond fuel lx).
Proof.
  induction fuel as [|f IH]; intros lx; simpl; [apply reads_on_refl|].
  destruct (cond lx); [|apply reads_on_refl].
  eapply reads_on_trans; [apply reads_on_advance | apply IH].
Qed.

Lemma countIndent_moves fuel : forall indent lx,
  reads_on lx (snd (Lexer.countIndent fuel indent lx)) /\
  (Lexer.column lx <= Lexer.column (snd (Lexer.countIndent fuel indent lx)))%Z.
Proof.
  induction fuel as [|f IH]; intros indent lx; simpl; [split; [apply reads_on_refl | lia]|].
  destruct (_ && _); [|split; [apply reads_on_refl | simpl; lia]].
  match goal with |- context [Lexer.countIndent f ?i ?l] => destruct (IH i l) as [H1 H2] end.
  split.
  - eapply reads_on_trans; [apply reads_on_advance | exact H1].
  - etransitivity; [|exact H2]. simpl. lia.
Qed.

Lemma popIndents_stays fuel indent : forall lx,
  reads_on lx (Lexer.popIndents fuel indent lx) /\
  Lexer.column (Lexer.popIndents fuel indent lx) = Lexer.column lx.
Proof.
  induction fuel as [|f IH]; intros lx; simpl; [split; [apply reads_on_refl | reflexivity]|].
  destruct (_ && _); [|split; [apply reads_on_refl | reflexivity]].
  match goal with |- context [Lexer.popIndents f indent ?l] => destruct (IH l) as [H1 H2] end.
  split; [exact H1 | exact H2].
Qed.

Lemma reads_on_stringBody fuel : forall lx, reads_on lx (Lexer.stringBody fuel lx).
Proof.
  induction fuel as [|f IH]; intros lx; simpl; [apply reads_on_refl|].
  destruct (_ && _); [|apply reads_on_refl].
  match goal with |- context [Lexer.stringBody f ?l] => specialize (IH l) end.
  eapply reads_on_trans; [|exact IH].
  destruct (Ascii.eqb _ _); split; simpl; (lia || reflexivity).
Qed.

Lemma compound_moves second ty merged lx :
  reads_on lx (snd (Lexer.compound second ty merged lx)) /\
  forall lx', fst (Lexer.compound second ty merged lx) = Some lx' -> reads_on lx lx'.
Proof.
  unfold Lexer.compound. cbv zeta. destruct (String.eqb _ _); cbn [fst snd].
  - split; [split; simpl; [lia | reflexivity]|].
    intros lx' [= <-]. split; simpl; [lia | reflexivity].
  - split; [split; simpl; [lia | reflexivity] | discriminate].
Qed.

Lemma reads_on_compounds text first second ty merged a b (k : Lexer.t -> Lexer.t) :
  reads_on a b ->
  (forall l, reads_on a l -> reads_on a (k l)) ->
  reads_on a
    (let '(done, l) :=
       if String.eqb text first && Ascii.eqb (Lexer.peek b) " "
       then Lexer.compound second ty merged b
       else (None, b) in
     match done with
     | Some l' => l'
     | None => k l
     end).
Proof.
  intros Hab Hk. destruct (_ && _).
  - destruct (compound_moves second ty merged b) as [H1 H2].
    destruct (Lexer.compound second ty merged b) as [[l'|] l]; cbn [fst snd] in *.
    + eapply reads_on_trans; [exact Hab | apply H2; reflexivity].
    + apply Hk. eapply reads_on_trans; eassumption.
  - apply Hk, Hab.
Qed.

Lemma reads_on_identifier lx : reads_on lx (Lexer.identifier lx).
Proof.
  unfold Lexer.identifier. cbv zeta.
  apply reads_on_compounds; [apply reads_on_advanceWhile|].
  intros l Hl. apply reads_on_compounds; [exact Hl|].
  intros l' Hl'. apply reads_on_addToken, Hl'.
Qed.

Lemma reads_on_number lx : reads_on lx (Lexer.number lx).
Proof.
  unfold Lexer.number. cbv zeta. apply reads_on_addToken.
  eapply reads_on_trans; [apply reads_on_advanceWhile|].
  destruct (_ && _); [|apply reads_on_refl].
  eapply reads_on_trans; [apply reads_on_advance | apply reads_on_advanceWhile].
Qed.

Lemma reads_on_string lx lx' : Lexer.string_ lx = Lexer.Ok lx' -> reads_on lx lx'.
Proof.
  unfold Lexer.string_. cbv zeta.
  destruct (Lexer.isAtEnd _); [discriminate|]. intros H. apply lexer_Ok_inj in H. subst lx'.
  apply reads_on_addToken.
  eapply reads_on_trans; [apply reads_on_stringBody | apply reads_on_advance].
Qed.

Lemma reads_on_match expected lx : reads_on lx (snd (Lexer.match_ expected lx)).
Proof.
  unfold Lexer.match_. destruct (Lexer.isAtEnd lx); [apply reads_on_refl|].
  destruct (JS.charAt _ _) as [c|]; [|apply reads_on_refl].
  destruct (Ascii.eqb c expected); [|apply reads_on_refl].
  split; simpl; [lia | reflexivity].
Qed.

Lemma reads_on_oneOrTwo second two twoText one oneText lx :
  reads_on lx (Lexer.oneOrTwo second two twoText one oneText lx).
Proof.
  unfold Lexer.oneOrTwo. pose proof (reads_on_match second lx) as H.
  destruct (Lexer.match_ second lx) as [[|] l]; apply reads_on_addToken, H.
Qed.

Lemma handleIndentation_moves lx lx' :
  Lexer.handleIndentation lx = Lexer.Ok lx' ->
  reads_on (Lexer.with_current (Lexer.current lx - 1) lx) lx' /\
  (Lexer.column lx <= Lexer.column lx')%Z.
Proof.
  unfold Lexer.handleIndentation. cbv zeta.
  destruct (countIndent_moves
              (Lexer.remaining (Lexer.with_current (Lexer.current lx - 1) lx))
              0 (Lexer.with_current (Lexer.current lx - 1) lx)) as [H1 H2].
  destruct (Lexer.countIndent _ 0 _) as [indent lx1]. cbn [snd] in H1, H2.
  change (Lexer.column (Lexer.with_current (Lexer.current lx - 1) lx))
    with (Lexer.column lx) in H2.
  destruct (_ <? indent)%nat.
  - intros H. apply lexer_Ok_inj in H. subst lx'. split; [exact H1 | exact H2].
  - destruct (indent <? _)%nat.
    + destruct (popIndents_stays (length (Lexer.indentStack lx1)) indent lx1) as [P1 P2].
      destruct (negb _); [discriminate|].
      intros H. apply lexer_Ok_inj in H. subst lx'. split.
      * eapply reads_on_trans; eassumption.
      * rewrite P2. exact H2.
    + intros H. apply lexer_Ok_inj in H. subst lx'. split; [exact H1 | exact H2].
Qed.

(** The loops inside the lexer are given the characters left as their
    bound; each of them stops because its own condition fails, as the
    [while] of the source does, and not because the bound ran out. *)
Lemma advanceWhile_exits cond fuel : forall lx,
  (forall l, cond l = true -> Lexer.isAtEnd l = false) ->
  String.length (Lexer.source lx) - Lexer.current lx < fuel ->
  cond (Lexer.advanceWhile cond fuel lx) = false.
Proof.
  induction fuel as [|f IH]; intros lx Hc Hf; [lia|]. simpl.
  destruct (cond lx) eqn:E; [|exact E].
  apply IH; [exact Hc|]. apply Hc in E. unfold Lexer.isAtEnd in E.
  apply Nat.leb_gt in E. simpl. lia.
Qed.

Lemma countIndent_exits fuel : forall indent lx,
  String.length (Lexer.source lx) - Lexer.current lx < fuel ->
  let lx' := snd (Lexer.countIndent fuel indent lx) in
  negb (Lexer.isAtEnd lx')
  && (Ascii.eqb (Lexer.peek lx') " " || Ascii.eqb (Lexer.peek lx') JS.TAB) = false.
Proof.
  induction fuel as [|f IH]; intros indent lx Hf; [lia|]. simpl.
  destruct (negb (Lexer.isAtEnd lx) && _) eqn:E; [|exact E].
  apply IH. apply andb_true_iff in E as [E _]. apply negb_true_iff in E.
  unfold Lexer.isAtEnd in E. apply Nat.leb_gt in E. simpl. lia.
Qed.

Lemma stringBody_exits fuel : forall lx,
  String.length (Lexer.source lx) - Lexer.current lx < fuel ->
  let lx' := Lexer.stringBody fuel lx in
  negb (Ascii.eqb (Lexer.peek lx') JS.DQUOTE) && negb (Lexer.isAtEnd lx') = false.
Proof.
  induction fuel as [|f IH]; intros lx Hf; [lia|]. simpl.
  destruct (negb (Ascii.eqb (Lexer.peek lx) JS.DQUOTE) && _) eqn:E; [|exact E].
  apply IH. apply andb_true_iff in E as [_ E]. apply negb_true_iff in E.
  unfold Lexer.isAtEnd in E. apply Nat.leb_gt in E.
  destruct (Ascii.eqb _ _); simpl; lia.
Qed.

Lemma length_removelast {A} (l : list A) : length (List.removelast l) = length l - 1.
Proof.
  induction l as [|x [|y l] IH]; [reflexivity | reflexivity |].
  change (S (length (List.removelast (y :: l))) = S (length (y :: l)) - 1).
  rewrite IH. simpl. lia.
Qed.

Lemma popIndents_exits fuel indent : forall lx,
  length (Lexer.indentStack lx) <= fuel ->
  let lx' := Lexer.popIndents fuel indent lx in
  (1 <? length (Lexer.indentStack lx'))%nat
  && (indent <? List.last (Lexer.indentStack lx') 0)%nat = false.
Proof.
  induction fuel as [|f IH]; intros lx Hf; simpl.
  - destruct (Lexer.indentStack lx); [reflexivity | simpl in Hf; lia].
  - destruct ((1 <? length (Lexer.indentStack lx))%nat && _) eqn:E; [|exact E].
    apply IH. apply andb_true_iff in E as [E _]. apply Nat.ltb_lt in E.
    simpl. rewrite length_removelast. lia.
Qed.

Lemma finalDedents_exits fuel : forall lx,
  length (Lexer.indentStack lx) <= fuel ->
  length (Lexer.indentStack (Lexer.finalDedents fuel lx)) <= 1.
Proof.
  induction fuel as [|f IH]; intros lx Hf; simpl; [lia|].
  destruct (1 <? length (Lexer.indentStack lx))%nat eqn:E.
  - apply IH. apply Nat.ltb_lt in E. simpl. rewrite length_removelast. lia.
  - apply Nat.ltb_ge in E. exact E.
Qed.

(** Every call of [scanToken] that returns lowers the measure. *)
Lemma scanToken_progress lx lx' :
  Lexer.isAtEnd lx = false ->
  Lexer.scanToken lx = Lexer.Ok lx' ->
  lexer_measure lx' < lexer_measure lx.
Proof.
  intros Hend. unfold Lexer.isAtEnd in Hend. apply Nat.leb_gt in Hend.
  unfold Lexer.scanToken.
  pose proof (reads_on_advance lx) as Hadv.
  assert (Lexer.current (snd (Lexer.advance lx)) = S (Lexer.current lx)) as C0
    by reflexivity.
  assert (Lexer.column (snd (Lexer.advance lx)) = (Lexer.column lx + 1)%Z) as K0
    by reflexivity.
  assert (Lexer.source (snd (Lexer.advance lx)) = Lexer.source lx) as S0
    by reflexivity.
  destruct (Lexer.advance lx) as [c lx0]. cbn [snd] in *. clear Hadv.
  assert (forall l, reads_on lx0 l -> lexer_measure l < lexer_measure lx) as Hstep.
  { intros l [Hl Hs]. unfold lexer_measure. rewrite Hs, S0.
    destruct (Lexer.column l =? 1)%Z, (Lexer.column lx =? 1)%Z; lia. }
  destruct (_ || _).
  { destruct (Lexer.column lx0 =? 2)%Z eqn:E2.
    - intros H. apply handleIndentation_moves in H as [[H1 H3] H2].
      apply Z.eqb_eq in E2. unfold lexer_measure. rewrite H3.
      change (Lexer.source (Lexer.with_current (Lexer.current lx0 - 1) lx0))
        with (Lexer.source lx0).
      change (Lexer.current (Lexer.with_current (Lexer.current lx0 - 1) lx0))
        with (Lexer.current lx0 - 1) in H1.
      rewrite S0.
      replace (Lexer.column lx =? 1)%Z with true by (symmetry; apply Z.eqb_eq; lia).
      replace (Lexer.column lx' =? 1)%Z with false by (symmetry; apply Z.eqb_neq; lia).
      lia.
    - intros H; apply lexer_Ok_inj in H; subst lx'. apply Hstep, reads_on_refl. }
  repeat match goal with
         | |- context [if Lexer.charIs ?c ?x then _ else _] => destruct (Lexer.charIs c x)
         end;
    try (intros H; apply lexer_Ok_inj in H; subst lx'; apply Hstep;
         first [ apply reads_on_addToken, reads_on_refl
               | apply reads_on_oneOrTwo
               | apply reads_on_advanceWhile
               | split; simpl; (lia || reflexivity) ]).
  - pose proof (reads_on_match "=" lx0) as Hm.
    destruct (Lexer.match_ "=" lx0) as [[|] l]; [|discriminate].
    intros H; apply lexer_Ok_inj in H; subst lx'. apply Hstep, reads_on_addToken, Hm.
  - intros H. apply Hstep, reads_on_string, H.
  - destruct c as [ch|]; [|discriminate].
    destruct (Lexer.isDigit ch).
    + intros H; apply lexer_Ok_inj in H; subst lx'. apply Hstep, reads_on_number.
    + destruct (Lexer.isAlpha ch); [|discriminate].
      intros H; apply lexer_Ok_inj in H; subst lx'. apply Hstep, reads_on_identifier.
Qed.

Lemma scanAll_finishes fuel : forall lx,
  lexer_measure lx <= fuel -> Lexer.scanAll fuel lx <> Lexer.OutOfSteps.
Proof.
  induction fuel as [|f IH]; intros lx Hm; simpl;
    destruct (Lexer.isAtEnd lx) eqn:E; try discriminate.
  - exfalso. unfold Lexer.isAtEnd in E. apply Nat.leb_gt in E.
    unfold lexer_measure in Hm. lia.
  - destruct (Lexer.scanToken lx) as [lx'|e] eqn:Es; [|discriminate].
    apply IH. pose proof (scanToken_progress lx lx' E Es). lia.
Qed.

(** [tokenize] returns the tokens or throws: the bound of the model is never
    what stops it. *)
Lemma tokenize_total source : Lexer.tokenize source <> Lexer.OutOfSteps.
Proof.
  unfold Lexer.tokenize. apply scanAll_finishes.
  unfold lexer_measure, Lexer.new. simpl. lia.
Qed.

(** ** A larger bound changes no result

    The bound of the model only decides whether a run finishes within it: a
    run that does gives the same result under every larger bound. *)

Section Bound.
Import Interpreter.
Variable Math_pow : float -> float -> float.

Lemma extends_refl {A} (m : M A) : extends m m.
Proof. intros st _. reflexivity. Qed.

Lemma extends_bind {A B} (m m' : M A) (k k' : A -> M B) :
  extends m m' -> (forall a, extends (k a) (k' a)) -> extends (bind m k) (bind m' k').
Proof.
  intros Hm Hk st. unfold bind. destruct (m st) as [a st'|e st'|] eqn:E.
  - intros H. rewrite Hm, E by (rewrite E; discriminate). apply Hk, H.
  - intros _. rewrite Hm, E by (rewrite E; discriminate). reflexivity.
  - intros H. contradiction.
Qed.

Lemma extends_finally {A} (m m' : M A) restore :
  extends m m' -> extends (finally m restore) (finally m' restore).
Proof.
  intros Hm st. unfold finally. destruct (m st) as [a st'|e st'|] eqn:E; intros H;
    [| |contradiction]; rewrite Hm, E by (rewrite E; discriminate); reflexivity.
Qed.

Section Visitors.
Variables fuel fuel' : nat.
Variables vs vs' : Statement -> M unit.
Variables ve ve' : Expression -> M RuntimeValue.
Hypothesis Hfuel : fuel <= fuel'.
Hypothesis Hvs : forall s, extends (vs s) (vs' s).
Hypothesis Hve : forall e, extends (ve e) (ve' e).

Lemma extends_visitStatements l : extends (visitStatements vs l) (visitStatements vs' l).
Proof.
  induction l as [|s l IH]; simpl; [apply extends_refl|].
  apply extends_bind; [apply Hvs | intros _; exact IH].
Qed.

Lemma extends_whileTurns c b : forall n n', n <= n' ->
  extends (whileTurns vs ve n c b) (whileTurns vs' ve' n' c b).
Proof.
  induction n as [|n IH]; intros n' Hle; [intros st H; contradiction|].
  destruct n' as [|n']; [lia|]. simpl.
  apply extends_bind; [apply Hve|]. intros v.
  destruct (isTruthy v); [|apply extends_refl].
  intros st H.
  pose proof (extends_visitStatements b st) as Hb.
  destruct (visitStatements vs b st) as [[] st'|e st'|]; [| |contradiction];
    rewrite Hb by discriminate; [|reflexivity].
  apply (IH n'); [lia | exact H].
Qed.

Lemma extends_forTurns variable b bound : forall n n', n <= n' -> forall i,
  extends (forTurns vs n variable b bound i) (forTurns vs' n' variable b bound i).
Proof.
  induction n as [|n IH]; intros n' Hle i; [intros st H; contradiction|].
  destruct n' as [|n']; [lia|]. simpl.
  destruct (PrimFloat.ltb i bound); [|apply extends_refl].
  apply extends_bind; [apply extends_refl|]. intros _.
  apply extends_bind; [apply extends_visitStatements|]. intros _.
  apply IH. lia.
Qed.

Lemma extends_visitArguments l : extends (visitArguments ve l) (visitArguments ve' l).
Proof.
  induction l as [|a l IH]; simpl; [apply extends_refl|].
  apply extends_bind; [apply Hve|]. intros v.
  apply extends_bind; [exact IH|]. intros ws. apply extends_refl.
Qed.

Lemma extends_visitCallExpression callee args :
  extends (visitCallExpression vs ve callee args) (visitCallExpression vs' ve' callee args).
Proof.
  unfold visitCallExpression. destruct callee as [calleeName|]; [|apply extends_refl].
  destruct (String.eqb calleeName "range").
  - destruct args as [|a [|]]; try apply extends_refl.
    apply extends_bind; [apply Hve|]. intros v. apply extends_refl.
  - apply extends_bind; [apply extends_refl|]. intros c.
    destruct c as [| | |func|]; try apply extends_refl.
    apply extends_bind; [apply extends_visitArguments|]. intros vals.
    destruct (negb _); [apply extends_refl|].
    intros st0. cbv beta zeta.
    refine (extends_bind _ _ _ _ (extends_refl _) _ st0). intros _.
    apply extends_bind; [apply extends_refl|]. intros _.
    apply extends_finally. intros st H.
    pose proof (extends_visitStatements (body func) st) as Hb.
    destruct (visitStatements vs (body func) st) as [[] st'|e st'|]; [| |contradiction];
      rewrite Hb by discriminate; reflexivity.
Qed.

Lemma extends_visitStatementBody s :
  extends (visitStatementBody fuel vs ve s) (visitStatementBody fuel' vs' ve' s).
Proof.
  destruct s; simpl.
  - apply extends_bind; [apply Hve | intros; apply extends_refl].
  - apply extends_bind; [apply Hve | intros; apply extends_refl].
  - apply extends_bind; [apply Hve|]. intros c.
    destruct (isTruthy c); [apply extends_visitStatements|].
    destruct elseBranch; [apply extends_visitStatements | apply extends_refl].
  - apply extends_whileTurns, Hfuel.
  - apply extends_bind; [apply Hve|]. intros it.
    destruct it; try apply extends_refl.
    intros st0. cbv beta zeta.
    refine (extends_finally _ _ _ _ st0).
    apply extends_bind; [apply extends_refl|]. intros _.
    apply extends_forTurns, Hfuel.
  - apply extends_refl.
  - apply extends_bind; [|intros; apply extends_refl].
    destruct v; [apply Hve | apply extends_refl].
  - apply extends_bind; [apply Hve | intros; apply extends_refl].
  - apply extends_bind; [apply Hve | intros; apply extends_refl].
Qed.

Lemma extends_visitExpressionBody e :
  extends (visitExpressionBody Math_pow vs ve e) (visitExpressionBody Math_pow vs' ve' e).
Proof.
  destruct e; simpl.
  - apply extends_bind; [apply Hve|]. intros l.
    apply extends_bind; [apply Hve|]. intros r. apply extends_refl.
  - apply extends_bind; [apply Hve | intros; apply extends_refl].
  - apply extends_visitCallExpression.
  - apply extends_refl.
  - apply extends_refl.
  - apply extends_refl.
Qed.

End Visitors.

Lemma visit_extends : forall fuel fuel', fuel <= fuel' ->
  (forall s, extends (visitStatement Math_pow fuel s) (visitStatement Math_pow fuel' s)) /\
  (forall e, extends (visitExpression Math_pow fuel e) (visitExpression Math_pow fuel' e)).
Proof.
  induction fuel as [|f IH]; intros fuel' Hle.
  - split; intros ? st H; contradiction.
  - destruct fuel' as [|f']; [lia|]. destruct (IH f' ltac:(lia)) as [IHs IHe].
    split; intros; simpl.
    + apply extends_visitStatementBody; [lia | exact IHs | exact IHe].
    + apply extends_visitExpressionBody; [exact IHs | exact IHe].
Qed.

Lemma run_extends fuel fuel' l :
  fuel <= fuel' -> extends (run Math_pow fuel l) (run Math_pow fuel' l).
Proof. intros Hle. apply extends_visitStatements, visit_extends, Hle. Qed.

(** What [interpret] returns under one bound it returns under every larger
    one. *)
Lemma interpret_extends fuel fuel' program st r :
  fuel <= fuel' ->
  interpret Math_pow fuel program st = Some r ->
  interpret Math_pow fuel' program st = Some r.
Proof.
  intros Hle. unfold interpret, visitProgram.
  pose proof (run_extends fuel fuel' (program_body program) Hle (with_output [] st)) as H.
  unfold run in H.
  destruct (visitStatements (visitStatement Math_pow fuel) _ _) as [[] st'|e st'|];
    [| |discriminate]; rewrite H by discriminate; auto.
Qed.

Lemma submit_extends fuel fuel' interpreter code result :
  fuel <= fuel' ->
  shown (App.submit Math_pow fuel interpreter code) = Some result ->
  shown (App.submit Math_pow fuel' interpreter code) = Some result.
Proof.
  intros Hle. unfold App.submit.
  destruct (Lexer.tokenize code); try discriminate.
  destruct (Parser.parse ts); try discriminate.
  destruct (interpret Math_pow fuel _ _) as [[r st']|] eqn:E; [|discriminate].
  rewrite (interpret_extends fuel fuel' _ _ _ Hle E). auto.
Qed.

End Bound.

(** ** The store of environments *)

Lemma at_last h env : Environment.at_ (h ++ [env]) (length h) = env.
Proof.
  unfold Environment.at_. rewrite lookup_app_r by lia.
  replace (length h - length h) with 0 by lia. reflexivity.
Qed.

Lemma at_before h env a : a < length h -> Environment.at_ (h ++ [env]) a = Environment.at_ h a.
Proof. intros Ha. unfold Environment.at_. rewrite lookup_app_l by exact Ha. reflexivity. Qed.

Lemma insert_last (h : list Environment.t) env env' :
  <[length h := env']> (h ++ [env]) = h ++ [env'].
Proof.
  rewrite insert_app_r_alt by lia.
  replace (length h - length h) with 0 by lia. reflexivity.
Qed.

(** ** The output buffer *)

Lemma output_grows_respects_writes : respects_writes output_grows.
Proof.
  split; unfold output_grows; intros; simpl; try reflexivity.
  - etransitivity; eauto.
  - apply prefix_app_r. reflexivity.
Qed.

Lemma output_only_grows Math_pow fuel :
  (forall s, Interpreter.preserves output_grows (Interpreter.visitStatement Math_pow fuel s)) /\
  (forall e, Interpreter.preserves output_grows (Interpreter.visitExpression Math_pow fuel e)).
Proof. apply visit_respects, output_grows_respects_writes. Qed.

(** ** C1: what [interpret] catches *)

(** C1, as stated, fails: an error raised while a program runs need not reach
    the result. The second statement of [Examples.errorInLoop] is a loop whose
    body divides by zero; the body throws, the loop ends, and [interpret]
    returns the line printed before it and no error. *)
Lemma error_in_loop_goes_unreported :
  let divide :=
    PrintStatement
      (BinaryExpression
         (Literal (LNumber 1) {| pos_line := 3; pos_column := 12 |}) "/"
         (Literal (LNumber 0) {| pos_line := 3; pos_column := 16 |})
         {| pos_line := 3; pos_column := 12 |})
      {| pos_line := 3; pos_column := 16 |} in
  let before := Interpreter.with_output ["7"] (Interpreter.new None) in
  (exists first condition at_,
     (Parser.parse <$> Examples.kinds_and_tokens Examples.errorInLoop) =
       Some (Parser.Parsed {| program_body := [first; WhileLoop condition [divide] at_];
                              program_position := Examples.at11 |})) /\
  Interpreter.visitStatement Examples.pow 10 divide before =
    Interpreter.Throw (Error "Division by zero") before /\
  shown (App.executeCode Examples.pow 10 Examples.errorInLoop) =
    Some {| result_output := ["7"]; result_error := None |}.
Proof.
  split; [|split].
  - do 3 eexists. vm_compute. reflexivity.
  - vm_compute. reflexivity.
  - vm_compute. reflexivity.
Qed.

(** The result object, whenever the run of the statements finishes: without
    an error when all of them complete, and otherwise with the text of what
    escaped the first statement that threw, the statements after it not run.
    The output is the buffer at that moment, which begins with everything the
    completed statements printed. *)
Lemma interpret_unfold Math_pow fuel program st :
  Interpreter.interpret Math_pow fuel program st =
  match Interpreter.run Math_pow fuel (program_body program)
          (Interpreter.with_output [] st) with
  | Interpreter.Ok _ st' =>
      Some ({| result_output := Interpreter.output st'; result_error := None |}, st')
  | Interpreter.Throw e st' =>
      Some ({| result_output := Interpreter.output st';
               result_error := Some (Interpreter.errorText e) |}, st')
  | Interpreter.OutOfFuel => None
  end.
Proof. reflexivity. Qed.

(** [interpret] on a program one of whose statements throws after the
    statements before it have completed. *)
Lemma interpret_after_a_throw Math_pow fuel pre s post at_ st st1 e st2 :
  Interpreter.run Math_pow fuel pre (Interpreter.with_output [] st) = Interpreter.Ok tt st1 ->
  Interpreter.visitStatement Math_pow fuel s st1 = Interpreter.Throw e st2 ->
  Interpreter.interpret Math_pow fuel
    {| program_body := pre ++ s :: post; program_position := at_ |} st =
    Some ({| result_output := Interpreter.output st2;
             result_error := Some (Interpreter.errorText e) |}, st2) /\
  Interpreter.output st1 `prefix_of` Interpreter.output st2.
Proof.
  intros Hpre Hs. split.
  - rewrite interpret_unfold. cbn [program_body].
    erewrite run_until_throw by eassumption. reflexivity.
  - pose proof (proj1 (output_only_grows Math_pow fuel) s st1) as Hg.
    rewrite Hs in Hg. exact Hg.
Qed.

(** C1 (amended): for every program whose run finishes, [interpret] returns a
    result object and throws nothing. When every statement completes the
    result has no error. When a top-level statement throws (an error that an
    enclosing loop swallowed is not one that the statement throws), the
    result's error is the text of what was thrown, the statements after it
    are not run, and the output is the buffer at the moment of the throw,
    which begins with all the lines of the statements completed before. *)
Theorem interpret_catches_what_escapes Math_pow fuel program st :
  (Interpreter.run Math_pow fuel (program_body program)
     (Interpreter.with_output [] st) <> Interpreter.OutOfFuel ->
   exists r st', Interpreter.interpret Math_pow fuel program st = Some (r, st')) /\
  (forall st',
     Interpreter.run Math_pow fuel (program_body program)
       (Interpreter.with_output [] st) = Interpreter.Ok tt st' ->
     Interpreter.interpret Math_pow fuel program st =
       Some ({| result_output := Interpreter.output st'; result_error := None |}, st')) /\
  (forall pre s post st1 e st2,
     program_body program = (pre ++ s :: post) ->
     Interpreter.run Math_pow fuel pre (Interpreter.with_output [] st) =
       Interpreter.Ok tt st1 ->
     Interpreter.visitStatement Math_pow fuel s st1 = Interpreter.Throw e st2 ->
     Interpreter.interpret Math_pow fuel program st =
       Some ({| result_output := Interpreter.output st2;
                result_error := Some (Interpreter.errorText e) |}, st2) /\
     Interpreter.output st1 `prefix_of` Interpreter.output st2).
Proof.
  rewrite interpret_unfold. split; [|split].
  - intros H. destruct (Interpreter.run _ _ _ _) as [[] st'|e st'|]; eauto. congruence.
  - intros st' H. rewrite H. reflexivity.
  - intros pre s post st1 e st2 Hbody Hpre Hs. split.
    + rewrite Hbody. erewrite run_until_throw by eassumption. reflexivity.
    + pose proof (proj1 (output_only_grows Math_pow fuel) s st1) as Hg.
      rewrite Hs in Hg. exact Hg.
Qed.

(** Scenario D, by the theorem: the declaration completes, the print
    statement throws, and nothing has been printed. *)
Lemma scenario_D :
  Parser.parse <$> Examples.kinds_and_tokens Examples.scenarioD =
    Some (Parser.Parsed Examples.scenarioD_program) /\
  returned (Interpreter.interpret Examples.pow 10 Examples.scenarioD_program
              (Interpreter.new None)) =
    Some {| result_output := []; result_error := Some "Division by zero" |}.
Proof.
  split; [vm_compute; reflexivity|].
  destruct (interpret_catches_what_escapes Examples.pow 10 Examples.scenarioD_program
              (Interpreter.new None)) as (_ & _ & H).
  edestruct (H [Examples.scenarioD_declaration] Examples.scenarioD_print [])
    as [Hi _]; [reflexivity | vm_compute; reflexivity | vm_compute; reflexivity |].
  rewrite Hi. reflexivity.
Defined.

(** A loop whose condition stays true and whose body never fails does not
    return: no bound on the run is enough. *)
Lemma endless_loop_never_returns fuel st :
  let loop :=
    WhileLoop (Literal (LBoolean true) Examples.at11)
      [ExpressionStatement (Literal (LBoolean true) Examples.at11)] Examples.at11 in
  Interpreter.visitStatement Examples.pow fuel loop st = Interpreter.OutOfFuel.
Proof.
  intros loop. destruct fuel as [|fuel]; [reflexivity|]. simpl.
  unfold Interpreter.visitWhileLoop.
  assert (forall n st, Interpreter.whileTurns (Interpreter.visitStatement Examples.pow fuel)
            (Interpreter.visitExpression Examples.pow fuel) n
            (Literal (LBoolean true) Examples.at11)
            [ExpressionStatement (Literal (LBoolean true) Examples.at11)] st
          = Interpreter.OutOfFuel) as H; [|apply H].
  induction n as [|n IH]; intros st'; [reflexivity|]. simpl.
  destruct fuel as [|[|fuel]]; try reflexivity. simpl. apply IH.
Qed.

(** ** C2: the loop over a range *)

(** C2, evaluated on the code at scenario B: the loop variable is bound by
    [define] in the one environment of the loop, so the second turn finds it
    bound already and throws. The run prints the first line only, whatever
    the host's [Math.pow] and under every bound of the model that lets it
    finish. *)
Theorem scenario_B_stops_at_the_second_turn Math_pow fuel :
  3 <= fuel ->
  shown (App.executeCode Math_pow fuel Examples.scenarioB) =
    Some {| result_output := ["0"];
            result_error := Some "Variable 'i' already defined" |}.
Proof.
  intros Hle. unfold App.executeCode.
  apply (submit_extends Math_pow 3 fuel _ _ _ Hle). vm_compute. reflexivity.
Qed.

(** Scenario B as [executeCode] runs it. *)
Lemma scenario_B_on_a_new_interpreter :
  shown (App.executeCode Examples.pow 10 Examples.scenarioB) =
    Some {| result_output := ["0"];
            result_error := Some "Variable 'i' already defined" |}.
Proof. apply (scenario_B_stops_at_the_second_turn Examples.pow 10). lia. Defined.

(** A range of one runs its single turn. *)
Lemma range_of_one_runs :
  shown (App.executeCode Examples.pow 10
           (Examples.source ["dohrana i in range(1):"; "    likho i"])) =
    Some {| result_output := ["0"]; result_error := None |}.
Proof. vm_compute. reflexivity. Qed.

Lemma assign_keeps_bindings h h' fuel self name w a env x :
  Environment.assign_from fuel h self name w = inr h' ->
  h !! a = Some env -> is_Some (Environment.values env !! x) ->
  exists env', h' !! a = Some env' /\ is_Some (Environment.values env' !! x).
Proof.
  revert self. induction fuel as [|fuel IH]; intros self Hassign Ha Hx; simpl in Hassign;
    destruct (bool_decide (name ∈ Environment.constants (Environment.at_ h self)));
    try discriminate;
    destruct (Environment.has (Environment.at_ h self) name).
  all: try (destruct (Environment.parent (Environment.at_ h self)); discriminate).
  all: try (destruct (Environment.parent (Environment.at_ h self)) as [p|];
            [eapply IH; eassumption | discriminate]).
  all: injection Hassign as <-;
    destruct (decide (a = self)) as [->|Hne];
    [ assert (Environment.at_ h self = env) as Hat
        by (unfold Environment.at_; rewrite Ha; reflexivity);
      rewrite Hat;
      eexists; split; [apply list_lookup_insert_eq; eapply lookup_lt_Some; eauto|];
      simpl; destruct (decide (name = x)) as [->|];
      [rewrite lookup_insert_eq; eauto | rewrite lookup_insert_ne by assumption; assumption]
    | exists env; rewrite list_lookup_insert_ne by congruence; auto ].
Qed.

(** No statement and no expression removes a binding. *)
Lemma keeps_bindings_respects_writes : respects_writes keeps_bindings.
Proof.
  split; unfold keeps_bindings; simpl; eauto.
  - intros a b c Hab Hbc i env x Hi Hx.
    destruct (Hab i env x Hi Hx) as (env' & Hi' & Hx'). eauto.
  - intros st name w c h Hd a env x Ha Hx. unfold Environment.define in Hd.
    destruct (Environment.has _ name); [discriminate|]. injection Hd as <-.
    destruct (decide (a = Interpreter.environment st)) as [->|Hne].
    + assert (Environment.at_ (Interpreter.heap st) (Interpreter.environment st) = env) as Hat
        by (unfold Environment.at_; rewrite Ha; reflexivity).
      rewrite Hat.
      eexists; split; [apply list_lookup_insert_eq; eapply lookup_lt_Some; eauto|].
      simpl. destruct (decide (name = x)) as [->|].
      * rewrite lookup_insert_eq. eauto.
      * rewrite lookup_insert_ne by assumption. assumption.
    + exists env. rewrite list_lookup_insert_ne by congruence. auto.
  - intros st name w h Hassign a env x Ha Hx. eapply assign_keeps_bindings; eauto.
  - intros st p a env x Ha Hx. exists env.
    rewrite lookup_app_l by (eapply lookup_lt_Some; eauto). auto.
Qed.

(** The defect of C2 in general: whenever the range admits a second turn and
    the first turn of the body completes in the environment of the loop, the
    second turn throws, because [define] finds the loop variable bound. *)
Lemma second_turn_of_a_range_loop_throws Math_pow fuel variable iterable body position
    st bound st1 st2 :
  Interpreter.visitExpression Math_pow (S (S fuel)) iterable st =
    Interpreter.Ok (VRange bound) st1 ->
  PrimFloat.ltb 0 bound = true ->
  PrimFloat.ltb (0 + 1) bound = true ->
  Interpreter.run Math_pow (S (S fuel)) body (firstTurn variable st1) =
    Interpreter.Ok tt st2 ->
  Interpreter.environment st2 = length (Interpreter.heap st1) ->
  Interpreter.visitStatement Math_pow (S (S (S fuel)))
    (ForLoop variable iterable body position) st =
    Interpreter.Throw (Error ("Variable '" ++ variable ++ "' already defined")%string)
      (Interpreter.with_environment (Interpreter.environment st1) st2).
Proof.
  intros Hit H0 H1 Hbody Henv.
  change (Interpreter.visitStatement Math_pow (S (S (S fuel)))
            (ForLoop variable iterable body position) st)
    with (Interpreter.visitForLoop (S (S fuel))
            (Interpreter.visitStatement Math_pow (S (S fuel)))
            (Interpreter.visitExpression Math_pow (S (S fuel))) variable iterable body st).
  unfold Interpreter.visitForLoop. unfold Interpreter.bind at 1. rewrite Hit.
  unfold Interpreter.finally. unfold Interpreter.bind at 1. unfold Interpreter.enter.
  cbn [Interpreter.forTurns]. rewrite H0.
  unfold Interpreter.bind at 1. unfold Interpreter.onHeap at 1.
  cbn [Interpreter.environment Interpreter.with_environment Interpreter.with_heap
       Interpreter.heap].
  unfold Environment.define at 1. rewrite at_last.
  unfold Environment.has at 1. cbn [Environment.values Environment.new].
  rewrite lookup_empty.
  rewrite bool_decide_eq_false_2 by (intros [? ?]; discriminate).
  rewrite insert_last. cbn [Environment.constants Environment.parent Environment.new].
  unfold Interpreter.bind at 1.
  change (Interpreter.visitStatements (Interpreter.visitStatement Math_pow (S (S fuel))) body)
    with (Interpreter.run Math_pow (S (S fuel)) body).
  replace (Interpreter.with_heap _ _) with (firstTurn variable st1)
    by (unfold firstTurn; rewrite insert_empty; reflexivity).
  rewrite Hbody. rewrite H1.
  unfold Interpreter.bind at 1. unfold Interpreter.onHeap at 1.
  unfold Environment.define at 1. rewrite Henv.
  pose proof (run_respects Math_pow keeps_bindings (S (S fuel)) body
                keeps_bindings_respects_writes (firstTurn variable st1)) as Hrel.
  rewrite Hbody in Hrel. simpl in Hrel.
  destruct (Hrel (length (Interpreter.heap st1))
              {| Environment.values := {[variable := VNumber 0]};
                 Environment.constants := ∅;
                 Environment.parent := Some (Interpreter.environment st1) |} variable)
    as (env' & Ha' & Hx').
  { unfold firstTurn. simpl. rewrite lookup_app_r by lia.
    replace (length (Interpreter.heap st1) - length (Interpreter.heap st1)) with 0 by lia.
    reflexivity. }
  { simpl. rewrite lookup_singleton_eq. eauto. }
  unfold Environment.has, Environment.at_. rewrite Ha'. simpl.
  rewrite bool_decide_eq_true_2 by exact Hx'. reflexivity.
Qed.

(** The loop of scenario B by that lemma: the first turn prints 0 and
    completes, the second throws. *)
Lemma range_loop_throws_at_its_second_turn :
  exists st2,
    Interpreter.visitStatement Examples.pow 5 Examples.range_loop (Interpreter.new None) =
      Interpreter.Throw (Error "Variable 'i' already defined")
        (Interpreter.with_environment 0 st2) /\
    Interpreter.output st2 = ["0"%string].
Proof.
  eexists. split.
  - unfold Examples.range_loop.
    change "Variable 'i' already defined"%string
      with ("Variable '" ++ "i" ++ "' already defined")%string.
    apply (second_turn_of_a_range_loop_throws Examples.pow 2 "i" _ _ _
             (Interpreter.new None) 3%float (Interpreter.new None));
      vm_compute; reflexivity.
  - vm_compute. reflexivity.
Qed.

(** ** C3: indentation *)

(** C3, evaluated on the code at a block followed by a line that is not
    indented: [scanToken] looks at indentation only when a line begins with a
    blank, so no DEDENT stands before the second LIKHO; the only DEDENT is the
    one [tokenize] adds at the end of the input. The parser therefore reads
    [likho 2] as part of the block, and the run prints nothing. *)
Theorem no_dedent_before_an_unindented_line Math_pow fuel :
  2 <= fuel ->
  Examples.kinds (Lexer.tokenize Examples.dedentToZero) =
    Some [AGAR; JHOOTH; COLON; NEWLINE; INDENT; LIKHO; NUMBER; NEWLINE;
          LIKHO; NUMBER; DEDENT; EOF] /\
  shown (App.executeCode Math_pow fuel Examples.dedentToZero) =
    Some {| result_output := []; result_error := None |}.
Proof.
  intros Hle. split; [vm_compute; reflexivity|]. unfold App.executeCode.
  apply (submit_extends Math_pow 2 fuel _ _ _ Hle). vm_compute. reflexivity.
Qed.

(** The block and the unindented line as [executeCode] runs them. *)
Lemma unindented_line_after_a_block :
  Examples.kinds (Lexer.tokenize Examples.dedentToZero) =
    Some [AGAR; JHOOTH; COLON; NEWLINE; INDENT; LIKHO; NUMBER; NEWLINE;
          LIKHO; NUMBER; DEDENT; EOF] /\
  shown (App.executeCode Examples.pow 10 Examples.dedentToZero) =
    Some {| result_output := []; result_error := None |}.
Proof. apply (no_dedent_before_an_unindented_line Examples.pow 10). lia. Defined.

Lemma structure_free_refl lx : structure_free lx lx.
Proof. split; [reflexivity|]. exists []. rewrite app_nil_r. auto. Qed.

Lemma structure_free_trans a b c :
  structure_free a b -> structure_free b c -> structure_free a c.
Proof.
  intros [Hs1 (x & Ht1 & Hx)] [Hs2 (y & Ht2 & Hy)]. split; [congruence|].
  exists (x ++ y). rewrite Ht2, Ht1, app_assoc. split; [reflexivity|].
  apply Forall_app; auto.
Qed.

Lemma structure_free_addToken ty v lx :
  ty <> DEDENT -> ty <> INDENT -> structure_free lx (Lexer.addToken ty v lx).
Proof.
  intros H1 H2. split; [reflexivity|]. eexists. split; [reflexivity|].
  repeat constructor; assumption.
Qed.

Lemma structure_free_advance lx : structure_free lx (snd (Lexer.advance lx)).
Proof. split; [reflexivity|]. exists []. simpl. rewrite app_nil_r. auto. Qed.

Lemma structure_free_match expected lx : structure_free lx (snd (Lexer.match_ expected lx)).
Proof.
  unfold Lexer.match_. destruct (Lexer.isAtEnd lx); [apply structure_free_refl|].
  destruct (JS.charAt _ _) as [c|]; [|apply structure_free_refl].
  destruct (Ascii.eqb c expected); [|apply structure_free_refl].
  split; [reflexivity|]. exists []. simpl. rewrite app_nil_r. auto.
Qed.

Lemma structure_free_advanceWhile cond fuel : forall lx,
  structure_free lx (Lexer.advanceWhile cond fuel lx).
Proof.
  induction fuel as [|f IH]; intros lx; simpl; [apply structure_free_refl|].
  destruct (cond lx); [|apply structure_free_refl].
  eapply structure_free_trans; [apply structure_free_advance | apply IH].
Qed.

Lemma structure_free_stringBody fuel : forall lx,
  structure_free lx (Lexer.stringBody fuel lx).
Proof.
  induction fuel as [|f IH]; intros lx; simpl; [apply structure_free_refl|].
  destruct (_ && _); [|apply structure_free_refl].
  eapply structure_free_trans; [|apply IH].
  destruct (Ascii.eqb _ _); split; try reflexivity; exists []; simpl;
    rewrite app_nil_r; auto.
Qed.

Lemma structure_free_with_position lx c k :
  structure_free lx (Lexer.with_column c (Lexer.with_current k lx)).
Proof. split; [reflexivity|]. exists []. simpl. rewrite app_nil_r. auto. Qed.

Lemma structure_free_compound second ty merged lx :
  ty <> DEDENT -> ty <> INDENT ->
  structure_free lx (snd (Lexer.compound second ty merged lx)) /\
  forall lx', fst (Lexer.compound second ty merged lx) = Some lx' -> structure_free lx lx'.
Proof.
  intros H1 H2. unfold Lexer.compound.
  destruct (String.eqb _ _); simpl; split.
  - eapply structure_free_trans; [apply structure_free_advance|].
    apply structure_free_with_position.
  - intros lx' [= <-].
    eapply structure_free_trans; [apply structure_free_advance|].
    eapply structure_free_trans; [apply structure_free_with_position|].
    apply structure_free_addToken; assumption.
  - eapply structure_free_trans; [apply structure_free_advance|].
    apply structure_free_with_position.
  - discriminate.
Qed.

Lemma keywords_are_not_structural text ty :
  Lexer.keywords text = Some ty -> ty <> DEDENT /\ ty <> INDENT.
Proof.
  unfold Lexer.keywords.
  repeat match goal with
         | |- context [if ?b then _ else _] => destruct b
         end; intros [= <-]; split; discriminate.
Qed.

Lemma structure_free_identifier lx : structure_free lx (Lexer.identifier lx).
Proof.
  unfold Lexer.identifier.
  set (lx1 := Lexer.advanceWhile _ _ lx).
  assert (structure_free lx lx1) as H1 by apply structure_free_advanceWhile.
  set (text := JS.substring _ _ _).
  destruct (String.eqb text "jab" && Ascii.eqb (Lexer.peek lx1) " ").
  - pose proof (structure_free_compound "tak" JAB_TAK "jab tak" lx1
                  ltac:(discriminate) ltac:(discriminate)) as [Hs Hf].
    destruct (Lexer.compound "tak" JAB_TAK "jab tak" lx1) as [[lx'|] lx2]; simpl in *.
    + eapply structure_free_trans; [exact H1 | apply Hf; reflexivity].
    + assert (structure_free lx lx2) as H2 by (eapply structure_free_trans; eauto).
      destruct (String.eqb text "ka" && Ascii.eqb (Lexer.peek lx2) " ").
      * pose proof (structure_free_compound "system" KA_SYSTEM "ka system" lx2
                      ltac:(discriminate) ltac:(discriminate)) as [Hs' Hf'].
        destruct (Lexer.compound "system" KA_SYSTEM "ka system" lx2) as [[lx'|] lx3];
          simpl in *.
        -- eapply structure_free_trans; [exact H2 | apply Hf'; reflexivity].
        -- eapply structure_free_trans; [eapply structure_free_trans; eauto|].
           destruct (Lexer.keywords text) as [ty|] eqn:E; simpl.
           ++ apply keywords_are_not_structural in E as [? ?].
              apply structure_free_addToken; assumption.
           ++ apply structure_free_addToken; discriminate.
      * eapply structure_free_trans; [exact H2|].
        destruct (Lexer.keywords text) as [ty|] eqn:E; simpl.
        -- apply keywords_are_not_structural in E as [? ?].
           apply structure_free_addToken; assumption.
        -- apply structure_free_addToken; discriminate.
  - destruct (String.eqb text "ka" && Ascii.eqb (Lexer.peek lx1) " ").
    + pose proof (structure_free_compound "system" KA_SYSTEM "ka system" lx1
                    ltac:(discriminate) ltac:(discriminate)) as [Hs' Hf'].
      destruct (Lexer.compound "system" KA_SYSTEM "ka system" lx1) as [[lx'|] lx3];
        simpl in *.
      * eapply structure_free_trans; [exact H1 | apply Hf'; reflexivity].
      * eapply structure_free_trans; [eapply structure_free_trans; eauto|].
        destruct (Lexer.keywords text) as [ty|] eqn:E; simpl.
        -- apply keywords_are_not_structural in E as [? ?].
           apply structure_free_addToken; assumption.
        -- apply structure_free_addToken; discriminate.
    + eapply structure_free_trans; [exact H1|].
      destruct (Lexer.keywords text) as [ty|] eqn:E; simpl.
      * apply keywords_are_not_structural in E as [? ?].
        apply structure_free_addToken; assumption.
      * apply structure_free_addToken; discriminate.
Qed.

Lemma structure_free_number lx : structure_free lx (Lexer.number lx).
Proof.
  unfold Lexer.number.
  eapply structure_free_trans; [|apply structure_free_addToken; discriminate].
  eapply structure_free_trans; [apply structure_free_advanceWhile|].
  destruct (_ && _); [|apply structure_free_refl].
  eapply structure_free_trans; [apply structure_free_advance|].
  apply structure_free_advanceWhile.
Qed.

Lemma structure_free_string lx lx' :
  Lexer.string_ lx = Lexer.Ok lx' -> structure_free lx lx'.
Proof.
  unfold Lexer.string_. cbv zeta.
  pose proof (structure_free_stringBody (Lexer.remaining lx) lx) as Hbody.
  set (lx1 := Lexer.stringBody (Lexer.remaining lx) lx) in *.
  destruct (Lexer.isAtEnd lx1); [discriminate|]. intros H. injection H as <-.
  eapply structure_free_trans; [exact Hbody|].
  eapply structure_free_trans; [apply structure_free_advance|].
  apply structure_free_addToken; discriminate.
Qed.

Lemma structure_free_oneOrTwo second two twoText one oneText lx :
  two <> DEDENT -> two <> INDENT -> one <> DEDENT -> one <> INDENT ->
  structure_free lx (Lexer.oneOrTwo second two twoText one oneText lx).
Proof.
  intros. unfold Lexer.oneOrTwo.
  pose proof (structure_free_match second lx) as Hm.
  destruct (Lexer.match_ second lx) as [[] lx1]; simpl in Hm;
    (eapply structure_free_trans; [exact Hm | apply structure_free_addToken; assumption]).
Qed.

(** The defect of C3 in general: [scanToken] on a character that is not a
    blank, a tab or a carriage return never pops the indent stack and never
    emits DEDENT, whatever the stack holds; and the first character of a line
    of indent width zero is such a character. *)
Lemma unindented_line_pops_nothing lx lx' c :
  JS.charAt (Lexer.source lx) (Lexer.current lx) = Some c ->
  c <> " "%char -> c <> JS.CR -> c <> JS.TAB ->
  Lexer.scanToken lx = Lexer.Ok lx' ->
  structure_free lx lx'.
Proof.
  intros Hc Hsp Hcr Htab. unfold Lexer.scanToken, Lexer.advance. rewrite Hc.
  cbv beta iota zeta. unfold Lexer.charIs.
  rewrite (proj2 (Ascii.eqb_neq c " ") Hsp), (proj2 (Ascii.eqb_neq c JS.CR) Hcr),
    (proj2 (Ascii.eqb_neq c JS.TAB) Htab). cbn [orb].
  set (lx0 := Lexer.with_current _ _).
  assert (structure_free lx lx0) as H0.
  { split; [reflexivity|]. exists []. simpl. rewrite app_nil_r. auto. }
  repeat match goal with
         | |- context [if Ascii.eqb c ?x then _ else _] => destruct (Ascii.eqb c x)
         end;
    try (intros H; apply lexer_Ok_inj in H; subst lx'; eapply structure_free_trans; [exact H0|];
         first [ apply structure_free_addToken; discriminate
               | apply structure_free_oneOrTwo; discriminate
               | apply structure_free_advanceWhile ]).
  - pose proof (structure_free_match "=" lx0) as Hm.
    destruct (Lexer.match_ "=" lx0) as [[] lx1]; simpl in Hm; [|discriminate].
    intros H; apply lexer_Ok_inj in H; subst lx'. eapply structure_free_trans; [exact H0|].
    eapply structure_free_trans; [exact Hm | apply structure_free_addToken; discriminate].
  - intros H. eapply structure_free_trans; [exact H0 | apply structure_free_string; exact H].
  - destruct (Lexer.isDigit c).
    + intros H; apply lexer_Ok_inj in H; subst lx'. eapply structure_free_trans; [exact H0 | apply structure_free_number].
    + destruct (Lexer.isAlpha c); [|discriminate].
      intros H; apply lexer_Ok_inj in H; subst lx'. eapply structure_free_trans; [exact H0 | apply structure_free_identifier].
Qed.

(** When [handleIndentation] is reached it does what C3 says: its loop pops
    [k] widths off the indent stack and adds exactly [k] tokens, all DEDENT;
    it stops ([popIndents_exits]) when one width is left or the top is not
    above the new indent, and [handleIndentation] then throws unless the top
    is the new indent. *)
Lemma popIndents_one_dedent_per_pop fuel indent : forall lx,
  exists k added,
    length (Lexer.indentStack (Lexer.popIndents fuel indent lx)) + k =
      length (Lexer.indentStack lx) /\
    Lexer.indentStack (Lexer.popIndents fuel indent lx) `prefix_of` Lexer.indentStack lx /\
    Lexer.tokens (Lexer.popIndents fuel indent lx) = Lexer.tokens lx ++ added /\
    map type added = replicate k DEDENT.
Proof.
  induction fuel as [|f IH]; intros lx; simpl.
  - exists 0, []. rewrite app_nil_r. repeat split; [lia | reflexivity].
  - destruct ((1 <? length (Lexer.indentStack lx))%nat && _) eqn:E.
    + apply andb_true_iff in E as [E _]. apply Nat.ltb_lt in E.
      match goal with |- context [Lexer.popIndents f indent ?l] =>
        destruct (IH l) as (k & added & H1 & H2 & H3 & H4) end.
      simpl in H1, H2, H3. rewrite length_removelast in H1.
      eexists (S k), (_ :: added). split; [lia|]. split; [|split].
      * etransitivity; [exact H2|].
        exists [List.last (Lexer.indentStack lx) 0]. apply app_removelast_last.
        intros Hnil. rewrite Hnil in E. simpl in E. lia.
      * rewrite H3, <- app_assoc. reflexivity.
      * simpl. rewrite H4. reflexivity.
    + exists 0, []. rewrite app_nil_r. repeat split; [lia | reflexivity].
Qed.

Lemma handleIndentation_throws_on_an_unknown_width lx :
  let lx0 := Lexer.with_current (Lexer.current lx - 1) lx in
  let counted := Lexer.countIndent (Lexer.remaining lx0) 0 lx0 in
  let popped := Lexer.popIndents (length (Lexer.indentStack (snd counted)))
                  (fst counted) (snd counted) in
  (fst counted < List.last (Lexer.indentStack (snd counted)) 0)%nat ->
  List.last (Lexer.indentStack popped) 0 <> fst counted ->
  Lexer.handleIndentation lx =
    Lexer.Throw (SyntaxError "Indentation error" (Lexer.line popped) (Lexer.column lx)).
Proof.
  intros lx0 counted popped Hlt Hne. unfold Lexer.handleIndentation. cbv zeta.
  fold lx0. fold counted. unfold popped in *. clearbody counted.
  destruct counted as [indent lx1]. cbn [fst snd] in *.
  rewrite (proj2 (Nat.ltb_ge _ _)) by lia.
  rewrite (proj2 (Nat.ltb_lt _ _) Hlt).
  rewrite (proj2 (Nat.eqb_neq _ _) Hne). reflexivity.
Qed.

(** The path through [handleIndentation] does emit the DEDENT: a line that
    begins with blanks and is indented less than the block before it. *)
Lemma dedent_to_a_nonzero_width_is_emitted :
  Examples.kinds
    (Lexer.tokenize
       (Examples.source ["agar sach:"; "    agar sach:"; "        likho 1"; "    likho 2"])) =
    Some [AGAR; SACH; COLON; NEWLINE; INDENT; AGAR; SACH; COLON; NEWLINE; INDENT;
          LIKHO; NUMBER; NEWLINE; DEDENT; LIKHO; NUMBER; DEDENT; EOF].
Proof. vm_compute. reflexivity. Qed.

(** A width that was never pushed is an indentation error. *)
Lemma dedent_to_an_unknown_width_is_an_error :
  Lexer.tokenize (Examples.source ["agar sach:"; "        likho 1"; "    likho 2"]) =
    Lexer.Failed (SyntaxError "Indentation error" 3 2).
Proof. vm_compute. reflexivity. Qed.

(** ** C4: the conditional with an else branch *)

(** C4, evaluated on the code at scenario C: no DEDENT precedes [warna], so
    the block of the then-branch reaches it, and the parser throws. Nothing
    is interpreted, so neither the host nor the bound of the model matters. *)
Theorem scenario_C_is_rejected_by_the_parser Math_pow fuel :
  App.executeCode Math_pow fuel Examples.scenarioC =
    App.ParseThrew (SyntaxError "Expected expression" 3 1).
Proof. vm_compute. reflexivity. Qed.

(** ** C5: input text *)

Lemma white_space_starts_no_literal c s :
  JS.is_white_space c = true -> JS.scan_literal (String c s) = None.
Proof.
  destruct c as [[] [] [] [] [] [] [] []]; intros H; try discriminate H; reflexivity.
Qed.

Lemma literal_needs_no_trim s v r :
  JS.scan_literal s = Some (v, r) -> JS.trim_start s = s.
Proof.
  destruct s as [|c s]; [reflexivity|]. simpl JS.trim_start.
  destruct (JS.is_white_space c) eqn:E; [|reflexivity].
  rewrite white_space_starts_no_literal by exact E. discriminate.
Qed.




(** Texts that stay strings: no literal at the head, or one whose value is
    not finite. *)
Lemma texts_kept_as_strings :
  let ask text :=
    Interpreter.visitExpression Examples.pow 1 (InputStatement "?" Examples.at11)
      (Interpreter.new (Some (fun _ _ => text))) in
  (exists st, ask "abc" = Interpreter.Ok (VString "abc") st) /\
  (exists st, ask "" = Interpreter.Ok (VString "") st) /\
  (exists st, ask "Infinity" = Interpreter.Ok (VString "Infinity") st) /\
  (exists st, ask "1e999" = Interpreter.Ok (VString "1e999") st).
Proof. repeat split; eexists; vm_compute; reflexivity. Qed.

(** ** C6: the while loop *)

(** [visitStatement] on a loop is the loop's turns. *)
Lemma visit_while Math_pow fuel condition body position st :
  Interpreter.visitStatement Math_pow (S fuel) (WhileLoop condition body position) st =
  Interpreter.whileTurns (Interpreter.visitStatement Math_pow fuel)
    (Interpreter.visitExpression Math_pow fuel) fuel condition body st.
Proof. reflexivity. Qed.

(** C6: a turn of the loop first evaluates the condition in the interpreter
    as it then is. When the value is falsy the loop ends. When it is truthy
    the body runs: if it completes, the next turn starts from the state it
    left (so the condition is evaluated again); if it throws anything but a
    [ReturnException], the loop ends normally in the state at the throw and
    whatever follows the loop runs from there; a [ReturnException] leaves the
    loop unchanged. An error in the condition itself is not caught. *)
Theorem while_loop_policy Math_pow fuel turns condition body st :
  let loop := Interpreter.whileTurns (Interpreter.visitStatement Math_pow fuel)
                (Interpreter.visitExpression Math_pow fuel) in
  (forall c st1,
     Interpreter.visitExpression Math_pow fuel condition st = Interpreter.Ok c st1 ->
     Interpreter.isTruthy c = false ->
     loop (S turns) condition body st = Interpreter.Ok tt st1) /\
  (forall c st1 st2,
     Interpreter.visitExpression Math_pow fuel condition st = Interpreter.Ok c st1 ->
     Interpreter.isTruthy c = true ->
     Interpreter.run Math_pow fuel body st1 = Interpreter.Ok tt st2 ->
     loop (S turns) condition body st = loop turns condition body st2) /\
  (forall c st1 e st2,
     Interpreter.visitExpression Math_pow fuel condition st = Interpreter.Ok c st1 ->
     Interpreter.isTruthy c = true ->
     Interpreter.run Math_pow fuel body st1 = Interpreter.Throw e st2 ->
     (forall v, e <> ReturnException v) ->
     loop (S turns) condition body st = Interpreter.Ok tt st2) /\
  (forall c st1 v st2,
     Interpreter.visitExpression Math_pow fuel condition st = Interpreter.Ok c st1 ->
     Interpreter.isTruthy c = true ->
     Interpreter.run Math_pow fuel body st1 = Interpreter.Throw (ReturnException v) st2 ->
     loop (S turns) condition body st = Interpreter.Throw (ReturnException v) st2) /\
  (forall e st1,
     Interpreter.visitExpression Math_pow fuel condition st = Interpreter.Throw e st1 ->
     loop (S turns) condition body st = Interpreter.Throw e st1) /\
  (forall c st1 e st2 position rest,
     Interpreter.visitExpression Math_pow fuel condition st = Interpreter.Ok c st1 ->
     Interpreter.isTruthy c = true ->
     Interpreter.run Math_pow fuel body st1 = Interpreter.Throw e st2 ->
     (forall v, e <> ReturnException v) ->
     Interpreter.run Math_pow (S fuel) (WhileLoop condition body position :: rest) st =
     Interpreter.run Math_pow (S fuel) rest st2).
Proof.
  intros loop.
  assert (forall c st1 e st2,
     Interpreter.visitExpression Math_pow fuel condition st = Interpreter.Ok c st1 ->
     Interpreter.isTruthy c = true ->
     Interpreter.run Math_pow fuel body st1 = Interpreter.Throw e st2 ->
     (forall v, e <> ReturnException v) ->
     forall n, loop (S n) condition body st = Interpreter.Ok tt st2) as Hswallow.
  { intros c st1 e st2 Hc Ht Hb Hne n. unfold loop. simpl.
    unfold Interpreter.bind, Interpreter.run in *. rewrite Hc, Ht, Hb.
    destruct e; try reflexivity. exfalso. eapply Hne. reflexivity. }
  assert (forall c st1 e st2 position rest,
     Interpreter.visitExpression Math_pow fuel condition st = Interpreter.Ok c st1 ->
     Interpreter.isTruthy c = true ->
     Interpreter.run Math_pow fuel body st1 = Interpreter.Throw e st2 ->
     (forall v, e <> ReturnException v) ->
     Interpreter.run Math_pow (S fuel) (WhileLoop condition body position :: rest) st =
     Interpreter.run Math_pow (S fuel) rest st2) as Hresume.
  { intros c st1 e st2 position rest Hc Ht Hb Hne.
    destruct fuel as [|f]; [discriminate Hc|].
    unfold Interpreter.run at 1. cbn [Interpreter.visitStatements].
    unfold Interpreter.bind at 1. rewrite visit_while.
    fold loop. rewrite (Hswallow c st1 e st2 Hc Ht Hb Hne f). reflexivity. }
  unfold loop in *. simpl. unfold Interpreter.bind, Interpreter.run in *.
  repeat apply conj.
  - intros c st1 Hc Hf. rewrite Hc, Hf. reflexivity.
  - intros c st1 st2 Hc Ht Hb. rewrite Hc, Ht, Hb. reflexivity.
  - intros c st1 e st2 Hc Ht Hb Hne. exact (Hswallow c st1 e st2 Hc Ht Hb Hne turns).
  - intros c st1 v st2 Hc Ht Hb. rewrite Hc, Ht, Hb. reflexivity.
  - intros e st1 Hc. rewrite Hc. reflexivity.
  - exact Hresume.
Qed.

(** The theorem at the loop of [Examples.errorInLoop]: the body divides by
    zero, and the loop ends normally. *)
Lemma loop_swallows_division_by_zero :
  let divide :=
    PrintStatement
      (BinaryExpression (Literal (LNumber 1) Examples.at11) "/"
         (Literal (LNumber 0) Examples.at11) Examples.at11) Examples.at11 in
  let st := Interpreter.new None in
  Interpreter.run Examples.pow 3 [divide] st = Interpreter.Throw (Error "Division by zero") st /\
  Interpreter.whileTurns (Interpreter.visitStatement Examples.pow 3)
    (Interpreter.visitExpression Examples.pow 3) 1
    (Literal (LBoolean true) Examples.at11) [divide] st = Interpreter.Ok tt st.
Proof.
  intros divide st. split; [vm_compute; reflexivity|].
  refine (proj1 (proj2 (proj2 (while_loop_policy Examples.pow 3 0
                                 (Literal (LBoolean true) Examples.at11) [divide] st)))
            (VBoolean true) st (Error "Division by zero") st _ _ _ _).
  - vm_compute. reflexivity.
  - reflexivity.
  - vm_compute. reflexivity.
  - discriminate.
Defined.

(** A return inside a loop leaves the loop and ends the call around it. *)
Lemma return_leaves_the_loop :
  let f := FunctionDeclaration "f" []
             [WhileLoop (Literal (LBoolean true) Examples.at11)
                [ReturnStatement (Some (Literal (LNumber 9) Examples.at11)) Examples.at11]
                Examples.at11;
              PrintStatement (Literal (LString "not reached") Examples.at11) Examples.at11]
             system_style Examples.at11 in
  let call := PrintStatement (CallExpression (Some "f") [] Examples.at11) Examples.at11 in
  returned (Interpreter.interpret Examples.pow 10
              {| program_body := [f; call]; program_position := Examples.at11 |}
              (Interpreter.new None)) =
    Some {| result_output := ["9"]; result_error := None |}.
Proof. vm_compute. reflexivity. Qed.

(** The condition is evaluated again before every turn. *)
Lemma while_counts_to_three :
  shown (App.executeCode Examples.pow 20 Examples.whileCounting) =
    Some {| result_output := ["0"; "1"; "2"]; result_error := None |}.
Proof. vm_compute. reflexivity. Qed.


(** ** C7: constants *)

Lemma assign_meets_constant h X v self :
  resolves_to_constant h X self ->
  forall fuel, self <= fuel ->
  Environment.assign_from fuel h self X v =
    inl (Error ("Cannot reassign constant '" ++ X ++ "'")%string).
Proof.
  induction 1 as [self Hc|self p Hnc Hnv Hp Hlt _ IH]; intros fuel Hfuel.
  - destruct fuel; simpl; rewrite bool_decide_eq_true_2 by exact Hc; reflexivity.
  - destruct fuel as [|fuel]; [lia|]. simpl.
    rewrite bool_decide_eq_false_2 by exact Hnc.
    unfold Environment.has. rewrite Hnv.
    rewrite bool_decide_eq_false_2 by (intros [? ?]; discriminate).
    rewrite Hp. apply IH. lia.
Qed.

Lemma define_keeps_constant h h' self name w c a X v :
  Environment.define self name w c h = inr h' ->
  holds_constant h a X v -> holds_constant h' a X v.
Proof.
  unfold Environment.define. intros Hd (env & Ha & Hc & Hv).
  destruct (Environment.has _ name) eqn:Hhas; [discriminate|].
  injection Hd as <-.
  destruct (decide (a = self)) as [->|Hne].
  - assert (Environment.at_ h self = env) as Hat
      by (unfold Environment.at_; rewrite Ha; reflexivity).
    rewrite Hat in *.
    assert (name <> X) as Hname.
    { intros ->. unfold Environment.has in Hhas. rewrite Hv in Hhas.
      rewrite bool_decide_eq_true_2 in Hhas by eauto. discriminate. }
    eexists. split; [apply list_lookup_insert_eq; eapply lookup_lt_Some; eauto|].
    simpl. split.
    + destruct c; [set_solver | assumption].
    + rewrite lookup_insert_ne by exact Hname. assumption.
  - exists env. rewrite list_lookup_insert_ne by congruence. auto.
Qed.

Lemma assign_keeps_constant h h' fuel self name w a X v :
  Environment.assign_from fuel h self name w = inr h' ->
  holds_constant h a X v -> holds_constant h' a X v.
Proof.
  revert self. induction fuel as [|fuel IH]; intros self Hassign (env & Ha & Hc & Hv);
    simpl in Hassign;
    destruct (bool_decide (name ∈ Environment.constants (Environment.at_ h self))) eqn:Hconst;
    try discriminate;
    destruct (Environment.has (Environment.at_ h self) name) eqn:Hhas.
  all: try (destruct (Environment.parent (Environment.at_ h self)); discriminate).
  all: try (destruct (Environment.parent (Environment.at_ h self)) as [p|];
            [eapply IH; [eassumption | exists env; auto] | discriminate]).
  all: injection Hassign as <-;
    destruct (decide (a = self)) as [->|Hne];
    [ assert (Environment.at_ h self = env) as Hat
        by (unfold Environment.at_; rewrite Ha; reflexivity);
      rewrite Hat in *;
      assert (name <> X) as Hname
        by (intros ->; apply bool_decide_eq_false in Hconst; contradiction);
      eexists; split; [apply list_lookup_insert_eq; eapply lookup_lt_Some; eauto|];
      simpl; split; [assumption | rewrite lookup_insert_ne by exact Hname; assumption]
    | exists env; rewrite list_lookup_insert_ne by congruence; auto ].
Qed.

(** Once an environment holds a constant, it holds it, with the same value,
    after any statement or expression, whether that returns or throws. *)
Lemma keeps_constant_respects_writes a X v : respects_writes (keeps_constant a X v).
Proof.
  split; unfold keeps_constant; simpl; auto.
  - intros st name w c h Hd. eapply define_keeps_constant; eauto.
  - intros st name w h Hassign. eapply assign_keeps_constant; eauto.
  - intros st p (env & Ha & Hc & Hv). exists env.
    rewrite lookup_app_l by (eapply lookup_lt_Some; eauto). auto.
Qed.

Lemma constants_are_permanent Math_pow a X v fuel :
  (forall s, Interpreter.preserves (keeps_constant a X v)
               (Interpreter.visitStatement Math_pow fuel s)) /\
  (forall e, Interpreter.preserves (keeps_constant a X v)
               (Interpreter.visitExpression Math_pow fuel e)).
Proof. apply visit_respects, keeps_constant_respects_writes. Qed.

(** Reading [X] in an environment that holds it gives its value. *)
Lemma constant_is_read h a X v :
  holds_constant h a X v -> Environment.get a X h = inr v.
Proof.
  intros (env & Ha & _ & Hv). unfold Environment.get.
  destruct a; simpl; unfold Environment.at_; rewrite Ha; simpl; rewrite Hv; reflexivity.
Qed.

(** C7, as stated, fails: in [Examples.constantAssignedInLoop] the constant
    is declared, the assignment to it executes in the body of a loop and
    throws, the loop swallows the error, and the run reports none. *)
Lemma constant_assigned_in_a_loop_reports_nothing :
  let assignment :=
    Assignment "X" (Literal (LNumber 2) {| pos_line := 3; pos_column := 10 |})
      {| pos_line := 3; pos_column := 6 |} in
  (exists declaration condition at_,
     Parser.parse <$> Examples.kinds_and_tokens Examples.constantAssignedInLoop =
       Some (Parser.Parsed
               {| program_body := [declaration; WhileLoop condition [assignment] at_];
                  program_position := Examples.at11 |}) /\
     exists st,
       Interpreter.run Examples.pow 10 [declaration] (Interpreter.new None) =
         Interpreter.Ok tt st /\
       Interpreter.visitStatement Examples.pow 10 assignment st =
         Interpreter.Throw (Error "Cannot reassign constant 'X'") st) /\
  shown (App.executeCode Examples.pow 10 Examples.constantAssignedInLoop) =
    Some {| result_output := []; result_error := None |}.
Proof.
  split.
  - do 3 eexists. split; [vm_compute; reflexivity|].
    eexists. split; vm_compute; reflexivity.
  - vm_compute. reflexivity.
Qed.

(** An error that a statement throws leaves every construct that holds the
    statement, up to the body of a loop [jab tak]: a block, a conditional, a
    loop over a range and a call pass it on, the last two after restoring
    their environment. *)
Section Propagation.
Import Interpreter.
Variable Math_pow : float -> float -> float.
Variable fuel0 : nat.
Variable s0 : Statement.
Variable st0 st1 : Interpreter.t.
Variable message : string.
Hypothesis Hs0 : visitStatement Math_pow fuel0 s0 st0 = Throw (Error message) st1.

Ltac propagate :=
  repeat (match goal with
          | H : ?x = _ |- context [?x] => rewrite H
          end; cbv beta iota zeta).

Lemma outside_loops_throws f place st st' :
  outside_loops Math_pow fuel0 s0 st0 st1 f place st st' ->
  throws Math_pow f place st (Error message) st'.
Proof.
  induction 1; cbn [throws] in *;
    cbn [visitStatement visitExpression visitStatementBody visitExpressionBody
         whileTurns forTurns visitStatements visitArguments];
    unfold run, visitVariableDeclaration, visitAssignment, visitIfStatement, visitWhileLoop,
      visitForLoop, visitReturnStatement, visitPrintStatement, visitBinaryExpression,
      visitUnaryExpression, visitCallExpression, finally, bind, lookup, enter in *;
    cbn [visitStatements visitArguments String.eqb Ascii.eqb Bool.eqb];
    propagate; rewrite ?Nat.eqb_refl; cbn [negb]; propagate; try reflexivity.
  - injection H0 as <-. rewrite IHoutside_loops. reflexivity.
  - unfold bind. rewrite IHoutside_loops. reflexivity.
  - unfold bind. rewrite H. exact IHoutside_loops.
Qed.

Lemma outside_loops_keeps f place st st' :
  outside_loops Math_pow fuel0 s0 st0 st1 f place st st' ->
  heap st' = heap st1 /\ output st' = output st1.
Proof. induction 1; simpl; auto. Qed.

End Propagation.

(** C7 (amended): when the value of an assignment to [X] has been evaluated
    and [X] resolves to a constant, the assignment throws an error whose
    message names the reassignment and writes nothing: the interpreter is the
    one the evaluation of the value left. The run reports that message
    wherever the assignment executes outside the body of a loop [jab tak]: as
    a statement of the program, in a branch of a conditional, in a loop over
    a range, in the body of a function that is called, however deep (inside
    the body of a loop [jab tak] the loop swallows it). The store is then the
    one the assignment left. A constant keeps its value through everything
    that runs afterwards, and reading it gives that value. *)
Theorem constant_reassignment_is_refused Math_pow fuel X e position st w st1 :
  Interpreter.visitExpression Math_pow fuel e st = Interpreter.Ok w st1 ->
  resolves_to_constant (Interpreter.heap st1) X (Interpreter.environment st1) ->
  let refusal := ("Cannot reassign constant '" ++ X ++ "'")%string in
  Interpreter.visitStatement Math_pow (S fuel) (Assignment X e position) st =
    Interpreter.Throw (Error refusal) st1 /\
  (forall pre post at_ st0,
     Interpreter.run Math_pow (S fuel) pre (Interpreter.with_output [] st0) =
       Interpreter.Ok tt st ->
     Interpreter.interpret Math_pow (S fuel)
       {| program_body := (pre ++ Assignment X e position :: post);
          program_position := at_ |} st0 =
     Some ({| result_output := Interpreter.output st1;
              result_error := Some refusal |}, st1)) /\
  (forall fuel' program st_start st',
     outside_loops Math_pow (S fuel) (Assignment X e position) st st1 fuel'
       (AtBlock (program_body program)) (Interpreter.with_output [] st_start) st' ->
     Interpreter.interpret Math_pow fuel' program st_start =
       Some ({| result_output := Interpreter.output st1;
                result_error := Some refusal |}, st') /\
     Interpreter.heap st' = Interpreter.heap st1) /\
  (forall a v,
     holds_constant (Interpreter.heap st1) a X v ->
     Environment.get a X (Interpreter.heap st1) = inr v /\
     forall fuel' later,
       match Interpreter.run Math_pow fuel' later st1 with
       | Interpreter.Ok _ st' | Interpreter.Throw _ st' =>
           holds_constant (Interpreter.heap st') a X v /\
           Environment.get a X (Interpreter.heap st') = inr v
       | Interpreter.OutOfFuel => True
       end).
Proof.
  intros He Hconst refusal.
  assert (Interpreter.visitStatement Math_pow (S fuel) (Assignment X e position) st =
            Interpreter.Throw (Error refusal) st1) as Hthrow.
  { simpl. unfold Interpreter.visitAssignment, Interpreter.bind. rewrite He.
    unfold Interpreter.onHeap, Environment.assign.
    rewrite (assign_meets_constant _ _ w _ Hconst) by reflexivity. reflexivity. }
  split; [exact Hthrow|]. split; [|split].
  - intros pre post at_ st0 Hpre.
    exact (proj1 (interpret_after_a_throw Math_pow (S fuel) pre (Assignment X e position)
                    post at_ st0 st (Error refusal) st1 Hpre Hthrow)).
  - intros fuel' program st_start st' Hplace.
    pose proof (outside_loops_throws Math_pow _ _ _ _ refusal Hthrow _ _ _ _ Hplace) as Hrun.
    destruct (outside_loops_keeps Math_pow _ _ _ _ _ _ _ _ Hplace) as [Hheap Houtput].
    cbn [throws] in Hrun. rewrite interpret_unfold, Hrun, Houtput.
    split; [reflexivity | exact Hheap].
  - intros a v Hholds. split; [apply constant_is_read; exact Hholds|].
    intros fuel' later.
    pose proof (run_respects Math_pow (keeps_constant a X v) fuel' later
                  (keeps_constant_respects_writes a X v) st1) as Hrel.
    destruct (Interpreter.run Math_pow fuel' later st1) as [[] st'|e' st'|]; simpl in Hrel;
      auto; split; auto using constant_is_read.
Qed.

(** The theorem at [sada X = 1] followed by [X = 2]: the run reports the
    refusal, and [X] still reads 1 afterwards. And at
    [MoreExamples.constantInFunction], where the assignment is the body of a
    function called from the branch of a conditional: the run reports the
    refusal as well. *)
Lemma constant_then_assignment :
  (Parser.parse <$> Examples.kinds_and_tokens Examples.constantThenAssignment =
     Some (Parser.Parsed Examples.constant_program) /\
   Interpreter.interpret Examples.pow 3 Examples.constant_program (Interpreter.new None) =
     Some ({| result_output := [];
              result_error := Some "Cannot reassign constant 'X'" |},
           Examples.after_constant_declaration) /\
   Environment.get 0 "X" (Interpreter.heap Examples.after_constant_declaration) =
     inr (VNumber 1)) /\
  (Parser.parse <$> Examples.kinds_and_tokens MoreExamples.constantInFunction =
     Some (Parser.Parsed MoreExamples.nested_program) /\
   Interpreter.interpret Examples.pow 6 MoreExamples.nested_program (Interpreter.new None) =
     Some ({| result_output := [];
              result_error := Some "Cannot reassign constant 'X'" |},
           Interpreter.with_environment 0 MoreExamples.in_the_nested_call)).
Proof.
  split.
  - split; [vm_compute; reflexivity|].
    assert (resolves_to_constant (Interpreter.heap Examples.after_constant_declaration) "X"
              (Interpreter.environment Examples.after_constant_declaration)) as Hconst.
    { apply constant_here. apply (bool_decide_eq_true_1 _). vm_compute. reflexivity. }
    destruct (constant_reassignment_is_refused Examples.pow 2 "X"
                (Literal (LNumber 2) {| pos_line := 2; pos_column := 5 |})
                {| pos_line := 2; pos_column := 1 |}
                Examples.after_constant_declaration (VNumber 2)
                Examples.after_constant_declaration eq_refl Hconst) as (_ & Hrun & _ & Hkeep).
    split.
    + apply (Hrun [Examples.constant_declaration] [] Examples.at11 (Interpreter.new None)).
      vm_compute. reflexivity.
    + apply (Hkeep 0 (VNumber 1)).
      eexists. split; [vm_compute; reflexivity|]. split; [|vm_compute; reflexivity].
      apply (bool_decide_eq_true_1 _). vm_compute. reflexivity.
  - split; [vm_compute; reflexivity|].
    assert (resolves_to_constant (Interpreter.heap MoreExamples.in_the_nested_call) "X"
              (Interpreter.environment MoreExamples.in_the_nested_call)) as Hconst.
    { apply (constant_above _ _ _ 0).
      - apply (bool_decide_eq_false_1 _). vm_compute. reflexivity.
      - vm_compute. reflexivity.
      - vm_compute. reflexivity.
      - vm_compute. apply le_n.
      - apply constant_here. apply (bool_decide_eq_true_1 _). vm_compute. reflexivity. }
    assert (Interpreter.visitExpression Examples.pow 2
              (Literal (LNumber 2) {| pos_line := 2; pos_column := 22 |})
              MoreExamples.in_the_nested_call =
            Interpreter.Ok (VNumber 2) MoreExamples.in_the_nested_call) as Hvalue
      by reflexivity.
    destruct (constant_reassignment_is_refused Examples.pow 2 "X"
                (Literal (LNumber 2) {| pos_line := 2; pos_column := 22 |})
                {| pos_line := 2; pos_column := 18 |}
                MoreExamples.in_the_nested_call (VNumber 2)
                MoreExamples.in_the_nested_call Hvalue Hconst) as (_ & _ & Hnested & _).
    destruct (Hnested 6 MoreExamples.nested_program (Interpreter.new None)
                (Interpreter.with_environment
                   (Interpreter.environment MoreExamples.after_nested_declarations)
                   MoreExamples.in_the_nested_call)) as [Hrun _].
    + apply (in_block_later _ _ _ _ _ _ _ _ _
               (match Interpreter.run Examples.pow 6 [Examples.constant_declaration]
                        (Interpreter.new None) with
                | Interpreter.Ok _ s => s
                | _ => Interpreter.new None
                end)); [vm_compute; reflexivity|].
      apply (in_block_later _ _ _ _ _ _ _ _ _ MoreExamples.after_nested_declarations);
        [vm_compute; reflexivity|].
      apply in_block_first.
      apply (in_then_branch _ _ _ _ _ _ _ _ _ _ _ (VBoolean true)
               MoreExamples.after_nested_declarations); [reflexivity | reflexivity|].
      apply in_block_first. apply in_expression_statement.
      apply (in_call_body _ _ _ _ _ _ _ _ _ _ MoreExamples.nested_function []
               MoreExamples.after_nested_declarations MoreExamples.in_the_nested_call);
        [reflexivity | vm_compute; reflexivity | reflexivity | reflexivity
        | vm_compute; reflexivity |].
      apply in_block_first. apply at_the_statement.
    + rewrite Hrun. vm_compute. reflexivity.
Defined.

(** ** C8: closures *)

(** The length of a chain does not depend on the fuel given, once it is
    enough. *)
Lemma get_from_enough h x :
  parents_come_first h ->
  forall fuel self, self <= fuel ->
  Environment.get_from fuel h self x = Environment.get_from self h self x.
Proof.
  intros Hwf fuel. induction fuel as [fuel IH] using lt_wf_ind. intros self Hle.
  destruct fuel as [|f], self as [|s]; try reflexivity; try lia; simpl.
  - destruct (Environment.values _ !! x); [reflexivity|].
    destruct (Environment.parent (Environment.at_ h 0)) as [p|] eqn:Hp; [|reflexivity].
    exfalso. unfold Environment.at_ in Hp.
    destruct (h !! 0) as [env|] eqn:E; simpl in Hp; [|discriminate].
    specialize (Hwf 0 env p E Hp). lia.
  - destruct (Environment.values _ !! x); [reflexivity|].
    destruct (Environment.parent (Environment.at_ h (S s))) as [p|] eqn:Hp; [|reflexivity].
    assert (p < S s) as Hlt.
    { unfold Environment.at_ in Hp.
      destruct (h !! S s) as [env|] eqn:E; simpl in Hp; [|discriminate].
      exact (Hwf (S s) env p E Hp). }
    rewrite (IH f) by lia. rewrite (IH s) by lia. reflexivity.
Qed.

(** Environments added to the store do not change what older ones resolve. *)
Lemma get_from_older h env x :
  parents_come_first h ->
  forall fuel self, self < length h ->
  Environment.get_from fuel (h ++ [env]) self x = Environment.get_from fuel h self x.
Proof.
  intros Hwf fuel. induction fuel as [|f IH]; intros self Hlt; simpl;
    rewrite at_before by exact Hlt;
    destruct (Environment.values _ !! x); try reflexivity;
    destruct (Environment.parent (Environment.at_ h self)) as [p|] eqn:Hp; try reflexivity.
  apply IH. unfold Environment.at_ in Hp.
  destruct (h !! self) as [e|] eqn:E; simpl in Hp; [|discriminate].
  specialize (Hwf self e p E Hp). lia.
Qed.

Lemma bindAll_other ps : forall vals m x,
  x ∉ ps -> bindAll ps vals m !! x = m !! x.
Proof.
  induction ps as [|p ps IH]; intros [|v vals] m x Hx; simpl; try reflexivity.
  rewrite IH by set_solver. apply lookup_insert_ne. set_solver.
Qed.

Lemma bindAll_parameter ps : forall vals m i p v,
  NoDup ps -> ps !! i = Some p -> vals !! i = Some v ->
  bindAll ps vals m !! p = Some v.
Proof.
  induction ps as [|q ps IH]; intros [|w vals] m i p v Hnd Hp Hv;
    try (destruct i; discriminate).
  apply NoDup_cons in Hnd as [Hq Hnd]. destruct i as [|i]; simpl in *.
  - injection Hp as ->. injection Hv as ->.
    rewrite bindAll_other by exact Hq. apply lookup_insert_eq.
  - eapply IH; eauto.
Qed.

(** Binding the parameters writes them into the environment just created
    and nowhere else. *)
Lemma bindParameters_fresh ps : forall vals h values0 constants0 parent0 st,
  Interpreter.heap st =
    h ++ [ {| Environment.values := values0; Environment.constants := constants0;
              Environment.parent := parent0 |} ] ->
  Interpreter.environment st = length h ->
  NoDup ps -> (forall p, p ∈ ps -> values0 !! p = None) ->
  length vals = length ps ->
  Interpreter.bindParameters ps vals st =
    Interpreter.Ok tt
      (Interpreter.with_heap
         (h ++ [ {| Environment.values := bindAll ps vals values0;
                    Environment.constants := constants0;
                    Environment.parent := parent0 |} ]) st).
Proof.
  induction ps as [|p ps IH]; intros [|v vals] h values0 constants0 parent0 st
    Hheap Henv Hnd Hfresh Hlen; try discriminate; simpl.
  - destruct st; simpl in *. subst. reflexivity.
  - apply NoDup_cons in Hnd as [Hp Hnd].
    unfold Interpreter.bind, Interpreter.onHeap, Environment.define.
    rewrite Henv, Hheap, at_last. unfold Environment.has. simpl.
    rewrite (Hfresh p) by set_solver.
    rewrite bool_decide_eq_false_2 by (intros [? ?]; discriminate).
    rewrite insert_last.
    erewrite IH; simpl; eauto.
    + intros q Hq. rewrite lookup_insert_ne by set_solver. apply Hfresh. set_solver.
Qed.

(** A declaration binds the name to a function object whose [closure] is
    the address of the environment that is current: the environment itself,
    not a copy of its bindings. *)
Lemma declaration_captures_the_current_environment Math_pow fuel name ps b style
    position st :
  Interpreter.environment st < length (Interpreter.heap st) ->
  Environment.values (Environment.at_ (Interpreter.heap st) (Interpreter.environment st))
    !! name = None ->
  exists st',
    Interpreter.visitStatement Math_pow (S fuel)
      (FunctionDeclaration name ps b style position) st = Interpreter.Ok tt st' /\
    Interpreter.environment st' = Interpreter.environment st /\
    Environment.get (Interpreter.environment st) name (Interpreter.heap st') =
      inr (VFunction {| identity := Interpreter.functionCount st; name := name;
                        parameters := ps; body := b;
                        closure := Interpreter.environment st |}).
Proof.
  intros Hvalid Hfree. simpl. unfold Interpreter.visitFunctionDeclaration,
    Interpreter.onHeap, Environment.define, Environment.has. simpl.
  rewrite Hfree. rewrite bool_decide_eq_false_2 by (intros [? ?]; discriminate).
  eexists. split; [reflexivity|]. split; [reflexivity|]. simpl.
  unfold Environment.get.
  destruct (Interpreter.environment st) as [|n]; simpl; unfold Environment.at_;
    rewrite list_lookup_insert_eq by exact Hvalid; simpl;
    rewrite lookup_insert_eq; reflexivity.
Qed.


Lemma parents_before_sound h : forall a,
  parents_before a h = true ->
  forall i env p, h !! i = Some env -> Environment.parent env = Some p -> p < a + i.
Proof.
  induction h as [|e h IH]; intros a Hb i env p Hi Hp; [discriminate|].
  simpl in Hb. apply andb_true_iff in Hb as [Hhere Hrest].
  destruct i as [|i]; simpl in Hi.
  - injection Hi as ->. rewrite Hp in Hhere. apply Nat.ltb_lt in Hhere. lia.
  - specialize (IH (S a) Hrest i env p Hi Hp). lia.
Qed.

Lemma parents_come_first_decided h :
  parents_before 0 h = true -> parents_come_first h.
Proof. intros Hb a env p Ha Hp. exact (parents_before_sound h 0 Hb a env p Ha Hp). Qed.


(** The whole of [Examples.closureProgram] through the three stages. *)
Lemma closure_program_prints_six :
  shown (App.executeCode Examples.pow 10 Examples.closureProgram) =
    Some {| result_output := ["6"]; result_error := None |}.
Proof. vm_compute. reflexivity. Qed.

(** ** The store stays well formed *)

Lemma value_ok_mono n n' v : n <= n' -> value_ok n v -> value_ok n' v.
Proof. destruct v; simpl; auto. lia. Qed.

Lemma values_ok_mono n n' l : n <= n' -> values_ok n l -> values_ok n' l.
Proof.
  intros Hle H. eapply Forall_impl; [exact H|]. intros v. apply value_ok_mono, Hle.
Qed.

Lemma heap_ok_parents h : heap_ok h -> parents_come_first h.
Proof. intros Hh a env p Ha Hp. destruct (Hh a env Ha) as [H _]. exact (H p Hp). Qed.

Lemma heap_ok_write h self name v cs :
  heap_ok h -> value_ok (length h) v ->
  heap_ok (<[self := {| Environment.values :=
                          <[name := v]> (Environment.values (Environment.at_ h self));
                        Environment.constants := cs;
                        Environment.parent := Environment.parent (Environment.at_ h self) |}]> h).
Proof.
  intros Hh Hv a env Ha. rewrite length_insert.
  destruct (decide (a = self)) as [->|Hne].
  - destruct (h !! self) as [e|] eqn:E.
    + rewrite list_lookup_insert_eq in Ha by (eapply lookup_lt_Some; exact E).
      injection Ha as <-. unfold Environment.at_. rewrite E. simpl.
      destruct (Hh self e E) as [Hp Hvals]. split; [exact Hp|].
      intros x w Hx. destruct (decide (x = name)) as [->|Hx'].
      * rewrite lookup_insert_eq in Hx. injection Hx as <-. exact Hv.
      * rewrite lookup_insert_ne in Hx by congruence. exact (Hvals x w Hx).
    + rewrite list_insert_ge in Ha by (apply lookup_ge_None; exact E). congruence.
  - rewrite list_lookup_insert_ne in Ha by congruence. exact (Hh a env Ha).
Qed.

Lemma define_ok h self name v c :
  heap_ok h -> value_ok (length h) v ->
  match Environment.define self name v c h with
  | inl e => thrown_ok (length h) e
  | inr h' => heap_ok h' /\ length h' = length h
  end.
Proof.
  intros Hh Hv. unfold Environment.define. destruct (Environment.has _ _); [exact I|].
  split; [apply heap_ok_write; assumption | apply length_insert].
Qed.

Lemma assign_ok h name v fuel : forall self,
  heap_ok h -> value_ok (length h) v ->
  match Environment.assign_from fuel h self name v with
  | inl e => thrown_ok (length h) e
  | inr h' => heap_ok h' /\ length h' = length h
  end.
Proof.
  induction fuel as [|f IH]; intros self Hh Hv; simpl;
    (destruct (bool_decide _); [exact I|]);
    (destruct (Environment.has _ _);
       [split; [apply heap_ok_write; assumption | apply length_insert]|]);
    destruct (Environment.parent _); try exact I.
  apply IH; assumption.
Qed.

Lemma get_ok h name fuel : forall self,
  heap_ok h ->
  match Environment.get_from fuel h self name with
  | inl e => thrown_ok (length h) e
  | inr v => value_ok (length h) v
  end.
Proof.
  induction fuel as [|f IH]; intros self Hh; simpl;
    (destruct (Environment.values (Environment.at_ h self) !! name) as [v|] eqn:E;
       [ unfold Environment.at_ in E; destruct (h !! self) as [env|] eqn:Ea;
           [exact (proj2 (Hh self env Ea) name v E) | simpl in E; rewrite lookup_empty in E; discriminate]
       | ]);
    destruct (Environment.parent _); try exact I.
  apply IH; assumption.
Qed.

Section WellFormed.
Import Interpreter.
Variable Math_pow : float -> float -> float.

Lemma result_ok_ret {A} (P : nat -> A -> Prop) a st :
  well_formed st -> P (length (heap st)) a -> result_ok P st (ret a st).
Proof. intros Hwf HP. split; [exact Hwf|]. split; [lia | exact HP]. Qed.

Lemma result_ok_throw {A} (P : nat -> A -> Prop) e st :
  well_formed st -> thrown_ok (length (heap st)) e -> result_ok P st (@throw A e st).
Proof. intros Hwf HP. split; [exact Hwf|]. split; [lia | exact HP]. Qed.

Lemma result_ok_since {A} (P : nat -> A -> Prop) st st' r :
  length (heap st) <= length (heap st') -> result_ok P st' r -> result_ok P st r.
Proof.
  intros Hle. destruct r as [a st''|e st''|]; simpl; [| |auto];
    intros (Hwf & Hlen & HP); (split; [exact Hwf|]); (split; [lia | exact HP]).
Qed.

Lemma result_ok_bind {A B} (P : nat -> A -> Prop) (Q : nat -> B -> Prop)
    (m : M A) (k : A -> M B) st :
  result_ok P st (m st) ->
  (forall a st', well_formed st' -> length (heap st) <= length (heap st') ->
     P (length (heap st')) a -> result_ok Q st' (k a st')) ->
  result_ok Q st (bind m k st).
Proof.
  unfold bind. destruct (m st) as [a st'|e st'|]; simpl; [|auto|auto].
  intros (Hwf & Hlen & HP) Hk.
  apply (result_ok_since Q st st'); [exact Hlen|]. apply Hk; assumption.
Qed.

Lemma result_ok_finally {A} (P : nat -> A -> Prop) (m : M A) previous st :
  previous < length (heap st) ->
  result_ok P st (m st) ->
  result_ok P st (finally m (with_environment previous) st).
Proof.
  intros Hp. unfold finally. destruct (m st) as [a st'|e st'|]; simpl; [| |auto];
    intros ((Hh & He) & Hlen & HP);
    (split; [split; [exact Hh | simpl; lia]|]); (split; [exact Hlen | exact HP]).
Qed.

Lemma result_ok_define name v c st :
  well_formed st -> value_ok (length (heap st)) v ->
  result_ok unit_ok st (onHeap (Environment.define (environment st) name v c) st).
Proof.
  intros [Hh He] Hv. unfold onHeap.
  pose proof (define_ok (heap st) (environment st) name v c Hh Hv) as H.
  destruct (Environment.define _ _ _ _ _) as [e|h']; simpl.
  - split; [split; assumption|]. split; [lia | exact H].
  - destruct H as [Hh' Hlen]. split; [split; [exact Hh' | simpl; lia]|].
    split; [lia | exact I].
Qed.

Lemma result_ok_assign name v st :
  well_formed st -> value_ok (length (heap st)) v ->
  result_ok unit_ok st (onHeap (Environment.assign (environment st) name v) st).
Proof.
  intros [Hh He] Hv. unfold onHeap, Environment.assign.
  pose proof (assign_ok (heap st) name v (environment st) (environment st) Hh Hv) as H.
  destruct (Environment.assign_from _ _ _ _ _) as [e|h']; simpl.
  - split; [split; assumption|]. split; [lia | exact H].
  - destruct H as [Hh' Hlen]. split; [split; [exact Hh' | simpl; lia]|].
    split; [lia | exact I].
Qed.

Lemma lookup_keeps_well_formed name : keeps_well_formed value_ok (lookup name).
Proof.
  intros st [Hh He]. unfold lookup, Environment.get.
  pose proof (get_ok (heap st) name (environment st) (environment st) Hh) as H.
  destruct (Environment.get_from _ _ _ _) as [e|v]; simpl;
    (split; [split; assumption|]); (split; [lia | exact H]).
Qed.

Lemma result_ok_enter p st :
  well_formed st -> p < length (heap st) -> result_ok unit_ok st (enter p st).
Proof.
  intros [Hh He] Hp. unfold enter. simpl. split; [split|]; simpl.
  - intros a env Ha. rewrite length_app. simpl.
    destruct (decide (a < length (heap st))) as [Hlt|Hge].
    + rewrite lookup_app_l in Ha by exact Hlt.
      destruct (Hh a env Ha) as [H1 H2]. split; [exact H1|].
      intros x v Hx. apply (value_ok_mono (length (heap st))); [lia | exact (H2 x v Hx)].
    + rewrite lookup_app_r in Ha by lia.
      destruct (a - length (heap st)) as [|k] eqn:Ek; [|destruct k; discriminate].
      simpl in Ha. injection Ha as <-. simpl. split.
      * intros q [= <-]. lia.
      * intros x v Hx. rewrite lookup_empty in Hx. discriminate.
  - rewrite length_app. simpl. lia.
  - rewrite length_app. simpl. split; [lia | exact I].
Qed.

Lemma binaryOperation_ok n operator l r :
  match binaryOperation Math_pow operator l r with
  | inl e => thrown_ok n e
  | inr v => value_ok n v
  end.
Proof.
  unfold binaryOperation, numeric, invalidBinary.
  destruct l, r;
    repeat match goal with
           | |- context [if ?b then _ else _] => destruct b
           end;
    exact I.
Qed.

Section Visitors.
Variable fuel : nat.
Variable vs : Statement -> M unit.
Variable ve : Expression -> M RuntimeValue.
Hypothesis Hvs : forall s, keeps_well_formed unit_ok (vs s).
Hypothesis Hve : forall e, keeps_well_formed value_ok (ve e).

Lemma visitStatements_keeps_well_formed l : keeps_well_formed unit_ok (visitStatements vs l).
Proof.
  induction l as [|s l IH]; intros st Hwf; simpl.
  - apply result_ok_ret; [exact Hwf | exact I].
  - apply (result_ok_bind unit_ok); [apply Hvs, Hwf|]. intros _ st' Hwf' _ _. apply IH, Hwf'.
Qed.

Lemma whileTurns_keeps_well_formed n c b :
  keeps_well_formed unit_ok (whileTurns vs ve n c b).
Proof.
  induction n as [|n IH]; intros st Hwf; simpl; [exact I|].
  apply (result_ok_bind value_ok); [apply Hve, Hwf|]. intros v st' Hwf' _ _.
  destruct (isTruthy v); [|apply result_ok_ret; [exact Hwf' | exact I]].
  pose proof (visitStatements_keeps_well_formed b st' Hwf') as H.
  destruct (visitStatements vs b st') as [[] st''|e st''|]; simpl in H; [| |exact I].
  - destruct H as (Hwf'' & Hlen & _).
    apply (result_ok_since unit_ok st' st''); [exact Hlen | apply IH, Hwf''].
  - destruct H as (Hwf'' & Hlen & He).
    destruct e; simpl; (split; [exact Hwf''|]); (split; [exact Hlen|]); (exact He || exact I).
Qed.

Lemma forTurns_keeps_well_formed n variable b bound : forall i,
  keeps_well_formed unit_ok (forTurns vs n variable b bound i).
Proof.
  induction n as [|n IH]; intros i st Hwf; simpl; [exact I|].
  destruct (PrimFloat.ltb i bound); [|apply result_ok_ret; [exact Hwf | exact I]].
  apply (result_ok_bind unit_ok); [apply result_ok_define; [exact Hwf | exact I]|].
  intros _ st' Hwf' _ _.
  apply (result_ok_bind unit_ok); [apply visitStatements_keeps_well_formed, Hwf'|].
  intros _ st'' Hwf'' _ _. apply IH, Hwf''.
Qed.

Lemma visitArguments_keeps_well_formed l : keeps_well_formed values_ok (visitArguments ve l).
Proof.
  induction l as [|a l IH]; intros st Hwf; simpl.
  - apply result_ok_ret; [exact Hwf | constructor].
  - apply (result_ok_bind value_ok); [apply Hve, Hwf|]. intros v st' Hwf' _ Hv.
    apply (result_ok_bind values_ok); [apply IH, Hwf'|]. intros ws st'' Hwf'' Hlen Hws.
    apply result_ok_ret; [exact Hwf''|]. constructor; [|exact Hws].
    apply (value_ok_mono (length (heap st'))); [exact Hlen | exact Hv].
Qed.

Lemma bindParameters_keeps_well_formed ps : forall args st,
  well_formed st -> values_ok (length (heap st)) args ->
  result_ok unit_ok st (bindParameters ps args st).
Proof.
  induction ps as [|p ps IH]; intros [|a args] st Hwf Hargs; simpl;
    try (apply result_ok_ret; [exact Hwf | exact I]).
  apply Forall_cons in Hargs as [Ha Hargs].
  apply (result_ok_bind unit_ok); [apply result_ok_define; assumption|].
  intros _ st' Hwf' Hlen _. apply IH; [exact Hwf'|].
  apply (values_ok_mono (length (heap st))); assumption.
Qed.

Lemma visitCallExpression_keeps_well_formed callee args :
  keeps_well_formed value_ok (visitCallExpression vs ve callee args).
Proof.
  intros st Hwf. unfold visitCallExpression.
  destruct callee as [calleeName|]; [|apply result_ok_throw; [exact Hwf | exact I]].
  destruct (String.eqb calleeName "range").
  - destruct args as [|a [|]]; try (apply result_ok_throw; [exact Hwf | exact I]).
    apply (result_ok_bind value_ok); [apply Hve, Hwf|]. intros v st' Hwf' _ _.
    destruct v; try (apply result_ok_throw; [exact Hwf' | exact I]).
    apply result_ok_ret; [exact Hwf' | exact I].
  - apply (result_ok_bind value_ok); [apply lookup_keeps_well_formed, Hwf|].
    intros c st1 Hwf1 _ Hc.
    destruct c as [| | |func|]; try (apply result_ok_throw; [exact Hwf1 | exact I]).
    apply (result_ok_bind values_ok); [apply visitArguments_keeps_well_formed, Hwf1|].
    intros vals st2 Hwf2 Hlen2 Hvals.
    destruct (negb _); [apply result_ok_throw; [exact Hwf2 | exact I]|].
    cbv beta zeta.
    apply (result_ok_bind unit_ok).
    { apply result_ok_enter; [exact Hwf2|]. simpl in Hc. lia. }
    intros _ st3 Hwf3 Hlen3 _.
    apply (result_ok_bind unit_ok).
    { apply bindParameters_keeps_well_formed; [exact Hwf3|].
      apply (values_ok_mono (length (heap st2))); assumption. }
    intros _ st4 Hwf4 Hlen4 _.
    apply result_ok_finally; [destruct Hwf2; lia|].
    pose proof (visitStatements_keeps_well_formed (body func) st4 Hwf4) as H.
    destruct (visitStatements vs (body func) st4) as [[] st5|e st5|]; simpl in H; [| |exact I].
    + destruct H as (Hwf5 & Hlen5 & _).
      split; [exact Hwf5|]. split; [exact Hlen5 | exact I].
    + destruct H as (Hwf5 & Hlen5 & He).
      destruct e; simpl; (split; [exact Hwf5|]); (split; [exact Hlen5|]); (exact He || exact I).
Qed.

Lemma visitStatementBody_keeps_well_formed s :
  keeps_well_formed unit_ok (visitStatementBody fuel vs ve s).
Proof.
  intros st Hwf. destruct s; simpl.
  - apply (result_ok_bind value_ok); [apply Hve, Hwf|]. intros w st' Hwf' _ Hw.
    apply result_ok_define; assumption.
  - apply (result_ok_bind value_ok); [apply Hve, Hwf|]. intros w st' Hwf' _ Hw.
    apply result_ok_assign; assumption.
  - apply (result_ok_bind value_ok); [apply Hve, Hwf|]. intros c st' Hwf' _ _.
    destruct (isTruthy c); [apply visitStatements_keeps_well_formed, Hwf'|].
    destruct elseBranch; [apply visitStatements_keeps_well_formed, Hwf'|].
    apply result_ok_ret; [exact Hwf' | exact I].
  - apply whileTurns_keeps_well_formed, Hwf.
  - apply (result_ok_bind value_ok); [apply Hve, Hwf|]. intros it st' Hwf' _ _.
    destruct it; try (apply result_ok_throw; [exact Hwf' | exact I]).
    cbv beta zeta. apply result_ok_finally; [destruct Hwf'; assumption|].
    apply (result_ok_bind unit_ok).
    { apply result_ok_enter; [exact Hwf' | destruct Hwf'; assumption]. }
    intros _ st'' Hwf'' _ _. apply forTurns_keeps_well_formed, Hwf''.
  - unfold visitFunctionDeclaration.
    apply (result_ok_define _ _ false (with_functionCount (S (functionCount st)) st)).
    + exact Hwf.
    + simpl. destruct Hwf; assumption.
  - apply (result_ok_bind value_ok).
    + destruct v; [apply Hve, Hwf | apply result_ok_ret; [exact Hwf | exact I]].
    + intros w st' Hwf' _ Hw. apply result_ok_throw; [exact Hwf' | exact Hw].
  - apply (result_ok_bind value_ok); [apply Hve, Hwf|]. intros w st' Hwf' _ _.
    simpl. split; [exact Hwf'|]. split; [simpl; lia | exact I].
  - apply (result_ok_bind value_ok); [apply Hve, Hwf|]. intros w st' Hwf' _ _.
    apply result_ok_ret; [exact Hwf' | exact I].
Qed.

Lemma visitExpressionBody_keeps_well_formed e :
  keeps_well_formed value_ok (visitExpressionBody Math_pow vs ve e).
Proof.
  intros st Hwf. destruct e; simpl.
  - apply (result_ok_bind value_ok); [apply Hve, Hwf|]. intros l st' Hwf' _ _.
    apply (result_ok_bind value_ok); [apply Hve, Hwf'|]. intros r st'' Hwf'' _ _.
    pose proof (binaryOperation_ok (length (heap st'')) operator l r) as H.
    unfold lift. destruct (binaryOperation Math_pow operator l r);
      [apply result_ok_throw | apply result_ok_ret]; assumption.
  - apply (result_ok_bind value_ok); [apply Hve, Hwf|]. intros w st' Hwf' _ _.
    destruct (String.eqb operator "nahi"); [apply result_ok_ret; [exact Hwf' | exact I]|].
    destruct (String.eqb operator "-"), w;
      first [ apply result_ok_throw; [exact Hwf' | exact I]
            | apply result_ok_ret; [exact Hwf' | exact I] ].
  - apply visitCallExpression_keeps_well_formed, Hwf.
  - apply lookup_keeps_well_formed, Hwf.
  - apply result_ok_ret; [exact Hwf|]. destruct v; exact I.
  - unfold visitInputStatement. destruct (inputCallback st);
      [|apply result_ok_throw; [exact Hwf | exact I]].
    cbv zeta. destruct (_ && _); simpl; (split; [exact Hwf|]); (split; [lia | exact I]).
Qed.

End Visitors.

(** Whatever a statement or an expression does, the store it leaves is well
    formed and has lost no environment. *)
Lemma visit_keeps_well_formed fuel :
  (forall s, keeps_well_formed unit_ok (visitStatement Math_pow fuel s)) /\
  (forall e, keeps_well_formed value_ok (visitExpression Math_pow fuel e)).
Proof.
  induction fuel as [|f [IHs IHe]]; simpl.
  - split; intros ? st Hwf; exact I.
  - split; intros.
    + apply visitStatementBody_keeps_well_formed; auto.
    + apply visitExpressionBody_keeps_well_formed; auto.
Qed.

Lemma run_keeps_well_formed fuel l : keeps_well_formed unit_ok (run Math_pow fuel l).
Proof. apply visitStatements_keeps_well_formed, visit_keeps_well_formed. Qed.

(** The interpreter [new Interpreter(...)] builds is well formed, and every
    call of [interpret] that returns leaves it so. *)
Lemma new_is_well_formed callback : well_formed (Interpreter.new callback).
Proof.
  split; [|simpl; unfold globals; lia]. intros a env Ha.
  destruct a as [|a]; [|discriminate]. injection Ha as <-. simpl. split; [discriminate|].
  intros x v Hx. apply lookup_singleton_Some in Hx as [_ <-]. simpl. unfold globals. lia.
Qed.

Lemma interpret_keeps_well_formed fuel program st r st' :
  well_formed st ->
  interpret Math_pow fuel program st = Some (r, st') ->
  well_formed st'.
Proof.
  intros Hwf. unfold interpret, visitProgram.
  pose proof (run_keeps_well_formed fuel (program_body program) (with_output [] st) Hwf) as H.
  unfold run in H.
  destruct (visitStatements _ _ _) as [[] st1|e st1|]; simpl in H; [| |discriminate];
    intros [= _ <-]; exact (proj1 H).
Qed.

(** What the theorem on calls asks of the store holds at every call of a run
    that started well formed: the environment a
    function object captured is still in the store, below the environments
    created since. *)
Lemma captured_environment_is_in_the_store fuel g arguments st func vals st1 :
  well_formed st ->
  Environment.get (environment st) g (heap st) = inr (VFunction func) ->
  visitArguments (visitExpression Math_pow fuel) arguments st = Ok vals st1 ->
  parents_come_first (heap st1) /\ closure func < length (heap st1).
Proof.
  intros Hwf Hget Hargs.
  pose proof (lookup_keeps_well_formed g st Hwf) as Hl. unfold lookup in Hl.
  rewrite Hget in Hl. destruct Hl as (_ & _ & Hc). simpl in Hc.
  pose proof (visitArguments_keeps_well_formed _ (proj2 (visit_keeps_well_formed fuel))
                arguments st Hwf) as Ha.
  rewrite Hargs in Ha. destruct Ha as ((Hh & _) & Hlen & _).
  split; [apply heap_ok_parents, Hh | lia].
Qed.

End WellFormed.

(** ** C9: a return outside any call *)

Section Containment.
Import Interpreter.
Variable Math_pow : float -> float -> float.

Lemma contains_bind {A B} (m : M A) (k : A -> M B) :
  contains_return m -> (forall a, contains_return (k a)) -> contains_return (bind m k).
Proof.
  intros Hm Hk st v st' H. unfold bind in H.
  destruct (m st) as [a st1|e st1|] eqn:E; try discriminate.
  - exact (Hk a st1 v st' H).
  - injection H as -> ->. exact (Hm st v st' E).
Qed.

Lemma contains_ret {A} (a : A) : contains_return (ret a).
Proof. intros st v st' H. discriminate. Qed.

Lemma contains_error {A} message : contains_return (@throw A (Error message)).
Proof. intros st v st' H. discriminate. Qed.

Lemma contains_lookup name : contains_return (lookup name).
Proof.
  intros st v st' H. unfold lookup, Environment.get in H.
  assert (forall fuel h self, Environment.get_from fuel h self name <> inl (ReturnException v)) as Hget.
  { induction fuel as [|f IH]; intros h self; simpl;
      destruct (Environment.values _ !! name); try discriminate;
      destruct (Environment.parent _); try discriminate. apply IH. }
  destruct (Environment.get_from _ _ _ _) as [e|w] eqn:E; [|discriminate].
  injection H as -> _. exact (Hget _ _ _ E).
Qed.

Lemma contains_define name w c :
  contains_return (fun st => onHeap (Environment.define (environment st) name w c) st).
Proof.
  intros st v st' H. unfold onHeap, Environment.define in H.
  destruct (Environment.has _ _); discriminate.
Qed.

Section Visitors.
Variable vs : Statement -> M unit.
Variable ve : Expression -> M RuntimeValue.
Hypothesis Hve : forall e, contains_return (ve e).

Lemma contains_visitArguments l : contains_return (visitArguments ve l).
Proof.
  induction l as [|a l IH]; simpl; [apply contains_ret|].
  apply contains_bind; [auto|]. intros w.
  apply contains_bind; [auto|]. intros ws. apply contains_ret.
Qed.

Lemma contains_bindParameters ps : forall args, contains_return (bindParameters ps args).
Proof.
  induction ps as [|p ps IH]; intros [|a args]; simpl; try apply contains_ret.
  apply contains_bind; [apply contains_define|]. intros _. apply IH.
Qed.

Lemma contains_visitCallExpression callee args :
  contains_return (visitCallExpression vs ve callee args).
Proof.
  unfold visitCallExpression. destruct callee as [calleeName|]; [|apply contains_error].
  destruct (String.eqb calleeName "range").
  - destruct args as [|a [|]]; try apply contains_error.
    apply contains_bind; [auto|]. intros []; try apply contains_error. apply contains_ret.
  - apply contains_bind; [apply contains_lookup|].
    intros []; try apply contains_error.
    apply contains_bind; [apply contains_visitArguments|]. intros vals.
    destruct (negb _); [apply contains_error|].
    intros st. refine (contains_bind _ _ _ _ st); [intros ? ? ? ?; discriminate|].
    intros _. apply contains_bind; [apply contains_bindParameters|]. intros _.
    intros st1 w st' H. unfold finally in H.
    destruct (visitStatements vs (body v) st1) as [[] st2|e st2|]; try discriminate.
    destruct e; discriminate.
Qed.

Lemma contains_visitExpressionBody e : contains_return (visitExpressionBody Math_pow vs ve e).
Proof.
  destruct e; simpl.
  - apply contains_bind; [auto|]. intros l. apply contains_bind; [auto|]. intros r.
    intros st v st' H. unfold lift in H.
    destruct (binaryOperation Math_pow operator l r) as [e|w] eqn:E; [|discriminate].
    injection H as -> _. revert E. unfold binaryOperation, numeric, invalidBinary.
    repeat match goal with
           | |- context [if ?b then _ else _] => destruct b
           | |- context [match ?x with _ => _ end] => destruct x
           end; discriminate.
  - apply contains_bind; [auto|]. intros w.
    destruct (String.eqb operator "nahi"); [apply contains_ret|].
    destruct (String.eqb operator "-"), w; try apply contains_error; apply contains_ret.
  - apply contains_visitCallExpression.
  - apply contains_lookup.
  - apply contains_ret.
  - intros st v st' H. unfold visitInputStatement in H.
    destruct (inputCallback st); [|discriminate].
    destruct (_ && _); discriminate.
Qed.

End Visitors.

(** An expression never throws a return signal: a call catches the one its
    body throws. A return signal that reaches the top of [interpret]
    therefore comes from a return statement outside every call. *)
Lemma calls_contain_return fuel e :
  contains_return (visitExpression Math_pow fuel e).
Proof.
  revert e. induction fuel as [|f IH]; intros e; simpl.
  - intros st v st' H. discriminate.
  - apply contains_visitExpressionBody. exact IH.
Qed.

End Containment.

(** C9: a return statement at the top level, after statements that complete
    and with a value that evaluates, throws the return signal, which nothing
    catches before [interpret] does: the result's error is present and is the
    empty string, the statements after the return are not run, and the output
    is the buffer at that moment, which begins with all lines printed before. *)
Theorem top_level_return_gives_an_empty_error Math_pow fuel pre value position post
    at_ st st1 w st2 :
  Interpreter.run Math_pow (S fuel) pre (Interpreter.with_output [] st) =
    Interpreter.Ok tt st1 ->
  match value with
  | Some e => Interpreter.visitExpression Math_pow fuel e st1 = Interpreter.Ok w st2
  | None => w = VBoolean false /\ st2 = st1
  end ->
  Interpreter.visitStatement Math_pow (S fuel) (ReturnStatement value position) st1 =
    Interpreter.Throw (ReturnException w) st2 /\
  Interpreter.interpret Math_pow (S fuel)
    {| program_body := pre ++ ReturnStatement value position :: post;
       program_position := at_ |} st =
    Some ({| result_output := Interpreter.output st2; result_error := Some ""%string |}, st2) /\
  Interpreter.output st1 `prefix_of` Interpreter.output st2.
Proof.
  intros Hpre Hvalue.
  assert (Interpreter.visitStatement Math_pow (S fuel) (ReturnStatement value position) st1 =
            Interpreter.Throw (ReturnException w) st2) as Hthrow.
  { simpl. unfold Interpreter.visitReturnStatement, Interpreter.bind.
    destruct value as [e|].
    - rewrite Hvalue. reflexivity.
    - destruct Hvalue as [-> ->]. reflexivity. }
  split; [exact Hthrow|].
  exact (interpret_after_a_throw Math_pow (S fuel) pre (ReturnStatement value position)
           post at_ st st1 (ReturnException w) st2 Hpre Hthrow).
Qed.

(** The theorem at [likho 1], [return 5], [likho 2]. *)
Lemma return_between_two_prints :
  returned (Interpreter.interpret Examples.pow 3
              {| program_body := [Examples.print_of 1; Examples.return_five; Examples.print_of 2];
                 program_position := Examples.at11 |} (Interpreter.new None)) =
    Some {| result_output := ["1"%string]; result_error := Some ""%string |}.
Proof.
  edestruct (top_level_return_gives_an_empty_error Examples.pow 2 [Examples.print_of 1]
               (Some (Literal (LNumber 5) Examples.at11)) Examples.at11 [Examples.print_of 2]
               Examples.at11 (Interpreter.new None)) as (_ & Hi & _).
  - vm_compute. reflexivity.
  - vm_compute. reflexivity.
  - cbn [app] in Hi. unfold Examples.return_five, Examples.at11 in *.
    rewrite Hi. reflexivity.
Defined.

(** [Examples.topLevelReturn] through the three stages. *)
Lemma top_level_return_program :
  shown (App.executeCode Examples.pow 10 Examples.topLevelReturn) =
    Some {| result_output := ["1"%string]; result_error := Some ""%string |}.
Proof. vm_compute. reflexivity. Qed.

(** A return signal that escapes any top-level statement (a return nested in
    a conditional or in a loop, say) has the same effect. *)
Lemma escaping_return_gives_an_empty_error Math_pow fuel pre s post at_ st st1 w st2 :
  Interpreter.run Math_pow fuel pre (Interpreter.with_output [] st) = Interpreter.Ok tt st1 ->
  Interpreter.visitStatement Math_pow fuel s st1 = Interpreter.Throw (ReturnException w) st2 ->
  Interpreter.interpret Math_pow fuel
    {| program_body := pre ++ s :: post; program_position := at_ |} st =
    Some ({| result_output := Interpreter.output st2; result_error := Some ""%string |}, st2).
Proof.
  intros Hpre Hs.
  exact (proj1 (interpret_after_a_throw Math_pow fuel pre s post at_ st st1
                  (ReturnException w) st2 Hpre Hs)).
Qed.

(** ** C10: one interpreter, several calls *)

Section Appending.
Import Interpreter.
Variable Math_pow : float -> float -> float.

Lemma appends_ret {A} (a : A) : appends_only (ret a).
Proof. intros before st. reflexivity. Qed.

Lemma appends_throw {A} e : appends_only (@throw A e).
Proof. intros before st. reflexivity. Qed.

Lemma appends_outOfFuel {A} : appends_only (@outOfFuel A).
Proof. intros before st. reflexivity. Qed.

Lemma appends_bind {A B} (m : M A) (k : A -> M B) :
  appends_only m -> (forall a, appends_only (k a)) -> appends_only (bind m k).
Proof.
  intros Hm Hk before st. unfold bind. rewrite Hm.
  destruct (m st) as [a st'|e st'|]; simpl; [apply Hk | reflexivity | reflexivity].
Qed.

Lemma appends_finally {A} (m : M A) e :
  appends_only m -> appends_only (finally m (with_environment e)).
Proof.
  intros Hm before st. unfold finally. rewrite Hm.
  destruct (m st) as [a st'|e' st'|]; reflexivity.
Qed.

Lemma appends_onHeap (f : t -> Environment.store -> Thrown + Environment.store) :
  (forall before st, f (prepend before st) = f st) ->
  appends_only (fun st => onHeap (f st) st).
Proof.
  intros Hf before st. unfold onHeap. rewrite Hf. simpl.
  destruct (f st (heap st)); reflexivity.
Qed.

Lemma appends_lookup name : appends_only (lookup name).
Proof.
  intros before st. unfold lookup. simpl.
  destruct (Environment.get _ _ _); reflexivity.
Qed.

Lemma appends_enter p : appends_only (enter p).
Proof. intros before st. reflexivity. Qed.

Lemma appends_lift r : appends_only (lift r).
Proof. destruct r; [apply appends_throw | apply appends_ret]. Qed.

Section Visitors.
Variable fuel : nat.
Variable vs : Statement -> M unit.
Variable ve : Expression -> M RuntimeValue.
Hypothesis Hvs : forall s, appends_only (vs s).
Hypothesis Hve : forall e, appends_only (ve e).

Lemma appends_visitStatements l : appends_only (visitStatements vs l).
Proof.
  induction l as [|s l IH]; simpl; [apply appends_ret|].
  apply appends_bind; auto.
Qed.

Lemma appends_whileTurns n c b : appends_only (whileTurns vs ve n c b).
Proof.
  induction n as [|n IH]; simpl; [apply appends_outOfFuel|].
  apply appends_bind; [auto|]. intros v.
  destruct (isTruthy v); [|apply appends_ret].
  intros before st. rewrite appends_visitStatements.
  destruct (visitStatements vs b st) as [[] st'|e st'|]; simpl; auto.
  destruct e; reflexivity.
Qed.

Lemma appends_forTurns n variable b bound : forall i,
  appends_only (forTurns vs n variable b bound i).
Proof.
  induction n as [|n IH]; intros i; simpl; [apply appends_outOfFuel|].
  destruct (PrimFloat.ltb i bound); [|apply appends_ret].
  apply appends_bind.
  - apply (appends_onHeap (fun st => Environment.define (environment st) variable (VNumber i) false)).
    reflexivity.
  - intros _. apply appends_bind; [apply appends_visitStatements|]. intros _. apply IH.
Qed.

Lemma appends_visitArguments l : appends_only (visitArguments ve l).
Proof.
  induction l as [|a l IH]; simpl; [apply appends_ret|].
  apply appends_bind; [auto|]. intros v.
  apply appends_bind; [auto|]. intros ws. apply appends_ret.
Qed.

Lemma appends_bindParameters ps : forall args, appends_only (bindParameters ps args).
Proof.
  induction ps as [|p ps IH]; intros [|a args]; simpl; try apply appends_ret.
  apply appends_bind.
  - apply (appends_onHeap (fun st => Environment.define (environment st) p a false)).
    reflexivity.
  - intros _. apply IH.
Qed.

Lemma appends_visitCallExpression callee args :
  appends_only (visitCallExpression vs ve callee args).
Proof.
  unfold visitCallExpression. destruct callee as [calleeName|]; [|apply appends_throw].
  destruct (String.eqb calleeName "range").
  - destruct args as [|a [|]]; try apply appends_throw.
    apply appends_bind; [auto|]. intros []; try apply appends_throw. apply appends_ret.
  - apply appends_bind; [apply appends_lookup|].
    intros []; try apply appends_throw.
    apply appends_bind; [apply appends_visitArguments|]. intros vals.
    destruct (negb _); [apply appends_throw|].
    intros before st.
    refine (appends_bind _ _ (appends_enter _) _ before st). intros _.
    apply appends_bind; [apply appends_bindParameters|]. intros _.
    apply appends_finally.
    intros before' st'. rewrite appends_visitStatements.
    destruct (visitStatements vs (body v) st') as [[] st''|e st''|]; simpl; auto.
    destruct e; reflexivity.
Qed.

Lemma appends_visitStatementBody s : appends_only (visitStatementBody fuel vs ve s).
Proof.
  destruct s; simpl.
  - apply appends_bind; [auto|]. intros w.
    apply (appends_onHeap (fun st => Environment.define (environment st) identifier w isConstant)).
    reflexivity.
  - apply appends_bind; [auto|]. intros w.
    apply (appends_onHeap (fun st => Environment.assign (environment st) identifier w)).
    reflexivity.
  - apply appends_bind; [auto|]. intros c.
    destruct (isTruthy c); [apply appends_visitStatements|].
    destruct elseBranch; [apply appends_visitStatements | apply appends_ret].
  - apply appends_whileTurns.
  - apply appends_bind; [auto|]. intros []; try apply appends_throw.
    intros before st.
    refine (appends_finally _ (environment st) _ before st).
    apply appends_bind; [apply appends_enter|]. intros _. apply appends_forTurns.
  - intros before st. unfold visitFunctionDeclaration, onHeap. simpl.
    destruct (Environment.define _ _ _ _ _); reflexivity.
  - apply appends_bind; [|intros; apply appends_throw].
    destruct v; [auto | apply appends_ret].
  - apply appends_bind; [auto|]. intros w before st. unfold prepend. simpl.
    rewrite <- app_assoc. reflexivity.
  - apply appends_bind; [auto|]. intros; apply appends_ret.
Qed.

Lemma appends_visitExpressionBody e : appends_only (visitExpressionBody Math_pow vs ve e).
Proof.
  destruct e; simpl.
  - apply appends_bind; [auto|]. intros l. apply appends_bind; [auto|]. intros r.
    apply appends_lift.
  - apply appends_bind; [auto|]. intros w.
    destruct (String.eqb operator "nahi"); [apply appends_ret|].
    destruct (String.eqb operator "-"), w; try apply appends_throw; apply appends_ret.
  - apply appends_visitCallExpression.
  - apply appends_lookup.
  - apply appends_ret.
  - intros before st. unfold visitInputStatement. simpl.
    destruct (inputCallback st); [|reflexivity].
    destruct (_ && _); reflexivity.
Qed.

End Visitors.

(** No statement and no expression reads the output buffer. *)
Lemma visit_appends_only fuel :
  (forall s, appends_only (visitStatement Math_pow fuel s)) /\
  (forall e, appends_only (visitExpression Math_pow fuel e)).
Proof.
  induction fuel as [|f [IHs IHe]]; simpl.
  - split; intros; apply appends_outOfFuel.
  - split; intros.
    + apply appends_visitStatementBody; auto.
    + apply appends_visitExpressionBody; auto.
Qed.

Lemma run_appends_only fuel l : appends_only (run Math_pow fuel l).
Proof. apply appends_visitStatements, visit_appends_only. Qed.

End Appending.

Lemma prepend_own st :
  prepend (Interpreter.output st) (Interpreter.with_output [] st) = st.
Proof. destruct st. unfold prepend. simpl. rewrite app_nil_r. reflexivity. Qed.

(** C10: [interpret] starts by emptying the output buffer, so what an earlier
    call left in it never shows in the result; everything else of the
    interpreter, the global environment with it, is what the earlier call
    left: the interpreter [interpret] hands on is the one in which its
    statements stopped, by completing or by throwing, so a name that an
    earlier call has bound is bound when the next call starts, also when the
    earlier call ended in an error. When a call completes without error, a
    second call on the same interpreter returns exactly the lines and the
    error that the statements of the second program add when they are run
    after those of the first in a single call. *)
Theorem calls_share_the_interpreter_not_the_output Math_pow fuel first second at_ st :
  (forall leftover,
     Interpreter.interpret Math_pow fuel first (Interpreter.with_output leftover st) =
     Interpreter.interpret Math_pow fuel first st) /\
  (forall r1 st1,
     Interpreter.interpret Math_pow fuel first st = Some (r1, st1) ->
     result_output r1 = Interpreter.output st1 /\
     Interpreter.heap (Interpreter.with_output [] st1) !! Interpreter.globals =
       Interpreter.heap st1 !! Interpreter.globals) /\
  (forall lines1 st1 r2 st2,
     Interpreter.interpret Math_pow fuel first st =
       Some ({| result_output := lines1; result_error := None |}, st1) ->
     Interpreter.interpret Math_pow fuel second st1 = Some (r2, st2) ->
     Interpreter.interpret Math_pow fuel
       {| program_body := program_body first ++ program_body second;
          program_position := at_ |} st =
       Some ({| result_output := lines1 ++ result_output r2;
                result_error := result_error r2 |}, prepend lines1 st2)) /\
  (forall r1 st1,
     Interpreter.interpret Math_pow fuel first st = Some (r1, st1) ->
     (Interpreter.run Math_pow fuel (program_body first) (Interpreter.with_output [] st) =
        Interpreter.Ok tt st1 /\ result_error r1 = None) \/
     (exists e,
        Interpreter.run Math_pow fuel (program_body first) (Interpreter.with_output [] st) =
          Interpreter.Throw e st1 /\
        result_error r1 = Some (Interpreter.errorText e))) /\
  (forall pre post st_mid r1 st1,
     program_body first = pre ++ post ->
     Interpreter.run Math_pow fuel pre (Interpreter.with_output [] st) =
       Interpreter.Ok tt st_mid ->
     Interpreter.interpret Math_pow fuel first st = Some (r1, st1) ->
     keeps_bindings st_mid (Interpreter.with_output [] st1) /\
     forall r2 st2,
       Interpreter.interpret Math_pow fuel second st1 = Some (r2, st2) ->
       keeps_bindings st_mid st2).
Proof.
  split; [|split; [|split; [|split]]].
  - intros leftover. reflexivity.
  - intros r1 st1 H. rewrite interpret_unfold in H.
    destruct (Interpreter.run _ _ _ _) as [[] st'|e st'|]; inversion H; subst; auto.
  - intros lines1 st1 r2 st2 H1 H2. rewrite interpret_unfold in *. simpl program_body.
    destruct (Interpreter.run Math_pow fuel (program_body first) _) as [[] st'|e st'|] eqn:E1;
      inversion H1; subst; clear H1.
    unfold Interpreter.run in *. rewrite visitStatements_app, E1.
    pose proof (run_appends_only Math_pow fuel (program_body second)
                  (Interpreter.output st1) (Interpreter.with_output [] st1)) as Hframe.
    rewrite prepend_own in Hframe.
    unfold Interpreter.run in Hframe. rewrite Hframe.
    destruct (Interpreter.visitStatements _ (program_body second) _) as [[] st'|e st'|];
      inversion H2; subst; reflexivity.
  - intros r1 st1 H. rewrite interpret_unfold in H.
    destruct (Interpreter.run _ _ _ _) as [[] st'|e st'|]; inversion H; subst; eauto.
  - intros pre post st_mid r1 st1 Hbody Hpre H1.
    assert (keeps_bindings st_mid st1) as Hkept.
    { rewrite interpret_unfold, Hbody in H1. unfold Interpreter.run in H1, Hpre.
      rewrite visitStatements_app, Hpre in H1.
      pose proof (run_respects Math_pow keeps_bindings fuel post
                    keeps_bindings_respects_writes st_mid) as Hrel.
      unfold Interpreter.run in Hrel.
      destruct (Interpreter.visitStatements _ post st_mid) as [[] st'|e st'|];
        inversion H1; subst; exact Hrel. }
    split; [exact Hkept|].
    intros r2 st2 H2. rewrite interpret_unfold in H2.
    pose proof (run_respects Math_pow keeps_bindings fuel (program_body second)
                  keeps_bindings_respects_writes (Interpreter.with_output [] st1)) as Hrel.
    intros a env x Ha Hx. destruct (Hkept a env x Ha Hx) as (env1 & Ha1 & Hx1).
    destruct (Interpreter.run Math_pow fuel (program_body second) _) as [[] st'|e st'|];
      inversion H2; subst; exact (Hrel a env1 x Ha1 Hx1).
Qed.

(** Two submissions to the interpreter the REPL keeps: the second result
    holds the line of the second submission only, and [x], declared by the
    first, is read by the second. By the theorem, the two results are what one
    call on both programs gives. And after a first submission that declares
    [x] and then fails: [x] is bound when the second starts, which reads it. *)
Lemma two_submissions :
  let st1 := Examples.after_first_submission in
  (shown (App.submit Examples.pow 10 (Interpreter.new None) Examples.firstSubmission) =
     Some {| result_output := ["5"%string]; result_error := None |} /\
   shown (App.submit Examples.pow 10 st1 Examples.secondSubmission) =
     Some {| result_output := ["6"%string]; result_error := None |} /\
   returned (Interpreter.interpret Examples.pow 10
               {| program_body := program_body Examples.first_program ++
                                  program_body Examples.second_program;
                  program_position := Examples.at11 |} (Interpreter.new None)) =
     Some {| result_output := ["5"%string; "6"%string]; result_error := None |}) /\
  (let failed := MoreExamples.after_failed_submission in
   App.submit Examples.pow 10 (Interpreter.new None) MoreExamples.failedSubmission =
     App.Returned {| result_output := [];
                     result_error := Some "Undefined variable 'y'"%string |} failed /\
   Interpreter.run Examples.pow 10 (program_body MoreExamples.failed_program)
     (Interpreter.with_output [] (Interpreter.new None)) =
     Interpreter.Throw (Error "Undefined variable 'y'") failed /\
   (exists env, Interpreter.heap (Interpreter.with_output [] failed) !! Interpreter.globals =
                  Some env /\
                is_Some (Environment.values env !! "x"%string)) /\
   shown (App.submit Examples.pow 10 failed Examples.secondSubmission) =
     Some {| result_output := ["6"%string]; result_error := None |}).
Proof.
  intros st1. split.
  - split; [vm_compute; reflexivity|]. split; [vm_compute; reflexivity|].
    destruct (calls_share_the_interpreter_not_the_output Examples.pow 10
                Examples.first_program Examples.second_program
                Examples.at11 (Interpreter.new None)) as (_ & _ & H & _).
    assert (Interpreter.interpret Examples.pow 10 Examples.first_program
              (Interpreter.new None) =
            Some ({| result_output := ["5"%string]; result_error := None |}, st1)) as H1
      by (vm_compute; reflexivity).
    eassert (Interpreter.interpret Examples.pow 10 Examples.second_program st1 =
             Some ({| result_output := ["6"%string]; result_error := None |}, _)) as H2
      by (vm_compute; reflexivity).
    unfold returned. rewrite (H _ _ _ _ H1 H2). reflexivity.
  - intros failed.
    destruct (calls_share_the_interpreter_not_the_output Examples.pow 10
                MoreExamples.failed_program Examples.second_program
                Examples.at11 (Interpreter.new None)) as (_ & _ & _ & _ & Hkept).
    assert (Interpreter.interpret Examples.pow 10 MoreExamples.failed_program
              (Interpreter.new None) =
            Some ({| result_output := [];
                     result_error := Some "Undefined variable 'y'"%string |}, failed)) as H1
      by (vm_compute; reflexivity).
    split; [vm_compute; reflexivity|]. split; [vm_compute; reflexivity|].
    split; [|vm_compute; reflexivity].
    assert (Interpreter.run Examples.pow 10 [MoreExamples.failed_declaration]
              (Interpreter.with_output [] (Interpreter.new None)) =
            Interpreter.Ok tt MoreExamples.after_failed_declaration) as Hpre
      by (vm_compute; reflexivity).
    destruct (Hkept [MoreExamples.failed_declaration] [MoreExamples.failed_print]
                MoreExamples.after_failed_declaration _ _ eq_refl Hpre H1) as [Hbound _].
    eapply (Hbound Interpreter.globals).
    + vm_compute. reflexivity.
    + vm_compute. eauto.
Defined.

(** * Further properties of the code *)

(** ** [Environment]: what was written is what is read *)

Lemma at_insert h q env a :
  Environment.at_ (<[q := env]> h) a =
  if bool_decide (a = q /\ q < length h) then env else Environment.at_ h a.
Proof.
  unfold Environment.at_. destruct (decide (a = q)) as [->|Hne].
  - destruct (decide (q < length h)) as [Hlt|Hge].
    + rewrite bool_decide_eq_true_2 by auto.
      rewrite list_lookup_insert_eq by exact Hlt. reflexivity.
    + rewrite bool_decide_eq_false_2 by (intros [_ ?]; lia).
      rewrite list_insert_ge by lia. reflexivity.
  - rewrite bool_decide_eq_false_2 by (intros [? _]; congruence).
    rewrite list_lookup_insert_ne by congruence. reflexivity.
Qed.

Lemma has_in_store h self name :
  Environment.has (Environment.at_ h self) name = true -> self < length h.
Proof.
  unfold Environment.has, Environment.at_. intros H. apply bool_decide_eq_true_1 in H.
  destruct (h !! self) as [env|] eqn:E; [eapply lookup_lt_Some; exact E|].
  simpl in H. rewrite lookup_empty in H. destruct H; discriminate.
Qed.

(** Writing [name] in one environment changes what no other name reads. *)
Lemma get_from_other_name h q name v cs y fuel : y <> name -> forall a,
  Environment.get_from fuel
    (<[q := {| Environment.values := <[name := v]> (Environment.values (Environment.at_ h q));
               Environment.constants := cs;
               Environment.parent := Environment.parent (Environment.at_ h q) |}]> h) a y =
  Environment.get_from fuel h a y.
Proof.
  intros Hy.
  set (env := {| Environment.values := _; Environment.constants := cs;
                 Environment.parent := _ |}).
  assert (forall a, Environment.values (Environment.at_ (<[q := env]> h) a) !! y =
                    Environment.values (Environment.at_ h a) !! y) as Hvalues.
  { intros a. rewrite at_insert. destruct (bool_decide _) eqn:E; [|reflexivity].
    apply bool_decide_eq_true_1 in E as [-> _]. unfold env. simpl.
    apply lookup_insert_ne. congruence. }
  assert (forall a, Environment.parent (Environment.at_ (<[q := env]> h) a) =
                    Environment.parent (Environment.at_ h a)) as Hparent.
  { intros a. rewrite at_insert. destruct (bool_decide _) eqn:E; [|reflexivity].
    apply bool_decide_eq_true_1 in E as [-> _]. reflexivity. }
  clearbody env.
  induction fuel as [|f IH]; intros a; simpl; rewrite Hvalues, Hparent;
    destruct (Environment.values (Environment.at_ h a) !! y); try reflexivity;
    destruct (Environment.parent (Environment.at_ h a)); try reflexivity.
  apply IH.
Qed.

(** X1: a declaration in an environment of the store is refused exactly when
    that very environment already binds the name (a binding of a parent does
    not count: it is shadowed). When it is accepted, the name reads the new
    value from that environment, every other name reads what it read before
    from everywhere, and no other environment is touched. *)
Theorem a_declaration_is_read_back h self name v c :
  self < length h ->
  (Environment.has (Environment.at_ h self) name = true ->
   Environment.define self name v c h =
     inl (Error ("Variable '" ++ name ++ "' already defined")%string)) /\
  (Environment.has (Environment.at_ h self) name = false ->
   exists h',
     Environment.define self name v c h = inr h' /\
     length h' = length h /\
     Environment.get self name h' = inr v /\
     (forall y a, y <> name -> Environment.get a y h' = Environment.get a y h) /\
     (forall a, a <> self -> Environment.at_ h' a = Environment.at_ h a)).
Proof.
  intros Hself. unfold Environment.define. split; intros Hhas; rewrite Hhas; [reflexivity|].
  eexists. split; [reflexivity|]. split; [apply length_insert|]. split; [|split].
  - unfold Environment.get. destruct self as [|n]; simpl; rewrite at_insert;
      rewrite bool_decide_eq_true_2 by auto; simpl; rewrite lookup_insert_eq; reflexivity.
  - intros y a Hy. unfold Environment.get. apply get_from_other_name, Hy.
  - intros a Ha. rewrite at_insert.
    rewrite bool_decide_eq_false_2 by (intros [? _]; congruence). reflexivity.
Qed.

(** A parameter named like a global: the declaration in the environment of
    the call is accepted, and the global keeps its value. *)
Lemma a_declaration_shadows_the_parent :
  let h := [ {| Environment.values := {["x" := VNumber 1]};
                Environment.constants := ∅; Environment.parent := None |};
             Environment.new (Some 0) ] in
  exists h',
    Environment.define 1 "x" (VNumber 2) false h = inr h' /\
    Environment.get 1 "x" h' = inr (VNumber 2) /\
    Environment.get 0 "x" h' = inr (VNumber 1).
Proof.
  intros h.
  destruct (proj2 (a_declaration_is_read_back h 1 "x" (VNumber 2) false
                     ltac:(simpl; lia)) eq_refl)
    as (h' & Hdef & _ & Hget & _ & Hother).
  exists h'. split; [exact Hdef|]. split; [exact Hget|].
  unfold Environment.get. simpl. rewrite (Hother 0) by lia. reflexivity.
Defined.

Lemma assign_from_writes_one h name v h' fuel : forall self,
  Environment.assign_from fuel h self name v = inr h' ->
  Environment.get_from fuel h' self name = inr v /\
  (exists old, Environment.get_from fuel h self name = inr old) /\
  exists q,
    h' = <[q := {| Environment.values :=
                     <[name := v]> (Environment.values (Environment.at_ h q));
                   Environment.constants := Environment.constants (Environment.at_ h q);
                   Environment.parent := Environment.parent (Environment.at_ h q) |}]> h /\
    Environment.has (Environment.at_ h q) name = true /\
    (Environment.has (Environment.at_ h self) name = true -> q = self).
Proof.
  induction fuel as [|f IH]; intros self; simpl;
    (destruct (bool_decide (name ∈ _)); [discriminate|]);
    destruct (Environment.has (Environment.at_ h self) name) eqn:Hhas.
  1, 3: intros [= <-]; pose proof (has_in_store _ _ _ Hhas) as Hlt;
    rewrite at_insert, bool_decide_eq_true_2 by auto; simpl; rewrite lookup_insert_eq;
    unfold Environment.has in Hhas; apply bool_decide_eq_true_1 in Hhas as [old Hold];
    rewrite Hold; (split; [reflexivity|]); (split; [eauto|]); exists self;
    (split; [reflexivity|]); (split; [|reflexivity]);
    unfold Environment.has; apply bool_decide_eq_true_2; eauto.
  - destruct (Environment.parent _); discriminate.
  - destruct (Environment.parent (Environment.at_ h self)) as [p|] eqn:Hp; [|discriminate].
    intros Hassign. destruct (IH p Hassign) as (Hget & [old Hold] & q & -> & Hq & Hfirst).
    assert (Environment.values (Environment.at_ h self) !! name = None) as Hnone.
    { unfold Environment.has in Hhas. apply bool_decide_eq_false_1 in Hhas.
      destruct (Environment.values _ !! name) eqn:E; [|reflexivity].
      exfalso. apply Hhas. eauto. }
    assert (self <> q) as Hne by (intros ->; congruence).
    rewrite at_insert, bool_decide_eq_false_2 by (intros [? _]; congruence).
    rewrite Hnone, Hp. split; [exact Hget|]. split; [eauto|].
    exists q. split; [reflexivity|]. split; [exact Hq|]. intros; discriminate.
Qed.

(** X2: an assignment that is accepted writes one environment: the nearest
    one on the chain that binds the name. The name then reads the new value;
    it was bound before (an assignment never creates a binding); every other
    name reads what it read before from everywhere; and when the current
    environment itself binds the name, no other environment is touched, so a
    local variable or a parameter protects an outer variable of the same
    name. *)
Theorem an_assignment_is_read_back h self name v h' :
  Environment.assign self name v h = inr h' ->
  Environment.get self name h' = inr v /\
  (exists old, Environment.get self name h = inr old) /\
  length h' = length h /\
  (forall y a, y <> name -> Environment.get a y h' = Environment.get a y h) /\
  (Environment.has (Environment.at_ h self) name = true ->
   forall a, a <> self -> Environment.at_ h' a = Environment.at_ h a).
Proof.
  unfold Environment.assign, Environment.get. intros Hassign.
  destruct (assign_from_writes_one _ _ _ _ _ _ Hassign) as (Hget & Hold & q & -> & Hq & Hfirst).
  split; [exact Hget|]. split; [exact Hold|]. split; [apply length_insert|]. split.
  - intros y a Hy. apply get_from_other_name, Hy.
  - intros Hhere a Ha. rewrite (Hfirst Hhere), at_insert.
    rewrite bool_decide_eq_false_2 by (intros [? _]; congruence). reflexivity.
Qed.

(** An assignment inside a call to a variable of the global environment
    reaches it through the chain. *)
Lemma an_assignment_reaches_the_global :
  let h := [ {| Environment.values := {["x" := VNumber 1]};
                Environment.constants := ∅; Environment.parent := None |};
             Environment.new (Some 0) ] in
  exists h',
    Environment.assign 1 "x" (VNumber 2) h = inr h' /\
    Environment.get 1 "x" h' = inr (VNumber 2) /\
    Environment.get 0 "x" h' = inr (VNumber 2).
Proof.
  intros h. eexists. split; [vm_compute; reflexivity|].
  split; [|vm_compute; reflexivity].
  eapply (an_assignment_is_read_back h 1 "x" (VNumber 2)). vm_compute. reflexivity.
Defined.

(** ** The interpreter: what is thrown, and where it leaves the scope *)

Section Thrown.
Import Interpreter.
Variable Math_pow : float -> float -> float.

Lemma unpositioned_bind {A B} (m : M A) (k : A -> M B) :
  throws_unpositioned m -> (forall a, throws_unpositioned (k a)) ->
  throws_unpositioned (bind m k).
Proof.
  intros Hm Hk st e st' H. unfold bind in H.
  destruct (m st) as [a st1|e1 st1|] eqn:E; try discriminate.
  - exact (Hk a st1 e st' H).
  - injection H as <- <-. exact (Hm st e1 st1 E).
Qed.

Lemma unpositioned_ret {A} (a : A) : throws_unpositioned (ret a).
Proof. intros st e st' H. discriminate. Qed.

Lemma unpositioned_throw {A} e : unpositioned e -> throws_unpositioned (@throw A e).
Proof. intros He st e' st' [= <- _]. exact He. Qed.

Lemma unpositioned_finally {A} (m : M A) restore :
  throws_unpositioned m -> throws_unpositioned (finally m restore).
Proof.
  intros Hm st e st' H. unfold finally in H.
  destruct (m st) as [a st1|e1 st1|] eqn:E; try discriminate.
  injection H as <- _. exact (Hm st e1 st1 E).
Qed.

Lemma unpositioned_define name w c :
  throws_unpositioned (fun st => onHeap (Environment.define (environment st) name w c) st).
Proof.
  intros st e st' H. unfold onHeap, Environment.define in H.
  destruct (Environment.has _ _); [|discriminate]. injection H as <- _. exact I.
Qed.

Lemma unpositioned_assign name w :
  throws_unpositioned (fun st => onHeap (Environment.assign (environment st) name w) st).
Proof.
  intros st e st' H. unfold onHeap, Environment.assign in H.
  assert (forall fuel h self e, Environment.assign_from fuel h self name w = inl e ->
                                unpositioned e) as Hassign.
  { induction fuel as [|f IH]; intros h self e0; simpl;
      (destruct (bool_decide _); [intros [= <-]; exact I|]);
      (destruct (Environment.has _ _); [discriminate|]);
      destruct (Environment.parent _); try (intros [= <-]; exact I). apply IH. }
  destruct (Environment.assign_from _ _ _ _ _) as [e0|h'] eqn:E; [|discriminate].
  injection H as <- _. exact (Hassign _ _ _ _ E).
Qed.

Lemma unpositioned_lookup name : throws_unpositioned (lookup name).
Proof.
  intros st e st' H. unfold lookup, Environment.get in H.
  assert (forall fuel h self e, Environment.get_from fuel h self name = inl e ->
                                unpositioned e) as Hget.
  { induction fuel as [|f IH]; intros h self e0; simpl;
      (destruct (Environment.values _ !! name); [discriminate|]);
      destruct (Environment.parent _); try (intros [= <-]; exact I). apply IH. }
  destruct (Environment.get_from _ _ _ _) as [e0|w] eqn:E; [|discriminate].
  injection H as <- _. exact (Hget _ _ _ _ E).
Qed.

Lemma unpositioned_binaryOperation operator l r :
  throws_unpositioned (lift (binaryOperation Math_pow operator l r)).
Proof.
  intros st e st' H. unfold lift in H.
  destruct (binaryOperation Math_pow operator l r) as [e0|w] eqn:E; [|discriminate].
  injection H as <- _. revert E. unfold binaryOperation, numeric, invalidBinary.
  destruct l, r;
    repeat match goal with
           | |- context [if ?b then _ else _] => destruct b
           end;
    intros [= <-]; exact I.
Qed.

Section Visitors.
Variable fuel : nat.
Variable vs : Statement -> M unit.
Variable ve : Expression -> M RuntimeValue.
Hypothesis Hvs : forall s, throws_unpositioned (vs s).
Hypothesis Hve : forall e, throws_unpositioned (ve e).

Lemma unpositioned_visitStatements l : throws_unpositioned (visitStatements vs l).
Proof.
  induction l as [|s l IH]; simpl; [apply unpositioned_ret|].
  apply unpositioned_bind; auto.
Qed.

(** The body of a loop or a call under its [catch], which rethrows or
    swallows what the body threw and throws nothing of its own. *)
Lemma unpositioned_caught {A} (b : list Statement) (onOk : t -> Result A)
    (onThrow : Thrown -> t -> Result A) :
  (forall st e st', onOk st = Throw e st' -> unpositioned e) ->
  (forall e0 st e st', unpositioned e0 -> onThrow e0 st = Throw e st' -> unpositioned e) ->
  throws_unpositioned (fun st => match visitStatements vs b st with
                                 | Ok _ st' => onOk st'
                                 | Throw e st' => onThrow e st'
                                 | OutOfFuel => OutOfFuel
                                 end).
Proof.
  intros Hok Hthrow st e st' H.
  destruct (visitStatements vs b st) as [[] st1|e1 st1|] eqn:E; try discriminate.
  - exact (Hok st1 e st' H).
  - exact (Hthrow e1 st1 e st' (unpositioned_visitStatements b st e1 st1 E) H).
Qed.

Lemma unpositioned_whileTurns n c b : throws_unpositioned (whileTurns vs ve n c b).
Proof.
  induction n as [|n IH]; simpl; [intros st e st' H; discriminate|].
  apply unpositioned_bind; [auto|]. intros v.
  destruct (isTruthy v); [|apply unpositioned_ret].
  intros st e st' H.
  destruct (visitStatements vs b st) as [[] st1|e1 st1|] eqn:E; try discriminate.
  - exact (IH st1 e st' H).
  - pose proof (unpositioned_visitStatements b st e1 st1 E) as He1.
    destruct e1; try discriminate. injection H as <- _. exact I.
Qed.

Lemma unpositioned_forTurns n variable b bound : forall i,
  throws_unpositioned (forTurns vs n variable b bound i).
Proof.
  induction n as [|n IH]; intros i; simpl; [intros st e st' H; discriminate|].
  destruct (PrimFloat.ltb i bound); [|apply unpositioned_ret].
  apply unpositioned_bind; [apply unpositioned_define|]. intros _.
  apply unpositioned_bind; [apply unpositioned_visitStatements|]. intros _. apply IH.
Qed.

Lemma unpositioned_visitArguments l : throws_unpositioned (visitArguments ve l).
Proof.
  induction l as [|a l IH]; simpl; [apply unpositioned_ret|].
  apply unpositioned_bind; [auto|]. intros v.
  apply unpositioned_bind; [auto|]. intros ws. apply unpositioned_ret.
Qed.

Lemma unpositioned_bindParameters ps : forall args,
  throws_unpositioned (bindParameters ps args).
Proof.
  induction ps as [|p ps IH]; intros [|a args]; simpl; try apply unpositioned_ret.
  apply unpositioned_bind; [apply unpositioned_define|]. intros _. apply IH.
Qed.

Lemma unpositioned_visitCallExpression callee args :
  throws_unpositioned (visitCallExpression vs ve callee args).
Proof.
  unfold visitCallExpression.
  destruct callee as [calleeName|]; [|apply unpositioned_throw; exact I].
  destruct (String.eqb calleeName "range").
  - destruct args as [|a [|]]; try (apply unpositioned_throw; exact I).
    apply unpositioned_bind; [auto|].
    intros []; try (apply unpositioned_throw; exact I). apply unpositioned_ret.
  - apply unpositioned_bind; [apply unpositioned_lookup|].
    intros []; try (apply unpositioned_throw; exact I).
    apply unpositioned_bind; [apply unpositioned_visitArguments|]. intros vals.
    destruct (negb _); [apply unpositioned_throw; exact I|].
    intros st. refine (unpositioned_bind _ _ _ _ st); [intros ? ? ? ?; discriminate|].
    intros _. apply unpositioned_bind; [apply unpositioned_bindParameters|]. intros _.
    apply unpositioned_finally.
    intros st1 e st' H.
    destruct (visitStatements vs (body v) st1) as [[] st2|e1 st2|] eqn:E; try discriminate.
    pose proof (unpositioned_visitStatements (body v) st1 e1 st2 E) as He1.
    destruct e1; try discriminate; injection H as <- _; exact He1.
Qed.

Lemma unpositioned_visitStatementBody s :
  throws_unpositioned (visitStatementBody fuel vs ve s).
Proof.
  destruct s; simpl.
  - apply unpositioned_bind; [auto|]. intros w. apply unpositioned_define.
  - apply unpositioned_bind; [auto|]. intros w. apply unpositioned_assign.
  - apply unpositioned_bind; [auto|]. intros c.
    destruct (isTruthy c); [apply unpositioned_visitStatements|].
    destruct elseBranch; [apply unpositioned_visitStatements | apply unpositioned_ret].
  - apply unpositioned_whileTurns.
  - apply unpositioned_bind; [auto|].
    intros []; try (apply unpositioned_throw; exact I).
    intros st. refine (unpositioned_finally _ _ _ st).
    apply unpositioned_bind; [intros ? ? ? ?; discriminate|]. intros _.
    apply unpositioned_forTurns.
  - intros st e st' H. unfold visitFunctionDeclaration in H.
    exact (unpositioned_define _ _ _ (with_functionCount (S (functionCount st)) st) e st' H).
  - apply unpositioned_bind; [|intros; apply unpositioned_throw; exact I].
    destruct v; [auto | apply unpositioned_ret].
  - apply unpositioned_bind; [auto|]. intros w st e st' H. discriminate.
  - apply unpositioned_bind; [auto|]. intros; apply unpositioned_ret.
Qed.

Lemma unpositioned_visitExpressionBody e :
  throws_unpositioned (visitExpressionBody Math_pow vs ve e).
Proof.
  destruct e; simpl.
  - apply unpositioned_bind; [auto|]. intros l.
    apply unpositioned_bind; [auto|]. intros r. apply unpositioned_binaryOperation.
  - apply unpositioned_bind; [auto|]. intros w.
    destruct (String.eqb operator "nahi"); [apply unpositioned_ret|].
    destruct (String.eqb operator "-"), w;
      first [apply unpositioned_ret | apply unpositioned_throw; exact I].
  - apply unpositioned_visitCallExpression.
  - apply unpositioned_lookup.
  - apply unpositioned_ret.
  - intros st e0 st' H. unfold visitInputStatement in H.
    destruct (inputCallback st); [destruct (_ && _); discriminate|].
    injection H as <- _. exact I.
Qed.

End Visitors.

Lemma visit_throws_unpositioned fuel :
  (forall s, throws_unpositioned (visitStatement Math_pow fuel s)) /\
  (forall e, throws_unpositioned (visitExpression Math_pow fuel e)).
Proof.
  induction fuel as [|f [IHs IHe]]; simpl.
  - split; intros ? st e st' H; discriminate.
  - split; intros.
    + apply unpositioned_visitStatementBody; auto.
    + apply unpositioned_visitExpressionBody; auto.
Qed.

End Thrown.

(** X3: nothing the interpreter throws is an [EasyLangError]: the
    branch of [interpret]'s [catch] that writes the type, the line and the
    column is never taken, and the error of a result is the bare message of
    the [Error] thrown, or the empty string of a return signal. *)
Theorem runtime_errors_carry_no_position Math_pow fuel program st r st' text :
  Interpreter.interpret Math_pow fuel program st = Some (r, st') ->
  result_error r = Some text ->
  exists e,
    Interpreter.run Math_pow fuel (program_body program) (Interpreter.with_output [] st) =
      Interpreter.Throw e st' /\
    unpositioned e /\
    text = match e with Error message => message | _ => "" end.
Proof.
  rewrite interpret_unfold. intros H Htext.
  destruct (Interpreter.run _ _ _ _) as [[] st1|e st1|] eqn:E; try discriminate.
  - injection H as <- <-. discriminate.
  - injection H as <- <-. injection Htext as <-. exists e. split; [reflexivity|].
    assert (unpositioned e) as He.
    { unfold Interpreter.run in E.
      exact (unpositioned_visitStatements (Interpreter.visitStatement Math_pow fuel)
               (proj1 (visit_throws_unpositioned Math_pow fuel)) _ _ _ _ E). }
    split; [exact He|]. destruct e; [reflexivity | reflexivity | contradiction].
Qed.

(** Scenario D: the error is the message alone. *)
Lemma division_error_has_no_position :
  exists e st',
    Interpreter.run Examples.pow 10 (program_body Examples.scenarioD_program)
      (Interpreter.with_output [] (Interpreter.new None)) = Interpreter.Throw e st' /\
    unpositioned e /\
    "Division by zero"%string = match e with Error message => message | _ => ""%string end.
Proof.
  eassert (Interpreter.interpret Examples.pow 10 Examples.scenarioD_program
             (Interpreter.new None) =
           Some ({| result_output := []; result_error := Some "Division by zero"%string |}, _))
    as H by (vm_compute; reflexivity).
  destruct (runtime_errors_carry_no_position _ _ _ _ _ _ _ H eq_refl) as (e & He).
  exists e. eexists. exact He.
Defined.

Section Scope.
Import Interpreter.
Variable Math_pow : float -> float -> float.

Lemma keeps_scope_bind {A B} (m : M A) (k : A -> M B) :
  keeps_scope m -> (forall a, keeps_scope (k a)) -> keeps_scope (bind m k).
Proof.
  intros Hm Hk st b st' H. unfold bind in H.
  destruct (m st) as [a st1|e st1|] eqn:E; try discriminate.
  rewrite (Hk a st1 b st' H). exact (Hm st a st1 E).
Qed.

Lemma keeps_scope_ret {A} (a : A) : keeps_scope (ret a).
Proof. intros st b st' [= _ <-]. reflexivity. Qed.

Lemma keeps_scope_throw {A} e : keeps_scope (@throw A e).
Proof. intros st b st' H. discriminate. Qed.

Lemma keeps_scope_lookup name : keeps_scope (lookup name).
Proof.
  intros st b st' H. unfold lookup in H.
  destruct (Environment.get _ _ _); [discriminate|]. injection H as _ <-. reflexivity.
Qed.

Lemma keeps_scope_lift r : keeps_scope (lift r).
Proof. destruct r; [apply keeps_scope_throw | apply keeps_scope_ret]. Qed.

Section Visitors.
Variable vs : Statement -> M unit.
Variable ve : Expression -> M RuntimeValue.
Hypothesis Hve : forall e, keeps_scope (ve e).

Lemma keeps_scope_visitArguments l : keeps_scope (visitArguments ve l).
Proof.
  induction l as [|a l IH]; simpl; [apply keeps_scope_ret|].
  apply keeps_scope_bind; [auto|]. intros v.
  apply keeps_scope_bind; [auto|]. intros ws. apply keeps_scope_ret.
Qed.

Lemma keeps_scope_visitCallExpression callee args :
  keeps_scope (visitCallExpression vs ve callee args).
Proof.
  unfold visitCallExpression. destruct callee as [calleeName|]; [|apply keeps_scope_throw].
  destruct (String.eqb calleeName "range").
  - destruct args as [|a [|]]; try apply keeps_scope_throw.
    apply keeps_scope_bind; [auto|]. intros []; try apply keeps_scope_throw.
    apply keeps_scope_ret.
  - apply keeps_scope_bind; [apply keeps_scope_lookup|].
    intros []; try apply keeps_scope_throw.
    apply keeps_scope_bind; [apply keeps_scope_visitArguments|]. intros vals.
    destruct (negb _); [apply keeps_scope_throw|].
    intros st b st' H. unfold bind, enter, finally in H.
    destruct (bindParameters _ _ _) as [[] st1|e st1|]; try discriminate.
    destruct (visitStatements vs (body v) st1) as [[] st2|e st2|]; try discriminate.
    + injection H as _ <-. reflexivity.
    + destruct e; try discriminate. injection H as _ <-. reflexivity.
Qed.

Lemma keeps_scope_visitExpressionBody e :
  keeps_scope (visitExpressionBody Math_pow vs ve e).
Proof.
  destruct e; simpl.
  - apply keeps_scope_bind; [auto|]. intros l.
    apply keeps_scope_bind; [auto|]. intros r. apply keeps_scope_lift.
  - apply keeps_scope_bind; [auto|]. intros w.
    destruct (String.eqb operator "nahi"); [apply keeps_scope_ret|].
    destruct (String.eqb operator "-"), w;
      first [apply keeps_scope_ret | apply keeps_scope_throw].
  - apply keeps_scope_visitCallExpression.
  - apply keeps_scope_lookup.
  - apply keeps_scope_ret.
  - intros st b st' H. unfold visitInputStatement in H.
    destruct (inputCallback st); [|discriminate].
    destruct (_ && _); injection H as _ <-; reflexivity.
Qed.

End Visitors.

Lemma visitExpression_keeps_scope fuel e :
  keeps_scope (visitExpression Math_pow fuel e).
Proof.
  revert e. induction fuel as [|f IH]; intros e; simpl.
  - intros st b st' H. discriminate.
  - apply keeps_scope_visitExpressionBody. exact IH.
Qed.

End Scope.

(** X4: an expression that returns a value leaves the interpreter in
    the environment it was evaluated in: a call restores the caller's
    environment whatever its body did. A loop over a range whose iterable
    has evaluated restores it too, whether the loop completes or throws. *)
Theorem a_value_comes_back_to_the_same_scope Math_pow fuel :
  (forall e st v st',
     Interpreter.visitExpression Math_pow fuel e st = Interpreter.Ok v st' ->
     Interpreter.environment st' = Interpreter.environment st) /\
  (forall variable iterable body position st bound st1,
     Interpreter.visitExpression Math_pow fuel iterable st =
       Interpreter.Ok (VRange bound) st1 ->
     match Interpreter.visitStatement Math_pow (S fuel)
             (ForLoop variable iterable body position) st with
     | Interpreter.Ok _ st' | Interpreter.Throw _ st' =>
         Interpreter.environment st' = Interpreter.environment st
     | Interpreter.OutOfFuel => True
     end).
Proof.
  split.
  - intros e. apply visitExpression_keeps_scope.
  - intros variable iterable body position st bound st1 Hit. simpl.
    unfold Interpreter.visitForLoop, Interpreter.bind at 1. rewrite Hit.
    unfold Interpreter.finally.
    rewrite <- (visitExpression_keeps_scope Math_pow fuel iterable st _ st1 Hit).
    destruct (Interpreter.bind _ _ st1) as [[] st'|e st'|]; reflexivity || exact I.
Qed.

(** The call of the closure in [Examples.closureProgram] returns 6 to the
    global environment, from which it was made. *)
Lemma the_closure_call_comes_back :
  exists st',
    Interpreter.visitExpression Examples.pow 6
      (CallExpression (Some "g"%string) [] Examples.at11) Examples.before_closure_call =
      Interpreter.Ok (VNumber 6) st' /\
    Interpreter.environment st' = Interpreter.environment Examples.before_closure_call.
Proof.
  eassert (Interpreter.visitExpression Examples.pow 6
             (CallExpression (Some "g"%string) [] Examples.at11)
             Examples.before_closure_call = Interpreter.Ok (VNumber 6) _) as E
    by (vm_compute; reflexivity).
  eexists. split; [exact E|].
  exact (proj1 (a_value_comes_back_to_the_same_scope Examples.pow 6) _ _ _ _ E).
Defined.

(** ** Calls: a repeated parameter, and where a return ends *)

Lemma bindParameters_stops_at_a_duplicate pre :
  forall vals h values0 constants0 parent0 st p post,
  Interpreter.heap st =
    h ++ [ {| Environment.values := values0; Environment.constants := constants0;
              Environment.parent := parent0 |} ] ->
  Interpreter.environment st = length h ->
  NoDup pre -> (forall q, q ∈ pre -> values0 !! q = None) ->
  p ∈ pre \/ is_Some (values0 !! p) ->
  length pre < length vals ->
  Interpreter.bindParameters (pre ++ p :: post) vals st =
    Interpreter.Throw (Error ("Variable '" ++ p ++ "' already defined")%string)
      (Interpreter.with_heap
         (h ++ [ {| Environment.values := bindAll pre vals values0;
                    Environment.constants := constants0;
                    Environment.parent := parent0 |} ]) st).
Proof.
  induction pre as [|q pre IH]; intros [|v vals] h values0 constants0 parent0 st p post
    Hheap Henv Hnd Hfresh Hp Hlen; simpl in Hlen; try lia; simpl.
  - unfold Interpreter.bind, Interpreter.onHeap, Environment.define.
    rewrite Henv, Hheap, at_last. unfold Environment.has. simpl.
    destruct Hp as [Hp|Hp]; [set_solver|].
    rewrite bool_decide_eq_true_2 by exact Hp.
    destruct st; simpl in *; subst; reflexivity.
  - apply NoDup_cons in Hnd as [Hq Hnd].
    unfold Interpreter.bind at 1. unfold Interpreter.onHeap, Environment.define.
    rewrite Henv, Hheap, at_last. unfold Environment.has. simpl.
    rewrite (Hfresh q) by set_solver.
    rewrite bool_decide_eq_false_2 by (intros [? ?]; discriminate).
    rewrite insert_last.
    erewrite IH; simpl; eauto; try lia.
    + intros r Hr. rewrite lookup_insert_ne by set_solver. apply Hfresh. set_solver.
    + destruct (decide (p = q)) as [->|Hne].
      * right. rewrite lookup_insert_eq. eauto.
      * destruct Hp as [Hp|Hp]; [left; set_solver|].
        right. rewrite lookup_insert_ne by congruence. exact Hp.
Qed.

(** X5: a call of a function declared with a parameter name twice
    (the parser accepts the declaration) throws when the second occurrence
    is bound, and this happens before the [try] whose [finally] restores the
    caller's environment: the interpreter is left in the environment made for
    the call, a new one whose parent is the function's closure, and whatever
    runs next on this interpreter runs there. *)
Theorem a_repeated_parameter_abandons_the_scope Math_pow fuel g arguments position
    st func vals st1 pre p post :
  String.eqb g "range" = false ->
  Environment.get (Interpreter.environment st) g (Interpreter.heap st) =
    inr (VFunction func) ->
  Interpreter.visitArguments (Interpreter.visitExpression Math_pow fuel) arguments st =
    Interpreter.Ok vals st1 ->
  length vals = length (parameters func) ->
  parameters func = pre ++ p :: post -> NoDup pre -> p ∈ pre ->
  exists st2,
    Interpreter.visitExpression Math_pow (S fuel)
      (CallExpression (Some g) arguments position) st =
      Interpreter.Throw (Error ("Variable '" ++ p ++ "' already defined")%string) st2 /\
    Interpreter.environment st2 = length (Interpreter.heap st1) /\
    length (Interpreter.heap st2) = S (length (Interpreter.heap st1)) /\
    Environment.parent (Environment.at_ (Interpreter.heap st2) (Interpreter.environment st2)) =
      Some (closure func) /\
    Interpreter.output st2 = Interpreter.output st1.
Proof.
  intros Hg Hget Hargs Hlen Hps Hnd Hp.
  eexists. split.
  - simpl. unfold Interpreter.visitCallExpression. rewrite Hg.
    unfold Interpreter.bind at 1. unfold Interpreter.lookup. rewrite Hget.
    unfold Interpreter.bind at 1. rewrite Hargs.
    rewrite Hlen, Nat.eqb_refl. cbn [negb]. cbv beta iota.
    unfold Interpreter.bind at 1. unfold Interpreter.enter.
    unfold Interpreter.bind at 1. rewrite Hps.
    erewrite (bindParameters_stops_at_a_duplicate pre vals (Interpreter.heap st1) ∅ ∅
                (Some (closure func))); simpl; auto.
    rewrite Hlen, Hps, length_app. simpl. lia.
  - simpl. rewrite length_app, at_last. simpl. repeat split; lia.
Qed.

(** [f ka system (a, a) { return a }], then [f(1, 2)] from the global
    environment: the call throws and leaves the interpreter in environment 1. *)
Lemma a_call_of_f_a_a_abandons_the_scope :
  exists st2,
    Interpreter.visitExpression Examples.pow 5
      (CallExpression (Some "f"%string)
         [Literal (LNumber 1) Examples.at11; Literal (LNumber 2) Examples.at11]
         Examples.at11) MoreExamples.after_twice =
      Interpreter.Throw (Error ("Variable '" ++ "a" ++ "' already defined")%string) st2 /\
    Interpreter.environment st2 = length (Interpreter.heap MoreExamples.after_twice).
Proof.
  destruct (a_repeated_parameter_abandons_the_scope Examples.pow 4 "f"
              [Literal (LNumber 1) Examples.at11; Literal (LNumber 2) Examples.at11]
              Examples.at11 MoreExamples.after_twice MoreExamples.twice_function
              [VNumber 1; VNumber 2] MoreExamples.after_twice ["a"%string] "a" [])
    as (st2 & Hcall & Henv & _).
  - reflexivity.
  - vm_compute. reflexivity.
  - vm_compute. reflexivity.
  - vm_compute. reflexivity.
  - vm_compute. reflexivity.
  - apply NoDup_singleton.
  - apply list_elem_of_here.
  - exists st2. split; [exact Hcall | exact Henv].
Defined.

Lemma a_call_enters_the_body Math_pow fuel g arguments position st func vals st1 :
  String.eqb g "range" = false ->
  Environment.get (Interpreter.environment st) g (Interpreter.heap st) =
    inr (VFunction func) ->
  Interpreter.visitArguments (Interpreter.visitExpression Math_pow fuel) arguments st =
    Interpreter.Ok vals st1 ->
  length vals = length (parameters func) ->
  NoDup (parameters func) ->
  Interpreter.visitExpression Math_pow (S fuel)
    (CallExpression (Some g) arguments position) st =
    Interpreter.finally (callBody Math_pow fuel func)
      (Interpreter.with_environment (Interpreter.environment st1))
      (calleeState func vals st1).
Proof.
  intros Hg Hget Hargs Hlen Hnd.
  simpl. unfold Interpreter.visitCallExpression. rewrite Hg.
  unfold Interpreter.bind at 1. unfold Interpreter.lookup. rewrite Hget.
  unfold Interpreter.bind at 1. rewrite Hargs.
  rewrite Hlen, Nat.eqb_refl. cbn [negb]. cbv beta iota.
  unfold Interpreter.bind at 1. unfold Interpreter.enter.
  unfold Interpreter.bind at 1.
  erewrite (bindParameters_fresh (parameters func) vals (Interpreter.heap st1) ∅ ∅
              (Some (closure func))); simpl; auto.
Qed.

(** X6: a return signal never leaves an expression: the call whose
    body threw it catches it. When the statements of the body before a
    statement have completed and that statement throws the signal, however
    deep in conditionals and loops the return statement lies, the call
    expression returns the value the signal carries, in the caller's
    environment, and none of the statements that follow in the body has
    run. *)
Theorem a_return_ends_exactly_one_call Math_pow fuel :
  (forall e st v st',
     Interpreter.visitExpression Math_pow fuel e st <>
     Interpreter.Throw (ReturnException v) st') /\
  (forall g arguments position st func vals st1 pre s post st2 v st3,
     String.eqb g "range" = false ->
     Environment.get (Interpreter.environment st) g (Interpreter.heap st) =
       inr (VFunction func) ->
     Interpreter.visitArguments (Interpreter.visitExpression Math_pow fuel) arguments st =
       Interpreter.Ok vals st1 ->
     length vals = length (parameters func) ->
     NoDup (parameters func) ->
     body func = pre ++ s :: post ->
     Interpreter.run Math_pow fuel pre (calleeState func vals st1) = Interpreter.Ok tt st2 ->
     Interpreter.visitStatement Math_pow fuel s st2 =
       Interpreter.Throw (ReturnException v) st3 ->
     Interpreter.visitExpression Math_pow (S fuel)
       (CallExpression (Some g) arguments position) st =
       Interpreter.Ok v (Interpreter.with_environment (Interpreter.environment st1) st3)).
Proof.
  split.
  - intros e. apply calls_contain_return.
  - intros g arguments position st func vals st1 pre s post st2 v st3
      Hg Hget Hargs Hlen Hnd Hbody Hpre Hs.
    rewrite (a_call_enters_the_body _ _ _ _ _ _ _ _ _ Hg Hget Hargs Hlen Hnd).
    unfold Interpreter.finally, callBody.
    rewrite Hbody. erewrite run_until_throw by eassumption. reflexivity.
Qed.

(** [f], whose body is a loop that returns 9, followed by a print: the call
    gives 9 and nothing is printed. *)
Lemma a_return_inside_a_loop_ends_the_call :
  exists st',
    Interpreter.visitExpression Examples.pow 6
      (CallExpression (Some "f"%string) [] Examples.at11) MoreExamples.after_declaring_f =
      Interpreter.Ok (VNumber 9) st' /\
    Interpreter.output st' = [].
Proof.
  eassert (Interpreter.visitStatement Examples.pow 5
             (WhileLoop (Literal (LBoolean true) Examples.at11)
                [ReturnStatement (Some (Literal (LNumber 9) Examples.at11)) Examples.at11]
                Examples.at11)
             (calleeState MoreExamples.returns_from_a_loop [] MoreExamples.after_declaring_f) =
           Interpreter.Throw (ReturnException (VNumber 9)) _) as Hs
    by (vm_compute; reflexivity).
  eexists. split.
  - eapply (proj2 (a_return_ends_exactly_one_call Examples.pow 5) "f"%string [] Examples.at11
              MoreExamples.after_declaring_f MoreExamples.returns_from_a_loop []
              MoreExamples.after_declaring_f []).
    + reflexivity.
    + vm_compute. reflexivity.
    + reflexivity.
    + reflexivity.
    + apply NoDup_nil_2.
    + reflexivity.
    + reflexivity.
    + exact Hs.
  - vm_compute. reflexivity.
Defined.

(** ** Arithmetic: division and remainder by zero *)

Lemma remainder_by_zero a :
  JS.remainder a 0 = nan /\ JS.remainder a neg_zero = nan.
Proof.
  unfold JS.remainder.
  replace (Prim2SF 0) with (S754_zero false) by (vm_compute; reflexivity).
  replace (Prim2SF neg_zero) with (S754_zero true) by (vm_compute; reflexivity).
  destruct (Prim2SF a); split; reflexivity.
Qed.



(** ** Input *)

Lemma same_callback_respects_writes : respects_writes same_callback.
Proof.
  split; unfold same_callback; simpl; try reflexivity; try congruence.
Qed.

(** X8: an interpreter built without an input callback never gets one,
    so every input expression it evaluates throws. [executeCode] and the
    REPL build their interpreters without a callback: in the application
    [puchho] always fails. *)
Theorem input_is_unavailable_without_a_callback Math_pow fuel :
  (forall prompt position st,
     Interpreter.inputCallback st = None ->
     Interpreter.visitExpression Math_pow (S fuel) (InputStatement prompt position) st =
       Interpreter.Throw (Error "Input not available in this context") st) /\
  (forall statements st,
     Interpreter.inputCallback st = None ->
     match Interpreter.run Math_pow fuel statements st with
     | Interpreter.Ok _ st' | Interpreter.Throw _ st' => Interpreter.inputCallback st' = None
     | Interpreter.OutOfFuel => True
     end) /\
  (forall interpreter code result interpreter',
     Interpreter.inputCallback interpreter = None ->
     App.submit Math_pow fuel interpreter code = App.Returned result interpreter' ->
     Interpreter.inputCallback interpreter' = None).
Proof.
  assert (forall statements st,
     Interpreter.inputCallback st = None ->
     match Interpreter.run Math_pow fuel statements st with
     | Interpreter.Ok _ st' | Interpreter.Throw _ st' => Interpreter.inputCallback st' = None
     | Interpreter.OutOfFuel => True
     end) as Hrun.
  { intros statements st Hnone.
    pose proof (run_respects Math_pow same_callback fuel statements
                  same_callback_respects_writes st) as H.
    destruct (Interpreter.run Math_pow fuel statements st) as [[] st'|e st'|];
      simpl in H; unfold same_callback in H; congruence || exact I. }
  split; [|split; [exact Hrun|]].
  - intros prompt position st Hnone. simpl. unfold Interpreter.visitInputStatement.
    rewrite Hnone. reflexivity.
  - intros interpreter code result interpreter' Hnone. unfold App.submit.
    destruct (Lexer.tokenize code); try discriminate.
    destruct (Parser.parse ts); try discriminate.
    rewrite interpret_unfold.
    specialize (Hrun (program_body program) (Interpreter.with_output [] interpreter) Hnone).
    destruct (Interpreter.run _ _ _ _) as [[] st'|e st'|]; try discriminate;
      intros [= _ <-]; exact Hrun.
Qed.

(** [likho puchho "Name?"] in the editor. *)
Lemma input_fails_in_the_editor :
  Interpreter.visitExpression Examples.pow 1 (InputStatement "Name?" Examples.at11)
    (Interpreter.new None) =
    Interpreter.Throw (Error "Input not available in this context") (Interpreter.new None).
Proof.
  exact (proj1 (input_is_unavailable_without_a_callback Examples.pow 0)
           "Name?"%string Examples.at11 (Interpreter.new None) eq_refl).
Defined.

(** ** What the console shows *)

(** X9: when a return signal escapes a top-level statement, the
    result's error is the empty string, which the console (and the REPL)
    test for truth: no error is shown, and the console looks as it does after
    a run that succeeded with the same lines. *)
Theorem a_top_level_return_is_shown_as_success Math_pow fuel pre s post at_ st st1 w st2 :
  Interpreter.run Math_pow fuel pre (Interpreter.with_output [] st) = Interpreter.Ok tt st1 ->
  Interpreter.visitStatement Math_pow fuel s st1 = Interpreter.Throw (ReturnException w) st2 ->
  exists r,
    Interpreter.interpret Math_pow fuel
      {| program_body := pre ++ s :: post; program_position := at_ |} st = Some (r, st2) /\
    result_error r = Some ""%string /\
    OutputConsole.render (result_output r) (result_error r) =
      OutputConsole.render (Interpreter.output st2) None.
Proof.
  intros Hpre Hs.
  destruct (interpret_after_a_throw Math_pow fuel pre s post at_ st st1
              (ReturnException w) st2 Hpre Hs) as [Hi _].
  eexists. split; [exact Hi|]. split; [reflexivity|]. reflexivity.
Qed.

(** [likho 1], [return 5], [likho 2] in the editor: the console shows the
    line 1 and no error. *)
Lemma the_console_after_a_top_level_return :
  exists r st2,
    Interpreter.interpret Examples.pow 3
      {| program_body := [Examples.print_of 1] ++ Examples.return_five :: [Examples.print_of 2];
         program_position := Examples.at11 |} (Interpreter.new None) = Some (r, st2) /\
    OutputConsole.render (result_output r) (result_error r) =
      OutputConsole.Lines ["1"%string] None.
Proof.
  eassert (Interpreter.run Examples.pow 3 [Examples.print_of 1]
             (Interpreter.with_output [] (Interpreter.new None)) = Interpreter.Ok tt _) as Hpre
    by (vm_compute; reflexivity).
  eassert (Interpreter.visitStatement Examples.pow 3 Examples.return_five _ =
           Interpreter.Throw (ReturnException (VNumber 5)) _) as Hs
    by (vm_compute; reflexivity).
  destruct (a_top_level_return_is_shown_as_success Examples.pow 3 _ _ [Examples.print_of 2]
              Examples.at11 _ _ _ _ Hpre Hs) as (r & Hi & _ & Hview).
  exists r. eexists. split; [exact Hi|]. rewrite Hview. reflexivity.
Defined.

(** ** The REPL's command history *)

Lemma recall_in_bounds commandHistory i :
  (0 <= i < Z.of_nat (length commandHistory))%Z -> is_Some (REPL.recall commandHistory i).
Proof.
  intros Hi. unfold REPL.recall.
  rewrite (proj2 (Z.ltb_ge i 0)) by lia.
  apply lookup_lt_is_Some. lia.
Qed.

Lemma handle_keeps_history_in_bounds Math_pow fuel event st st' :
  history_in_bounds st ->
  REPL.handle Math_pow fuel event st = Some st' ->
  history_in_bounds st'.
Proof.
  intros Hst. pose proof Hst as [Hindex Hinput]. destruct event as [[| | |]|text|]; simpl.
  - destruct (REPL.currentInput st) as [input|] eqn:Ein; [|discriminate].
    unfold REPL.executeCommand. destruct (REPL.blank input).
    + intros [= <-]. exact Hst.
    + destruct (App.submit _ _ _ _); try discriminate; intros [= <-];
        (split; [left; reflexivity | simpl; eauto]).
  - destruct (0 <? length (REPL.commandHistory st))%nat eqn:E;
      [|intros [= <-]; exact Hst].
    apply Nat.ltb_lt in E. intros [= <-]. simpl.
    assert (0 <= (if (REPL.historyIndex st =? -1)%Z
                  then Z.of_nat (length (REPL.commandHistory st)) - 1
                  else Z.max 0 (REPL.historyIndex st - 1))
            < Z.of_nat (length (REPL.commandHistory st)))%Z as Hnew.
    { destruct (REPL.historyIndex st =? -1)%Z eqn:E1; [lia|].
      apply Z.eqb_neq in E1. lia. }
    split; [right; exact Hnew | apply recall_in_bounds; exact Hnew].
  - destruct (0 <=? REPL.historyIndex st)%Z eqn:E;
      [|intros [= <-]; exact Hst].
    apply Z.leb_le in E.
    destruct (Z.of_nat (length (REPL.commandHistory st)) <=? REPL.historyIndex st + 1)%Z eqn:E1;
      intros [= <-]; simpl.
    + split; [left; reflexivity | eauto].
    + apply Z.leb_gt in E1.
      split; simpl; [right; lia | apply recall_in_bounds; lia].
  - intros [= <-]. exact Hst.
  - intros [= <-]. split; [exact Hindex | simpl; eauto].
  - intros [= <-]. split; [left; reflexivity | simpl; eauto].
Qed.

Lemma pressed_up_recalls Math_pow fuel k : forall st,
  (0 <= REPL.historyIndex st < Z.of_nat (length (REPL.commandHistory st)))%Z ->
  exists st',
    REPL.pressed Math_pow fuel REPL.ArrowUp k st = Some st' /\
    REPL.commandHistory st' = REPL.commandHistory st /\
    REPL.historyIndex st' = Z.max 0 (REPL.historyIndex st - Z.of_nat k) /\
    (0 < k -> REPL.currentInput st' =
              REPL.commandHistory st !! Z.to_nat (Z.max 0 (REPL.historyIndex st - Z.of_nat k))).
Proof.
  induction k as [|k IH]; intros st Hi.
  - exists st. split; [reflexivity|]. split; [reflexivity|]. split; [lia | lia].
  - cbn [REPL.pressed REPL.handleKeyDown].
    rewrite (proj2 (Nat.ltb_lt 0 _)) by lia.
    rewrite (proj2 (Z.eqb_neq _ _)) by lia.
    set (s1 := REPL.mk _ _ _ _ _).
    destruct (IH s1) as (st' & Hp & Hc & Hidx & Hin); [unfold s1; simpl; lia|].
    exists st'. split; [exact Hp|].
    change (REPL.commandHistory s1) with (REPL.commandHistory st) in *.
    change (REPL.historyIndex s1) with (Z.max 0 (REPL.historyIndex st - 1)) in *.
    split; [exact Hc|]. split; [rewrite Hidx; lia|]. intros _.
    destruct k as [|k].
    + injection Hp as <-. unfold s1. cbn [REPL.currentInput]. unfold REPL.recall.
      rewrite (proj2 (Z.ltb_ge _ 0)) by lia. f_equal; lia.
    + rewrite Hin by lia. f_equal; lia.
Qed.

(** X10: whatever the user types and presses, the history index of
    the REPL stays -1 or an index of the command history, and the input field
    never receives [undefined]. With [n] commands entered and the index at
    -1, pressing the up arrow [k + 1] times recalls the command [k] places
    before the last, and the oldest one once [k] reaches [n - 1]. *)
Theorem the_command_history_stays_in_bounds Math_pow fuel :
  (forall events st,
     REPL.session Math_pow fuel events REPL.new = Some st -> history_in_bounds st) /\
  (forall st k,
     REPL.historyIndex st = (-1)%Z -> 0 < length (REPL.commandHistory st) ->
     exists st',
       REPL.pressed Math_pow fuel REPL.ArrowUp (S k) st = Some st' /\
       REPL.currentInput st' =
         REPL.commandHistory st !! (length (REPL.commandHistory st) - 1 - k)).
Proof.
  split.
  - assert (forall events st st', history_in_bounds st ->
              REPL.session Math_pow fuel events st = Some st' -> history_in_bounds st') as H.
    { induction events as [|event events IH]; intros st st' Hst; simpl.
      - intros [= <-]. exact Hst.
      - destruct (REPL.handle Math_pow fuel event st) as [st1|] eqn:E; [|discriminate].
        apply IH. eapply handle_keeps_history_in_bounds; eassumption. }
    intros events st. apply H. split; [left; reflexivity | simpl; eauto].
  - intros st k Hidx Hlen. cbn [REPL.pressed REPL.handleKeyDown].
    rewrite (proj2 (Nat.ltb_lt 0 _)) by lia. rewrite Hidx, Z.eqb_refl.
    set (s1 := REPL.mk _ _ _ _ _).
    destruct (pressed_up_recalls Math_pow fuel k s1) as (st' & Hp & Hc & Hi & Hin);
      [unfold s1; simpl; lia|].
    exists st'. split; [exact Hp|].
    change (REPL.commandHistory s1) with (REPL.commandHistory st) in *.
    change (REPL.historyIndex s1)
      with (Z.of_nat (length (REPL.commandHistory st)) - 1)%Z in *.
    destruct k as [|k].
    + injection Hp as <-. unfold s1. cbn [REPL.currentInput]. unfold REPL.recall.
      rewrite (proj2 (Z.ltb_ge _ 0)) by lia. f_equal; lia.
    + rewrite Hin by lia. f_equal; lia.
Qed.

(** Two commands entered, then the up arrow three times: the first command
    is in the input field. *)
Lemma up_three_times_after_two_commands :
  exists st st',
    REPL.session Examples.pow 10
      [REPL.Typed "banao x = 5"; REPL.Pressed REPL.Enter;
       REPL.Typed "likho x"; REPL.Pressed REPL.Enter] REPL.new = Some st /\
    REPL.pressed Examples.pow 10 REPL.ArrowUp 3 st = Some st' /\
    REPL.currentInput st' = Some "banao x = 5"%string.
Proof.
  eassert (REPL.session Examples.pow 10
             [REPL.Typed "banao x = 5"; REPL.Pressed REPL.Enter;
              REPL.Typed "likho x"; REPL.Pressed REPL.Enter] REPL.new = Some _) as Hs
    by (vm_compute; reflexivity).
  match type of Hs with
  | _ = Some ?s =>
      destruct (proj2 (the_command_history_stays_in_bounds Examples.pow 10) s 2
                  eq_refl (le_S _ _ (le_n 1))) as (st' & Hp & Hin);
      exists s, st'
  end.
  split; [exact Hs|]. split; [exact Hp|]. rewrite Hin. reflexivity.
Defined.

(** ** The lexer: the shape of the token array *)

Lemma nesting_app a : forall d b,
  nesting d (a ++ b) = match nesting d a with Some d' => nesting d' b | None => None end.
Proof.
  induction a as [|t a IH]; intros d b; simpl; [reflexivity|].
  destruct (type t); try apply IH. destruct d; [reflexivity | apply IH].
Qed.

Lemma nesting_ordinary added : forall d,
  Forall (fun t => ordinary (type t) = true) added -> nesting d added = Some d.
Proof.
  induction added as [|t added IH]; intros d H; [reflexivity|].
  apply Forall_cons in H as [Ht H]. simpl.
  destruct (type t); try discriminate Ht; apply IH, H.
Qed.

Lemma nesting_dedents added : forall k d,
  map type added = replicate k DEDENT -> k <= d -> nesting d added = Some (d - k).
Proof.
  induction added as [|t added IH]; intros [|k] d H Hk; try discriminate; simpl.
  - f_equal. lia.
  - simpl in H. injection H as Ht H. rewrite Ht.
    destruct d as [|d]; [lia|]. rewrite (IH k d H) by lia. reflexivity.
Qed.

Lemma dedents_are_not_EOF added k :
  map type added = replicate k DEDENT -> Forall (fun t => type t <> EOF) added.
Proof.
  revert k. induction added as [|t added IH]; intros [|k] H; try discriminate;
    constructor.
  - simpl in H. injection H as Ht _. rewrite Ht. discriminate.
  - simpl in H. injection H as _ H. exact (IH k H).
Qed.

Lemma ordinary_are_not_EOF added :
  Forall (fun t => ordinary (type t) = true) added -> Forall (fun t => type t <> EOF) added.
Proof.
  intros H. eapply Forall_impl; [exact H|]. intros t Ht E. simpl in Ht. rewrite E in Ht. discriminate.
Qed.

Lemma increasing_app_last l x :
  increasing l -> (l <> [] -> List.last l 0 < x) -> increasing (l ++ [x]).
Proof.
  induction l as [|a [|b l] IH]; intros Hl Hx; simpl.
  - exact I.
  - split; [|exact I]. apply Hx. discriminate.
  - destruct Hl as [Hab Hl]. split; [exact Hab|]. apply IH; [exact Hl|].
    intros _. apply Hx. discriminate.
Qed.

Lemma increasing_prefix p : forall l, p `prefix_of` l -> increasing l -> increasing p.
Proof.
  induction p as [|a [|b p] IH]; intros l [r ->] Hl; simpl; try exact I.
  simpl in Hl. destruct Hl as [Hab Hl]. split; [exact Hab|].
  apply (IH ((b :: p) ++ r)); [eexists; reflexivity | exact Hl].
Qed.

Lemma increasing_last a l :
  increasing (a :: l) -> l <> [] -> a < List.last (a :: l) 0.
Proof.
  revert a. induction l as [|b l IH]; intros a Hl Hne; [congruence|].
  destruct Hl as [Hab Hl]. destruct l as [|c l]; [exact Hab|].
  specialize (IH b Hl ltac:(discriminate)).
  change (List.last (a :: b :: c :: l) 0) with (List.last (b :: c :: l) 0). lia.
Qed.

Lemma adds_ordinary_refl lx : adds_ordinary lx lx.
Proof. split; [reflexivity|]. exists []. rewrite app_nil_r. auto. Qed.

Lemma adds_ordinary_trans a b c :
  adds_ordinary a b -> adds_ordinary b c -> adds_ordinary a c.
Proof.
  intros [Hs1 (x & Ht1 & Hx)] [Hs2 (y & Ht2 & Hy)]. split; [congruence|].
  exists (x ++ y). rewrite Ht2, Ht1, app_assoc. split; [reflexivity|].
  apply Forall_app; auto.
Qed.

Lemma adds_ordinary_addToken ty v a b :
  ordinary ty = true -> adds_ordinary a b -> adds_ordinary a (Lexer.addToken ty v b).
Proof.
  intros H Hab. eapply adds_ordinary_trans; [exact Hab|].
  split; [reflexivity|]. eexists. split; [reflexivity|]. repeat constructor. exact H.
Qed.

Lemma adds_ordinary_same a b :
  Lexer.tokens b = Lexer.tokens a -> Lexer.indentStack b = Lexer.indentStack a ->
  adds_ordinary a b.
Proof. intros Ht Hs. split; [exact Hs|]. exists []. rewrite app_nil_r. auto. Qed.

Lemma adds_ordinary_advance lx : adds_ordinary lx (snd (Lexer.advance lx)).
Proof. apply adds_ordinary_same; reflexivity. Qed.

Lemma adds_ordinary_match expected lx : adds_ordinary lx (snd (Lexer.match_ expected lx)).
Proof.
  unfold Lexer.match_. destruct (Lexer.isAtEnd lx); [apply adds_ordinary_refl|].
  destruct (JS.charAt _ _) as [c|]; [|apply adds_ordinary_refl].
  destruct (Ascii.eqb c expected); [|apply adds_ordinary_refl].
  apply adds_ordinary_same; reflexivity.
Qed.

Lemma adds_ordinary_advanceWhile cond fuel : forall lx,
  adds_ordinary lx (Lexer.advanceWhile cond fuel lx).
Proof.
  induction fuel as [|f IH]; intros lx; simpl; [apply adds_ordinary_refl|].
  destruct (cond lx); [|apply adds_ordinary_refl].
  eapply adds_ordinary_trans; [apply adds_ordinary_advance | apply IH].
Qed.

Lemma adds_ordinary_stringBody fuel : forall lx,
  adds_ordinary lx (Lexer.stringBody fuel lx).
Proof.
  induction fuel as [|f IH]; intros lx; simpl; [apply adds_ordinary_refl|].
  destruct (_ && _); [|apply adds_ordinary_refl].
  eapply adds_ordinary_trans; [|apply IH].
  destruct (Ascii.eqb _ _); apply adds_ordinary_same; reflexivity.
Qed.

Lemma adds_ordinary_compound second ty merged lx :
  ordinary ty = true ->
  adds_ordinary lx (snd (Lexer.compound second ty merged lx)) /\
  forall lx', fst (Lexer.compound second ty merged lx) = Some lx' -> adds_ordinary lx lx'.
Proof.
  intros H. unfold Lexer.compound. cbv zeta. destruct (String.eqb _ _); cbn [fst snd].
  - split; [apply adds_ordinary_same; reflexivity|].
    intros lx' [= <-]. apply adds_ordinary_addToken; [exact H|].
    apply adds_ordinary_same; reflexivity.
  - split; [apply adds_ordinary_same; reflexivity | discriminate].
Qed.

Lemma adds_ordinary_compounds text first second ty merged a b (k : Lexer.t -> Lexer.t) :
  ordinary ty = true ->
  adds_ordinary a b ->
  (forall l, adds_ordinary a l -> adds_ordinary a (k l)) ->
  adds_ordinary a
    (let '(done, l) :=
       if String.eqb text first && Ascii.eqb (Lexer.peek b) " "
       then Lexer.compound second ty merged b
       else (None, b) in
     match done with
     | Some l' => l'
     | None => k l
     end).
Proof.
  intros Hty Hab Hk. destruct (_ && _).
  - destruct (adds_ordinary_compound second ty merged b Hty) as [H1 H2].
    destruct (Lexer.compound second ty merged b) as [[l'|] l]; cbn [fst snd] in *.
    + eapply adds_ordinary_trans; [exact Hab | apply H2; reflexivity].
    + apply Hk. eapply adds_ordinary_trans; eassumption.
  - apply Hk, Hab.
Qed.

Lemma keywords_are_ordinary text ty : Lexer.keywords text = Some ty -> ordinary ty = true.
Proof.
  unfold Lexer.keywords.
  repeat match goal with
         | |- context [if ?b then _ else _] => destruct b
         end; intros [= <-]; reflexivity.
Qed.

Lemma adds_ordinary_identifier lx : adds_ordinary lx (Lexer.identifier lx).
Proof.
  unfold Lexer.identifier. cbv zeta.
  apply adds_ordinary_compounds; [reflexivity | apply adds_ordinary_advanceWhile|].
  intros l Hl. apply adds_ordinary_compounds; [reflexivity | exact Hl|].
  intros l' Hl'. apply adds_ordinary_addToken; [|exact Hl'].
  destruct (Lexer.keywords _) as [ty|] eqn:E; [|reflexivity].
  exact (keywords_are_ordinary _ _ E).
Qed.

Lemma adds_ordinary_number lx : adds_ordinary lx (Lexer.number lx).
Proof.
  unfold Lexer.number. cbv zeta. apply adds_ordinary_addToken; [reflexivity|].
  eapply adds_ordinary_trans; [apply adds_ordinary_advanceWhile|].
  destruct (_ && _); [|apply adds_ordinary_refl].
  eapply adds_ordinary_trans; [apply adds_ordinary_advance | apply adds_ordinary_advanceWhile].
Qed.

Lemma adds_ordinary_string lx lx' : Lexer.string_ lx = Lexer.Ok lx' -> adds_ordinary lx lx'.
Proof.
  unfold Lexer.string_. cbv zeta.
  destruct (Lexer.isAtEnd _); [discriminate|]. intros H. apply lexer_Ok_inj in H. subst lx'.
  apply adds_ordinary_addToken; [reflexivity|].
  eapply adds_ordinary_trans; [apply adds_ordinary_stringBody | apply adds_ordinary_advance].
Qed.

Lemma adds_ordinary_oneOrTwo second two twoText one oneText lx :
  ordinary two = true -> ordinary one = true ->
  adds_ordinary lx (Lexer.oneOrTwo second two twoText one oneText lx).
Proof.
  intros H2 H1. unfold Lexer.oneOrTwo. pose proof (adds_ordinary_match second lx) as H.
  destruct (Lexer.match_ second lx) as [[|] l]; apply adds_ordinary_addToken; assumption.
Qed.

(** A character that is not a blank, a tab or a carriage return adds
    ordinary tokens only. *)
Lemma scanToken_adds_ordinary lx lx' c :
  JS.charAt (Lexer.source lx) (Lexer.current lx) = Some c ->
  c <> " "%char -> c <> JS.CR -> c <> JS.TAB ->
  Lexer.scanToken lx = Lexer.Ok lx' ->
  adds_ordinary lx lx'.
Proof.
  intros Hc Hsp Hcr Htab. unfold Lexer.scanToken, Lexer.advance. rewrite Hc.
  cbv beta iota zeta. unfold Lexer.charIs.
  rewrite (proj2 (Ascii.eqb_neq c " ") Hsp), (proj2 (Ascii.eqb_neq c JS.CR) Hcr),
    (proj2 (Ascii.eqb_neq c JS.TAB) Htab). cbn [orb].
  set (lx0 := Lexer.with_current _ _).
  assert (adds_ordinary lx lx0) as H0 by (apply adds_ordinary_same; reflexivity).
  repeat match goal with
         | |- context [if Ascii.eqb c ?x then _ else _] => destruct (Ascii.eqb c x)
         end;
    try (intros H; apply lexer_Ok_inj in H; subst lx';
         first [ apply adds_ordinary_addToken;
                   [reflexivity | apply adds_ordinary_same; reflexivity]
               | eapply adds_ordinary_trans;
                   [exact H0 | apply adds_ordinary_oneOrTwo; reflexivity]
               | eapply adds_ordinary_trans;
                   [exact H0 | apply adds_ordinary_advanceWhile] ]).
  - pose proof (adds_ordinary_match "=" lx0) as Hm.
    destruct (Lexer.match_ "=" lx0) as [[] lx1]; simpl in Hm; [|discriminate].
    intros H; apply lexer_Ok_inj in H; subst lx'.
    apply adds_ordinary_addToken; [reflexivity|].
    exact (adds_ordinary_trans _ _ _ H0 Hm).
  - intros H. eapply adds_ordinary_trans; [exact H0 | apply adds_ordinary_string; exact H].
  - destruct (Lexer.isDigit c).
    + intros H; apply lexer_Ok_inj in H; subst lx'.
      eapply adds_ordinary_trans; [exact H0 | apply adds_ordinary_number].
    + destruct (Lexer.isAlpha c); [|discriminate].
      intros H; apply lexer_Ok_inj in H; subst lx'.
      eapply adds_ordinary_trans; [exact H0 | apply adds_ordinary_identifier].
Qed.

Lemma adds_ordinary_ok lx lx' : adds_ordinary lx lx' -> lexer_ok lx -> lexer_ok lx'.
Proof.
  intros [Hs (added & Ht & Hadded)] (Hstack & Hnest & Heof).
  split; [rewrite Hs; exact Hstack|]. split.
  - rewrite Ht, Hs, nesting_app, Hnest. apply nesting_ordinary, Hadded.
  - rewrite Ht. apply Forall_app. split; [exact Heof | apply ordinary_are_not_EOF, Hadded].
Qed.

Lemma countIndent_keeps fuel : forall indent lx,
  Lexer.tokens (snd (Lexer.countIndent fuel indent lx)) = Lexer.tokens lx /\
  Lexer.indentStack (snd (Lexer.countIndent fuel indent lx)) = Lexer.indentStack lx.
Proof.
  induction fuel as [|f IH]; intros indent lx; simpl; [auto|].
  destruct (_ && _); [|auto].
  match goal with |- context [Lexer.countIndent f ?i ?l] => destruct (IH i l) as [H1 H2] end.
  split; [rewrite H1 | rewrite H2]; reflexivity.
Qed.

Lemma popIndents_position fuel indent : forall lx,
  Lexer.current (Lexer.popIndents fuel indent lx) = Lexer.current lx /\
  Lexer.column (Lexer.popIndents fuel indent lx) = Lexer.column lx /\
  (1 <= length (Lexer.indentStack lx) ->
   1 <= length (Lexer.indentStack (Lexer.popIndents fuel indent lx))).
Proof.
  induction fuel as [|f IH]; intros lx; simpl; [auto|].
  destruct ((1 <? length (Lexer.indentStack lx))%nat && _) eqn:E; [|auto].
  apply andb_true_iff in E as [E _]. apply Nat.ltb_lt in E.
  match goal with |- context [Lexer.popIndents f indent ?l] =>
    destruct (IH l) as (H1 & H2 & H3) end.
  split; [exact H1|]. split; [exact H2|]. intros _. apply H3.
  simpl. rewrite length_removelast. lia.
Qed.

Lemma finalDedents_one_dedent_per_pop fuel : forall lx,
  exists k added,
    length (Lexer.indentStack (Lexer.finalDedents fuel lx)) + k =
      length (Lexer.indentStack lx) /\
    (1 <= length (Lexer.indentStack lx) ->
     1 <= length (Lexer.indentStack (Lexer.finalDedents fuel lx))) /\
    Lexer.tokens (Lexer.finalDedents fuel lx) = Lexer.tokens lx ++ added /\
    map type added = replicate k DEDENT.
Proof.
  induction fuel as [|f IH]; intros lx; simpl.
  - exists 0, []. rewrite app_nil_r. repeat split; [lia | auto].
  - destruct (1 <? length (Lexer.indentStack lx))%nat eqn:E.
    + apply Nat.ltb_lt in E.
      match goal with |- context [Lexer.finalDedents f ?l] =>
        destruct (IH l) as (k & added & H1 & H2 & H3 & H4) end.
      simpl in H1, H2, H3. rewrite length_removelast in H1, H2.
      eexists (S k), (_ :: added). split; [lia|]. split; [intros; apply H2; lia|]. split.
      * rewrite H3, <- app_assoc. reflexivity.
      * simpl. rewrite H4. reflexivity.
    + exists 0, []. rewrite app_nil_r. repeat split; [lia | auto].
Qed.

Lemma stack_ok_prefix p l :
  p `prefix_of` l -> 1 <= length p -> stack_ok l -> stack_ok p.
Proof.
  intros Hp Hlen [[rest ->] Hinc]. split; [|eapply increasing_prefix; eassumption].
  destruct Hp as [r Hr]. destruct p as [|a p]; [simpl in Hlen; lia|].
  injection Hr as <- _. eauto.
Qed.

Lemma handleIndentation_ok lx lx' :
  Lexer.handleIndentation lx = Lexer.Ok lx' -> lexer_ok lx -> lexer_ok lx'.
Proof.
  unfold Lexer.handleIndentation. cbv zeta.
  set (lxa := Lexer.with_current _ lx).
  destruct (countIndent_keeps (Lexer.remaining lxa) 0 lxa) as [Ht Hs].
  destruct (Lexer.countIndent _ 0 lxa) as [indent lx1]. cbn [snd] in Ht, Hs.
  change (Lexer.tokens lxa) with (Lexer.tokens lx) in Ht.
  change (Lexer.indentStack lxa) with (Lexer.indentStack lx) in Hs.
  intros H (Hstack & Hnest & Heof). rewrite <- Hs in Hstack, Hnest. rewrite <- Ht in Hnest, Heof.
  clear Ht Hs. clearbody lxa.
  assert (1 <= length (Lexer.indentStack lx1)) as Hlen
    by (destruct Hstack as [[rest ->] _]; simpl; lia).
  destruct (_ <? indent)%nat eqn:Epush.
  - apply lexer_Ok_inj in H. subst lx'. apply Nat.ltb_lt in Epush.
    split; [|split]; simpl.
    + destruct Hstack as [[rest Hrest] Hinc]. split; [rewrite Hrest; simpl; eauto|].
      apply increasing_app_last; [exact Hinc | intros _; exact Epush].
    + rewrite nesting_app, Hnest, length_app. simpl. f_equal. lia.
    + apply Forall_app. split; [exact Heof|]. repeat constructor. discriminate.
  - destruct (indent <? _)%nat.
    + destruct (popIndents_one_dedent_per_pop (length (Lexer.indentStack lx1)) indent lx1)
        as (k & added & Hk & Hprefix & Htokens & Hadded).
      destruct (popIndents_position (length (Lexer.indentStack lx1)) indent lx1)
        as (_ & _ & Hnonempty).
      specialize (Hnonempty Hlen).
      destruct (negb _); [discriminate|]. apply lexer_Ok_inj in H. subst lx'.
      split; [|split].
      * eapply stack_ok_prefix; eassumption.
      * rewrite Htokens, nesting_app, Hnest.
        rewrite (nesting_dedents added k) by (assumption || lia). f_equal. lia.
      * rewrite Htokens. apply Forall_app. split; [exact Heof|].
        eapply dedents_are_not_EOF; eassumption.
    + apply lexer_Ok_inj in H. subst lx'. split; [|split]; assumption.
Qed.

Lemma scanToken_ok lx lx' :
  Lexer.scanToken lx = Lexer.Ok lx' -> lexer_ok lx -> lexer_ok lx'.
Proof.
  intros Hscan Hok.
  destruct (JS.charAt (Lexer.source lx) (Lexer.current lx)) as [c|] eqn:Hc.
  - destruct (Ascii.eqb c " " || Ascii.eqb c JS.CR || Ascii.eqb c JS.TAB) eqn:Hblank.
    + unfold Lexer.scanToken, Lexer.advance in Hscan. rewrite Hc in Hscan.
      cbv beta iota zeta in Hscan. unfold Lexer.charIs in Hscan at 1 2 3.
      rewrite Hblank in Hscan.
      destruct (Lexer.column _ =? 2)%Z.
      * eapply handleIndentation_ok; [exact Hscan | exact Hok].
      * apply lexer_Ok_inj in Hscan. subst lx'. exact Hok.
    + apply orb_false_iff in Hblank as [Hblank Htab].
      apply orb_false_iff in Hblank as [Hsp Hcr].
      apply Ascii.eqb_neq in Hsp, Hcr, Htab.
      eapply adds_ordinary_ok; [|exact Hok].
      eapply scanToken_adds_ordinary; eassumption.
  - unfold Lexer.scanToken, Lexer.advance in Hscan. rewrite Hc in Hscan.
    simpl in Hscan. discriminate.
Qed.

Lemma scanAll_ok fuel : forall lx ts,
  lexer_ok lx -> Lexer.scanAll fuel lx = Lexer.Tokens ts ->
  exists body eof,
    ts = body ++ [eof] /\ type eof = EOF /\
    Forall (fun t => type t <> EOF) body /\ nesting 0 ts = Some 0.
Proof.
  assert (forall lx ts, lexer_ok lx ->
            Lexer.Tokens
              (Lexer.tokens
                 (Lexer.addToken EOF ""
                    (Lexer.finalDedents (length (Lexer.indentStack lx)) lx))) =
            Lexer.Tokens ts ->
            exists body eof,
              ts = body ++ [eof] /\ type eof = EOF /\
              Forall (fun t => type t <> EOF) body /\ nesting 0 ts = Some 0) as Hend.
  { intros lx ts (Hstack & Hnest & Heof) [= <-].
    destruct (finalDedents_one_dedent_per_pop (length (Lexer.indentStack lx)) lx)
      as (k & added & Hk & Hnonempty & Htokens & Hadded).
    pose proof (finalDedents_exits (length (Lexer.indentStack lx)) lx (le_n _)) as Hexit.
    assert (1 <= length (Lexer.indentStack lx)) as Hlen
      by (destruct Hstack as [[rest ->] _]; simpl; lia).
    specialize (Hnonempty Hlen).
    eexists _, _. split; [reflexivity|]. split; [reflexivity|]. split.
    - rewrite Htokens. apply Forall_app. split; [exact Heof|].
      eapply dedents_are_not_EOF; eassumption.
    - simpl. rewrite Htokens, !nesting_app, Hnest.
      rewrite (nesting_dedents added k) by (assumption || lia). simpl. f_equal. lia. }
  induction fuel as [|f IH]; intros lx ts Hok; simpl;
    destruct (Lexer.isAtEnd lx); try (apply Hend; exact Hok); try discriminate.
  destruct (Lexer.scanToken lx) as [lx1|e] eqn:E; [|discriminate].
  apply IH. exact (scanToken_ok lx lx1 E Hok).
Qed.

Lemma new_lexer_ok source : lexer_ok (Lexer.new source).
Proof.
  split; [split; [exists []; reflexivity | exact I]|]. split; [reflexivity | constructor].
Qed.

(** X11: [tokenize] always comes to an end: it returns a token array or
    throws. The array it returns ends with an EOF token and has no other, so
    the parser, which stops at the first EOF, sees every token. *)
Theorem the_token_array_ends_with_its_only_EOF source :
  (exists ts body eof,
     Lexer.tokenize source = Lexer.Tokens ts /\ ts = body ++ [eof] /\
     type eof = EOF /\ Forall (fun t => type t <> EOF) body) \/
  (exists e, Lexer.tokenize source = Lexer.Failed e).
Proof.
  pose proof (tokenize_total source) as Htotal.
  destruct (Lexer.tokenize source) as [ts|e|] eqn:E; [left|right; eauto|congruence].
  unfold Lexer.tokenize in E.
  destruct (scanAll_ok _ _ _ (new_lexer_ok source) E) as (body & eof & H1 & H2 & H3 & _).
  exists ts, body, eof. auto.
Qed.

(** X12: in the token array that [tokenize] returns, INDENT and DEDENT
    are balanced like brackets: no DEDENT comes without an INDENT open before
    it, and every INDENT is closed by the end ([tokenize] closes those still
    open). *)
Theorem indents_and_dedents_are_balanced source ts :
  Lexer.tokenize source = Lexer.Tokens ts -> nesting 0 ts = Some 0.
Proof.
  intros E. unfold Lexer.tokenize in E.
  destruct (scanAll_ok _ _ _ (new_lexer_ok source) E) as (_ & _ & _ & _ & _ & H).
  exact H.
Qed.

(** Two nested blocks left open at the end of the source. *)
Lemma two_open_blocks_are_closed :
  exists ts,
    Lexer.tokenize (Examples.source ["agar sach:"; "    agar sach:"; "        likho 1"]) =
      Lexer.Tokens ts /\
    nesting 0 ts = Some 0.
Proof.
  eassert (Lexer.tokenize (Examples.source ["agar sach:"; "    agar sach:"; "        likho 1"])
           = Lexer.Tokens _) as E by (vm_compute; reflexivity).
  eexists. split; [exact E|]. exact (indents_and_dedents_are_balanced _ _ E).
Defined.

(** ** The lexer: a carriage return first on its line *)

Lemma charAt_in_source s i c : JS.charAt s i = Some c -> i < String.length s.
Proof.
  unfold JS.charAt. revert i. induction s as [|a s IH]; intros [|i]; simpl;
    try discriminate; intros H; [lia | apply IH in H; lia].
Qed.

Lemma scanToken_at_a_carriage_return lx :
  JS.charAt (Lexer.source lx) (Lexer.current lx) = Some JS.CR ->
  Lexer.column lx = 1%Z ->
  Lexer.scanToken lx =
    Lexer.handleIndentation
      (Lexer.with_current (S (Lexer.current lx)) (Lexer.with_column 2 lx)).
Proof.
  intros Hc Hcol. unfold Lexer.scanToken, Lexer.advance. rewrite Hc, Hcol. reflexivity.
Qed.

(** X13: a carriage return that is the first character of a line (the line
    break of an empty line in a text with CR LF line ends, say) is measured as
    an indent of width zero: it closes every open block, one DEDENT for each,
    where an empty line that ends in a line feed alone closes none. The
    carriage return itself is left to be read again. *)
Theorem a_carriage_return_first_on_a_line_closes_every_block lx :
  JS.charAt (Lexer.source lx) (Lexer.current lx) = Some JS.CR ->
  Lexer.column lx = 1%Z ->
  stack_ok (Lexer.indentStack lx) ->
  exists lx' added,
    Lexer.scanToken lx = Lexer.Ok lx' /\
    Lexer.current lx' = Lexer.current lx /\ Lexer.column lx' = 2%Z /\
    Lexer.indentStack lx' = [0] /\
    Lexer.tokens lx' = Lexer.tokens lx ++ added /\
    map type added = replicate (length (Lexer.indentStack lx) - 1) DEDENT.
Proof.
  intros Hc Hcol Hstack. rewrite scanToken_at_a_carriage_return by assumption.
  pose proof (charAt_in_source _ _ _ Hc) as Hlt.
  unfold Lexer.handleIndentation. cbv zeta.
  set (lxa := Lexer.with_current _ (Lexer.with_current _ _)).
  assert (Lexer.countIndent (Lexer.remaining lxa) 0 lxa = (0, lxa)) as Hcount.
  { unfold Lexer.remaining. simpl Lexer.countIndent.
    assert (Lexer.peek lxa = JS.CR) as Hpeek.
    { unfold Lexer.peek, Lexer.isAtEnd, lxa. simpl.
      rewrite Nat.sub_0_r, (proj2 (Nat.leb_gt _ _) Hlt), Hc. reflexivity. }
    rewrite Hpeek. rewrite andb_false_r. reflexivity. }
  rewrite Hcount.
  change (Lexer.indentStack lxa) with (Lexer.indentStack lx).
  rewrite (proj2 (Nat.ltb_ge _ 0)) by lia.
  destruct Hstack as [[rest Hrest] Hinc].
  destruct rest as [|b rest].
  - rewrite Hrest. simpl. exists lxa, []. rewrite app_nil_r.
    repeat split; try reflexivity; [unfold lxa; simpl; lia | exact Hrest].
  - assert (0 < List.last (Lexer.indentStack lx) 0) as Hlast
      by (rewrite Hrest; apply increasing_last; [rewrite <- Hrest; exact Hinc | discriminate]).
    rewrite (proj2 (Nat.ltb_lt _ _) Hlast).
    destruct (popIndents_one_dedent_per_pop (length (Lexer.indentStack lx)) 0 lxa)
      as (k & added & Hk & Hprefix & Htokens & Hadded).
    destruct (popIndents_position (length (Lexer.indentStack lx)) 0 lxa)
      as (Hcur & Hcolumn & Hnonempty).
    pose proof (popIndents_exits (length (Lexer.indentStack lx)) 0 lxa (le_n _)) as Hexit.
    change (Lexer.indentStack lxa) with (Lexer.indentStack lx) in *.
    change (Lexer.tokens lxa) with (Lexer.tokens lx) in *.
    set (lxp := Lexer.popIndents _ 0 lxa) in *.
    assert (Lexer.indentStack lxp = [0]) as Hp.
    { specialize (Hnonempty ltac:(rewrite Hrest; simpl; lia)).
      destruct Hprefix as [r Hr]. rewrite Hrest in Hr.
      destruct (Lexer.indentStack lxp) as [|a [|c p]] eqn:Ep; [simpl in Hnonempty; lia | |].
      - injection Hr as <- _. reflexivity.
      - exfalso. simpl in Hr. injection Hr as Ha Hc' Hr. subst a c.
        assert (increasing (0 :: b :: p)) as Hincp.
        { apply (increasing_prefix _ (Lexer.indentStack lx)).
          - exists r. rewrite Hrest, Hr. reflexivity.
          - exact Hinc. }
        pose proof (increasing_last 0 (b :: p) Hincp ltac:(discriminate)) as Hgt.
        apply andb_false_iff in Hexit as [Hexit|Hexit]; rewrite Ep in Hexit.
        + apply Nat.ltb_ge in Hexit. simpl in Hexit. lia.
        + apply Nat.ltb_ge in Hexit. lia. }
    rewrite Hp. simpl. exists lxp, added.
    split; [reflexivity|]. split; [rewrite Hcur; unfold lxa; simpl; lia|].
    split; [rewrite Hcolumn; reflexivity|]. split; [exact Hp|].
    split; [exact Htokens|]. rewrite Hadded. f_equal.
    rewrite Hp in Hk. simpl in Hk. lia.
Qed.

(** The line break of an empty line, written CR LF, inside a block two
    levels deep. *)
Lemma a_blank_line_with_a_carriage_return :
  let lx := {| Lexer.source := String JS.CR (String JS.LF "        likho 2");
               Lexer.tokens := []; Lexer.current := 0; Lexer.line := 4;
               Lexer.column := 1; Lexer.indentStack := [0; 4; 8] |} in
  exists lx' added,
    Lexer.scanToken lx = Lexer.Ok lx' /\
    Lexer.indentStack lx' = [0] /\
    Lexer.tokens lx' = Lexer.tokens lx ++ added /\
    map type added = [DEDENT; DEDENT].
Proof.
  intros lx.
  destruct (a_carriage_return_first_on_a_line_closes_every_block lx eq_refl eq_refl)
    as (lx' & added & H1 & _ & _ & H2 & H3 & H4).
  - split; [eexists; reflexivity | simpl; lia].
  - exists lx', added. auto.
Defined.

(** ** The lexer: string literals *)

Lemma string_length_app a b :
  String.length (a ++ b)%string = String.length a + String.length b.
Proof. induction a as [|c a IH]; [reflexivity | exact (f_equal S IH)]. Qed.

Lemma string_app_assoc a b c : ((a ++ b) ++ c = a ++ (b ++ c))%string.
Proof. induction a as [|x a IH]; [reflexivity | exact (f_equal (String x) IH)]. Qed.

Lemma string_app_nil_r a : (a ++ "" = a)%string.
Proof. induction a as [|x a IH]; [reflexivity | exact (f_equal (String x) IH)]. Qed.

Lemma charAt_after pre s : JS.charAt (pre ++ s)%string (String.length pre) = JS.charAt s 0.
Proof. unfold JS.charAt. induction pre as [|c pre IH]; [reflexivity | exact IH]. Qed.

Lemma substring_app pre body rest :
  String.substring (String.length pre) (String.length body) (pre ++ body ++ rest)%string = body.
Proof.
  induction pre as [|a pre IH]; [|exact IH].
  induction body as [|b body IHb].
  - destruct rest; reflexivity.
  - exact (f_equal (String b) IHb).
Qed.

Lemma substring_between pre body rest a b :
  a = String.length pre -> b = String.length pre + String.length body ->
  JS.substring (pre ++ body ++ rest)%string a b = body.
Proof.
  intros -> ->. unfold JS.substring. cbv zeta. rewrite Nat.min_l, Nat.max_r by lia.
  replace (_ + _ - _) with (String.length body) by lia. apply substring_app.
Qed.

Lemma peek_in_source lx pre c rest :
  Lexer.source lx = (pre ++ String c rest)%string ->
  Lexer.current lx = String.length pre ->
  Lexer.isAtEnd lx = false /\ Lexer.peek lx = c /\
  JS.charAt (Lexer.source lx) (Lexer.current lx) = Some c.
Proof.
  intros Hs Hc.
  assert (Lexer.isAtEnd lx = false) as Hend.
  { unfold Lexer.isAtEnd. rewrite Hs, Hc, string_length_app. simpl. apply Nat.leb_gt. lia. }
  assert (JS.charAt (Lexer.source lx) (Lexer.current lx) = Some c) as Hat
    by (rewrite Hs, Hc, charAt_after; reflexivity).
  split; [exact Hend|]. split; [|exact Hat].
  unfold Lexer.peek. rewrite Hend, Hat. reflexivity.
Qed.

(** The loop of [string()] runs over the characters up to the next double
    quote, or to the end of the source when there is none, and counts the
    line feeds. *)
Lemma stringBody_runs body : forall pre tail lx fuel,
  Lexer.source lx = (pre ++ body ++ tail)%string ->
  Lexer.current lx = String.length pre ->
  count_char JS.DQUOTE body = 0 ->
  (tail = ""%string \/ exists rest, tail = String JS.DQUOTE rest) ->
  String.length body < fuel ->
  Lexer.source (Lexer.stringBody fuel lx) = Lexer.source lx /\
  Lexer.tokens (Lexer.stringBody fuel lx) = Lexer.tokens lx /\
  Lexer.indentStack (Lexer.stringBody fuel lx) = Lexer.indentStack lx /\
  Lexer.current (Lexer.stringBody fuel lx) = String.length pre + String.length body /\
  Lexer.line (Lexer.stringBody fuel lx) =
    (Lexer.line lx + Z.of_nat (count_char JS.LF body))%Z.
Proof.
  induction body as [|c body IH]; intros pre tail lx fuel Hsrc Hcur Hq Htail Hfuel;
    (destruct fuel as [|f]; [simpl in Hfuel; lia|]); simpl Lexer.stringBody.
  - assert (negb (Ascii.eqb (Lexer.peek lx) JS.DQUOTE) && negb (Lexer.isAtEnd lx) = false)
      as Hstop.
    { destruct Htail as [->|[rest ->]].
      - assert (Lexer.isAtEnd lx = true) as ->; [|apply andb_false_r].
        change (Lexer.source lx = (pre ++ "")%string) in Hsrc.
        unfold Lexer.isAtEnd. rewrite Hsrc, Hcur, string_app_nil_r. apply Nat.leb_refl.
      - destruct (peek_in_source lx pre JS.DQUOTE rest Hsrc Hcur) as (_ & -> & _).
        reflexivity. }
    rewrite Hstop. simpl. repeat split; lia.
  - change (Lexer.source lx = (pre ++ String c (body ++ tail))%string) in Hsrc. simpl in Hq.
    destruct (Ascii.eqb c JS.DQUOTE) eqn:Ec; [discriminate|]. simpl in Hq.
    destruct (peek_in_source lx pre c (body ++ tail) Hsrc Hcur) as (Hend & Hpeek & _).
    rewrite Hpeek, Ec, Hend. cbn [negb andb].
    match goal with |- context [Lexer.stringBody f ?l] => set (lx2 := l) end.
    assert (Lexer.source lx2 = Lexer.source lx /\ Lexer.tokens lx2 = Lexer.tokens lx /\
            Lexer.indentStack lx2 = Lexer.indentStack lx /\
            Lexer.current lx2 = S (Lexer.current lx) /\
            Lexer.line lx2 = (Lexer.line lx + (if Ascii.eqb c JS.LF then 1 else 0))%Z)
      as (G1 & G2 & G3 & G4 & G5).
    { unfold lx2. destruct (Ascii.eqb c JS.LF); simpl; repeat split; lia. }
    clearbody lx2.
    destruct (IH (pre ++ String c "")%string tail lx2 f) as (H1 & H2 & H3 & H4 & H5).
    + rewrite G1, Hsrc, string_app_assoc. reflexivity.
    + rewrite G4, Hcur, string_length_app. simpl. lia.
    + exact Hq.
    + exact Htail.
    + simpl in Hfuel. lia.
    + rewrite H1, H2, H3, H4, H5, G1, G2, G3, G5, string_length_app. simpl.
      repeat split; try lia. destruct (Ascii.eqb c JS.LF); lia.
Qed.

Lemma scanToken_at_a_quote lx :
  JS.charAt (Lexer.source lx) (Lexer.current lx) = Some JS.DQUOTE ->
  Lexer.scanToken lx = Lexer.string_ (snd (Lexer.advance lx)).
Proof. intros Hc. unfold Lexer.scanToken, Lexer.advance. rewrite Hc. reflexivity. Qed.

(** X14: a string literal is taken as it stands: the value of the STRING
    token is the text between the opening double quote and the next one,
    whatever it holds: a backslash escapes nothing, and a literal may run over
    several lines, each line feed in it advancing the line count. The token
    carries the line of the closing quote. *)
Theorem a_string_literal_is_taken_as_it_stands lx pre body rest :
  Lexer.source lx = (pre ++ String JS.DQUOTE (body ++ String JS.DQUOTE rest))%string ->
  Lexer.current lx = String.length pre ->
  count_char JS.DQUOTE body = 0 ->
  exists lx' tok,
    Lexer.scanToken lx = Lexer.Ok lx' /\
    Lexer.tokens lx' = Lexer.tokens lx ++ [tok] /\
    type tok = STRING /\ value tok = body /\
    pos_line (position tok) = (Lexer.line lx + Z.of_nat (count_char JS.LF body))%Z /\
    Lexer.line lx' = (Lexer.line lx + Z.of_nat (count_char JS.LF body))%Z /\
    Lexer.current lx' = String.length pre + String.length body + 2 /\
    Lexer.indentStack lx' = Lexer.indentStack lx.
Proof.
  intros Hsrc Hcur Hq.
  destruct (peek_in_source lx pre JS.DQUOTE _ Hsrc Hcur) as (_ & _ & Hc).
  rewrite (scanToken_at_a_quote lx Hc). unfold Lexer.string_. cbv zeta.
  set (lx0 := snd (Lexer.advance lx)).
  assert (Lexer.source lx0 =
          ((pre ++ String JS.DQUOTE "") ++ body ++ String JS.DQUOTE rest)%string) as Hsrc0
    by (unfold lx0; simpl; rewrite Hsrc, string_app_assoc; reflexivity).
  assert (Lexer.current lx0 = String.length (pre ++ String JS.DQUOTE "")%string) as Hcur0
    by (unfold lx0; simpl; rewrite Hcur, string_length_app; simpl; lia).
  assert (Lexer.tokens lx0 = Lexer.tokens lx /\ Lexer.indentStack lx0 = Lexer.indentStack lx /\
          Lexer.line lx0 = Lexer.line lx) as (Htok0 & Hstack0 & Hline0) by (split; auto).
  clearbody lx0.
  assert (String.length body < Lexer.remaining lx0) as Hfuel
    by (unfold Lexer.remaining; rewrite Hsrc0, Hcur0, !string_length_app; simpl; lia).
  destruct (stringBody_runs body _ _ lx0 (Lexer.remaining lx0) Hsrc0 Hcur0 Hq
              (or_intror (ex_intro _ rest eq_refl)) Hfuel) as (H1 & H2 & H3 & H4 & H5).
  set (lx1 := Lexer.stringBody _ lx0) in *. clearbody lx1.
  assert (Lexer.isAtEnd lx1 = false) as Hend.
  { unfold Lexer.isAtEnd. rewrite H1, H4, Hsrc0, !string_length_app. simpl.
    apply Nat.leb_gt. lia. }
  rewrite Hend. eexists _, _. split; [reflexivity|].
  split; [simpl; rewrite H2, Htok0; reflexivity|]. split; [reflexivity|].
  split; [|split; [|split; [|split]]]; simpl.
  - rewrite H1, Hsrc0. apply substring_between; rewrite ?H4, ?Hcur0, ?string_length_app;
      simpl; lia.
  - rewrite H5, Hline0. reflexivity.
  - rewrite H5, Hline0. reflexivity.
  - rewrite H4, string_length_app. simpl. lia.
  - rewrite H3, Hstack0. reflexivity.
Qed.

(** A literal with a backslash, the letter n and a line feed in it. *)
Lemma a_backslash_and_a_line_feed_stay_in_the_value :
  let body := ("one\n" ++ String JS.LF "two")%string in
  exists lx' tok,
    Lexer.scanToken (Lexer.new (String JS.DQUOTE (body ++ String JS.DQUOTE ""))) =
      Lexer.Ok lx' /\
    Lexer.tokens lx' = [tok] /\ type tok = STRING /\ value tok = body /\
    Lexer.line lx' = 2%Z.
Proof.
  intros body.
  destruct (a_string_literal_is_taken_as_it_stands
              (Lexer.new (String JS.DQUOTE (body ++ String JS.DQUOTE ""))) "" body ""
              eq_refl eq_refl eq_refl)
    as (lx' & tok & H1 & H2 & H3 & H4 & _ & H5 & _).
  exists lx', tok. auto.
Defined.

(** X15: a double quote with no other after it makes the lexer throw
    "Unterminated string", whatever follows: the rest of the source is read
    as the literal, and the error carries the line where the source ends, not
    the one of the opening quote. *)
Theorem a_quote_left_open_is_reported_at_the_end lx pre body :
  Lexer.source lx = (pre ++ String JS.DQUOTE body)%string ->
  Lexer.current lx = String.length pre ->
  count_char JS.DQUOTE body = 0 ->
  exists column,
    Lexer.scanToken lx =
      Lexer.Throw
        (SyntaxError "Unterminated string"
           (Lexer.line lx + Z.of_nat (count_char JS.LF body)) column).
Proof.
  intros Hsrc Hcur Hq.
  destruct (peek_in_source lx pre JS.DQUOTE _ Hsrc Hcur) as (_ & _ & Hc).
  rewrite (scanToken_at_a_quote lx Hc). unfold Lexer.string_. cbv zeta.
  set (lx0 := snd (Lexer.advance lx)).
  assert (Lexer.source lx0 = ((pre ++ String JS.DQUOTE "") ++ body ++ "")%string) as Hsrc0
    by (unfold lx0; simpl; rewrite Hsrc, string_app_assoc, string_app_nil_r; reflexivity).
  assert (Lexer.current lx0 = String.length (pre ++ String JS.DQUOTE "")%string) as Hcur0
    by (unfold lx0; simpl; rewrite Hcur, string_length_app; simpl; lia).
  assert (Lexer.line lx0 = Lexer.line lx) as Hline0 by reflexivity.
  clearbody lx0.
  assert (String.length body < Lexer.remaining lx0) as Hfuel
    by (unfold Lexer.remaining; rewrite Hsrc0, Hcur0, !string_length_app; simpl; lia).
  destruct (stringBody_runs body _ _ lx0 (Lexer.remaining lx0) Hsrc0 Hcur0 Hq
              (or_introl eq_refl) Hfuel) as (H1 & _ & _ & H4 & H5).
  set (lx1 := Lexer.stringBody _ lx0) in *. clearbody lx1.
  assert (Lexer.isAtEnd lx1 = true) as Hend.
  { unfold Lexer.isAtEnd. rewrite H1, H4, Hsrc0, !string_length_app. simpl.
    apply Nat.leb_le. lia. }
  rewrite Hend, H5, Hline0. eexists. reflexivity.
Qed.

(** The quote is opened on the first line and the source ends on the third. *)
Lemma an_open_quote_is_reported_two_lines_later :
  let lx := {| Lexer.source :=
                 Examples.source
                   [("likho " ++ String JS.DQUOTE "namaste")%string; "likho 1"; "likho 2"];
               Lexer.tokens := []; Lexer.current := 6; Lexer.line := 1;
               Lexer.column := 7; Lexer.indentStack := [0] |} in
  exists column,
    Lexer.scanToken lx = Lexer.Throw (SyntaxError "Unterminated string" 3 column).
Proof.
  intros lx.
  exact (a_quote_left_open_is_reported_at_the_end lx "likho "
           ("namaste" ++ String JS.LF "likho 1" ++ String JS.LF "likho 2")%string
           eq_refl eq_refl eq_refl).
Defined.

(** ** The parser: every call returns or throws *)

Lemma peek_inside p :
  Parser.isAtEnd p = false -> Parser.current p < length (Parser.tokens p).
Proof.
  unfold Parser.isAtEnd, Parser.peek, Parser.tokenAt.
  destruct (Parser.tokens p !! Parser.current p) as [t|] eqn:E; simpl.
  - intros _. eapply lookup_lt_Some. exact E.
  - discriminate.
Qed.

Lemma check_inside ty p : Parser.check ty p = true -> Parser.isAtEnd p = false.
Proof. unfold Parser.check. destruct (Parser.isAtEnd p); [discriminate | reflexivity]. Qed.

Lemma consumed_le {A} k k' p (r : Parser.Result A) :
  consumed k p r -> k' <= k -> consumed k' p r.
Proof.
  destruct r; simpl; auto. intros (H1 & H2 & H3) Hk. split; [exact H1|]. split; [lia | exact H3].
Qed.

Lemma consumed_any {A} k p (r : Parser.Result A) : consumed k p r -> consumed 0 p r.
Proof. intros H. apply (consumed_le k); [exact H | lia]. Qed.

Lemma consumed_from {A} k1 k2 p q (r : Parser.Result A) :
  Parser.tokens q = Parser.tokens p -> tokens_left q + k1 <= tokens_left p ->
  (reads_inside p -> reads_inside q) ->
  consumed k2 q r -> consumed (k1 + k2) p r.
Proof.
  intros Ht Hl Hin. destruct r; simpl; auto. intros (H1 & H2 & H3).
  split; [congruence|]. split; [lia | auto].
Qed.

Lemma consumed_bind {A B} k1 k2 k (m : Parser.M A) (f : A -> Parser.M B) p :
  consumed k1 p (m p) ->
  (forall a p', m p = Parser.Ok a p' -> Parser.tokens p' = Parser.tokens p ->
                tokens_left p' + k1 <= tokens_left p -> consumed k2 p' (f a p')) ->
  k <= k1 + k2 ->
  consumed k p (Parser.bind m f p).
Proof.
  unfold Parser.bind. destruct (m p) as [a p'|e p'|]; simpl; [|auto|auto].
  intros (H1 & H2 & Hin) H Hk. specialize (H a p' eq_refl H1 H2).
  destruct (f a p'); simpl in *; auto. destruct H as (H3 & H4 & Hin').
  split; [congruence|]. split; [lia | auto].
Qed.

Lemma consumed_ret {A} (a : A) p : consumed 0 p (Parser.Ok a p).
Proof. simpl. split; [reflexivity|]. split; [lia | auto]. Qed.

(** [advance] never steps onto the place after the last token: the token it
    leaves is not an EOF, so it is not the last. *)
Lemma advance_stays_inside p :
  Parser.isAtEnd p = false -> reads_inside p ->
  reads_inside (Parser.mk (Parser.tokens p) (S (Parser.current p))).
Proof.
  intros Hend [Heof Hlt]. split; [exact Heof|]. simpl.
  destruct Heof as (body & eof & Hts & Hty).
  rewrite Hts, length_app in *. simpl in *.
  destruct (decide (Parser.current p = length body)) as [Hlast|]; [|lia].
  unfold Parser.isAtEnd, Parser.peek, Parser.tokenAt in Hend.
  rewrite Hts, (list_lookup_middle body [] eof _ Hlast) in Hend. simpl in Hend.
  rewrite Hty in Hend. discriminate.
Qed.

Lemma consumed_advance p : consumed 0 p (Parser.advance p).
Proof.
  unfold Parser.advance. destruct (negb (Parser.isAtEnd p)) eqn:E; simpl;
    (split; [reflexivity|]); (split; [unfold tokens_left; simpl; lia|]); [|auto].
  apply advance_stays_inside. apply negb_true_iff. exact E.
Qed.

Lemma consumed_advance_inside p :
  Parser.isAtEnd p = false -> consumed 1 p (Parser.advance p).
Proof.
  intros H. pose proof (peek_inside p H) as Hlt. unfold Parser.advance. rewrite H. simpl.
  split; [reflexivity|]. split; [unfold tokens_left; simpl; lia|].
  apply advance_stays_inside. exact H.
Qed.

Lemma consumed_consume ty message p : consumed 1 p (Parser.consume ty message p).
Proof.
  unfold Parser.consume. destruct (Parser.check ty p) eqn:E; [|exact I].
  apply consumed_advance_inside. exact (check_inside _ _ E).
Qed.

Lemma match_consumed types p :
  consumed 0 p (Parser.match_ types p) /\
  forall p', Parser.match_ types p = Parser.Ok true p' ->
             tokens_left p' + 1 <= tokens_left p.
Proof.
  induction types as [|ty types IH]; simpl.
  - split; [exact (consumed_ret false p) | discriminate].
  - destruct (Parser.check ty p) eqn:E; [|exact IH].
    pose proof (consumed_advance_inside p (check_inside _ _ E)) as H.
    unfold Parser.bind. destruct (Parser.advance p) as [tok p1|e p1|]; simpl in H |- *.
    + destruct H as (H1 & H2 & H3). split; [split; [exact H1|]; split; [lia | exact H3]|].
      intros p' [= <-]. exact H2.
    + split; [exact I | discriminate].
    + destruct H.
Qed.

Lemma match_false types p p' :
  Parser.match_ types p = Parser.Ok false p' -> p' = p.
Proof.
  induction types as [|ty types IH]; simpl; [intros [= <-]; reflexivity|].
  destruct (Parser.check ty p); [|exact IH].
  unfold Parser.bind, Parser.advance. discriminate.
Qed.

Lemma consumed_recovering {A} k (m : Parser.M A) p :
  consumed k p (m p) -> consumed k p (Parser.recovering m p).
Proof. unfold Parser.recovering. destruct (m p); auto. Qed.

(** Follows a sequence of calls: each is settled by its lemma, or by a
    hypothesis that fits, with the count of tokens left to [lia]. *)
Ltac parsed :=
  cbv beta zeta;
  lazymatch goal with
  | |- consumed _ _ (Parser.bind _ _ _) =>
      eapply consumed_bind;
      [ parsed
      | let a := fresh "a" in
        let q := fresh "q" in
        let E := fresh "E" in
        let Ht := fresh "Ht" in
        let Hl := fresh "Hl" in
        intros a q E Ht Hl; parsed
      | first [apply Nat.le_refl | lia] ]
  | |- consumed _ _ (Parser.ret _ _) => apply consumed_ret
  | |- consumed _ _ (Parser.Ok _ _) => apply consumed_ret
  | |- consumed ?k _ (Parser.Throw _ _) =>
      (tryif is_evar k then unify k 0 else idtac); exact I
  | |- consumed ?k _ (Parser.throw _ _) =>
      (tryif is_evar k then unify k 0 else idtac); exact I
  | |- consumed _ _ (Parser.getPosition _) => apply consumed_ret
  | |- consumed _ _ (Parser.advance _) =>
      first [ apply consumed_advance_inside; assumption | apply consumed_advance ]
  | |- consumed _ _ (Parser.consume _ _ _) => apply consumed_consume
  | |- consumed _ _ (Parser.match_ _ _) => apply match_consumed
  | |- consumed _ _ ((if ?b then _ else _) _) =>
      is_var b; destruct b;
      [ match goal with
        | E : Parser.match_ _ _ = Parser.Ok true _ |- _ =>
            pose proof (proj2 (match_consumed _ _) _ E)
        | _ => idtac
        end
      | ];
      eapply consumed_any; parsed
  | |- consumed _ _ (if ?c then _ else _) =>
      destruct c eqn:?; eapply consumed_any; parsed
  | _ => try solve [match goal with H : _ |- _ => apply H; lia end]
  end.

Lemma consumed_consumeNewlineAndIndent p : consumed 1 p (Parser.consumeNewlineAndIndent p).
Proof. unfold Parser.consumeNewlineAndIndent. eapply consumed_le; [parsed | lia]. Qed.

Section ExpressionsEnd.
Variable expression : Parser.M Expression.
Variable f : nat.
Hypothesis Hexpression : forall p, tokens_left p + 4 <= f -> consumed 1 p (expression p).

Lemma primary_consumed p :
  tokens_left p + 3 <= f -> consumed 1 p (Parser.primary expression p).
Proof.
  intros Hf. unfold Parser.primary.
  repeat match goal with
         | |- context [if Parser.check ?ty p then _ else _] =>
             let E := fresh "E" in
             destruct (Parser.check ty p) eqn:E;
             [apply check_inside in E; eapply consumed_le; [parsed | lia] |]
         end.
  exact I.
Qed.

Lemma argumentsLoop_consumed n : forall args p,
  tokens_left p + 1 <= n -> tokens_left p + 4 <= f ->
  consumed 1 p (Parser.argumentsLoop expression n args p).
Proof.
  induction n as [|n IH]; intros args p Hn Hf; [lia|]. cbn [Parser.argumentsLoop].
  eapply consumed_le; [parsed | lia].
Qed.

Lemma finishCall_consumed n callee p :
  tokens_left p + 1 <= n -> tokens_left p + 4 <= f ->
  consumed 1 p (Parser.finishCall expression n callee p).
Proof.
  intros Hn Hf. pose proof (argumentsLoop_consumed n) as Harguments.
  unfold Parser.finishCall. eapply consumed_le; [parsed | lia].
Qed.

Lemma callLoop_consumed n : forall expr p,
  tokens_left p + 1 <= n -> tokens_left p + 3 <= f ->
  consumed 0 p (Parser.callLoop expression n expr p).
Proof.
  induction n as [|n IH]; intros expr p Hn Hf; [lia|]. cbn [Parser.callLoop].
  pose proof (finishCall_consumed n) as HfinishCall.
  eapply consumed_le; [parsed | lia].
Qed.

Lemma call_consumed n p :
  tokens_left p + 1 <= n -> tokens_left p + 3 <= f ->
  consumed 1 p (Parser.call expression n p).
Proof.
  intros Hn Hf. pose proof primary_consumed as Hprimary.
  pose proof (callLoop_consumed n) as HcallLoop.
  unfold Parser.call. eapply consumed_le; [parsed | lia].
Qed.

Lemma unary_consumed n : forall p,
  tokens_left p + 2 <= n -> tokens_left p + 3 <= f ->
  consumed 1 p (Parser.unary expression n p).
Proof.
  induction n as [|n IH]; intros p Hn Hf; [lia|]. cbn [Parser.unary].
  pose proof (call_consumed n) as Hcall.
  eapply (consumed_bind 0 1); [apply match_consumed | intros m q E Ht Hl | lia].
  destruct m.
  - pose proof (proj2 (match_consumed _ _) _ E). eapply consumed_le; [parsed | lia].
  - apply Hcall; lia.
Qed.

Lemma binaryTurn_consumed types operand again expr p :
  (forall q, tokens_left q + 1 <= tokens_left p -> consumed 1 q (operand q)) ->
  (forall e q, tokens_left q + 2 <= tokens_left p -> consumed 0 q (again e q)) ->
  consumed 0 p (Parser.binaryTurn types operand again expr p).
Proof.
  intros Hoperand Hagain. unfold Parser.binaryTurn.
  eapply consumed_le; [parsed | lia].
Qed.

Lemma binaryLoop_consumed types operand n :
  (forall q, tokens_left q + 3 <= f -> consumed 1 q (operand q)) ->
  forall expr p,
    tokens_left p + 1 <= n -> tokens_left p + 3 <= f ->
    consumed 0 p (Parser.binaryLoop types operand n expr p).
Proof.
  intros Hoperand. induction n as [|n IH]; intros expr p Hn Hf; [lia|]. cbn [Parser.binaryLoop].
  apply binaryTurn_consumed; [intros q Hq; apply Hoperand; lia|].
  intros e q Hq. apply IH; lia.
Qed.

Lemma power_consumed n : forall p,
  tokens_left p + 3 <= n -> tokens_left p + 3 <= f ->
  consumed 1 p (Parser.power expression n p).
Proof.
  induction n as [|n IH]; intros p Hn Hf; [lia|]. cbn [Parser.power].
  eapply (consumed_bind 1 0); [apply unary_consumed; lia | intros e q E Ht Hl | lia].
  apply binaryTurn_consumed; [intros q' Hq'; apply IH; lia|].
  intros e' q' Hq'. apply consumed_ret.
Qed.

Lemma level_consumed types operand p :
  (forall q, tokens_left q + 3 <= f -> consumed 1 q (operand q)) ->
  tokens_left p + 3 <= f ->
  consumed 1 p (Parser.bind operand (Parser.binaryLoop types operand f) p).
Proof.
  intros Hoperand Hf.
  eapply (consumed_bind 1 0); [apply Hoperand; exact Hf | intros e q E Ht Hl | lia].
  apply binaryLoop_consumed; [exact Hoperand | lia | lia].
Qed.

Lemma logicalOr_consumed p :
  tokens_left p + 3 <= f -> consumed 1 p (Parser.logicalOr expression f p).
Proof.
  revert p.
  assert (forall q, tokens_left q + 3 <= f -> consumed 1 q (Parser.power expression f q))
    as Hpower by (intros q Hq; apply power_consumed; lia).
  assert (forall q, tokens_left q + 3 <= f -> consumed 1 q (Parser.factor expression f q))
    as Hfactor by (intros q Hq; apply level_consumed; assumption).
  assert (forall q, tokens_left q + 3 <= f -> consumed 1 q (Parser.term expression f q))
    as Hterm by (intros q Hq; apply level_consumed; assumption).
  assert (forall q, tokens_left q + 3 <= f ->
                    consumed 1 q (Parser.comparison expression f q))
    as Hcomparison by (intros q Hq; apply level_consumed; assumption).
  assert (forall q, tokens_left q + 3 <= f -> consumed 1 q (Parser.equality expression f q))
    as Hequality by (intros q Hq; apply level_consumed; assumption).
  assert (forall q, tokens_left q + 3 <= f ->
                    consumed 1 q (Parser.logicalAnd expression f q))
    as HlogicalAnd by (intros q Hq; apply level_consumed; assumption).
  intros p Hp. apply level_consumed; assumption.
Qed.

End ExpressionsEnd.

Lemma expression_consumed fuel : forall p,
  tokens_left p + 4 <= fuel -> consumed 1 p (Parser.expression fuel p).
Proof.
  induction fuel as [|f IH]; intros p Hp; [lia|].
  change (Parser.expression (S f)) with (Parser.logicalOr (Parser.expression f) f).
  apply logicalOr_consumed; [exact IH | lia].
Qed.

Section StatementsEnd.
Variable fuel : nat.
Variable statement : Parser.M Statement.
Hypothesis Hstatement : forall p, tokens_left p + 5 <= fuel -> consumed 1 p (statement p).

Lemma variableDeclaration_consumed isConstant p :
  tokens_left p + 4 <= fuel ->
  consumed 0 p (Parser.variableDeclaration fuel isConstant p).
Proof.
  intros Hf. pose proof (expression_consumed fuel) as Hexpression.
  unfold Parser.variableDeclaration. eapply consumed_any; parsed.
Qed.

Lemma blockLoop_consumed isArrowFunction n : forall statements p,
  tokens_left p + 1 <= n -> tokens_left p + 5 <= fuel ->
  consumed 0 p (Parser.blockLoop statement n isArrowFunction statements p).
Proof.
  induction n as [|n IH]; intros statements p Hn Hf; [lia|]. cbn [Parser.blockLoop].
  destruct (_ && _); [|apply consumed_ret].
  eapply consumed_any; parsed.
Qed.

Lemma blockStatement_consumed isArrowFunction p :
  tokens_left p + 5 <= fuel ->
  consumed 0 p (Parser.blockStatement fuel statement isArrowFunction p).
Proof.
  intros Hf. pose proof (blockLoop_consumed isArrowFunction fuel) as HblockLoop.
  unfold Parser.blockStatement. destruct isArrowFunction; cbn [negb]; eapply consumed_any; parsed.
Qed.

Lemma ifStatement_consumed p :
  tokens_left p + 5 <= fuel -> consumed 0 p (Parser.ifStatement fuel statement p).
Proof.
  intros Hf. pose proof (expression_consumed fuel) as Hexpression.
  pose proof (blockStatement_consumed false) as HblockStatement.
  pose proof consumed_consumeNewlineAndIndent as Hnewline.
  unfold Parser.ifStatement. eapply consumed_any; parsed.
Qed.

Lemma forLoop_consumed p :
  tokens_left p + 5 <= fuel -> consumed 0 p (Parser.forLoop fuel statement p).
Proof.
  intros Hf. pose proof (expression_consumed fuel) as Hexpression.
  pose proof (blockStatement_consumed false) as HblockStatement.
  pose proof consumed_consumeNewlineAndIndent as Hnewline.
  unfold Parser.forLoop. eapply consumed_any; parsed.
Qed.

Lemma whileLoop_consumed p :
  tokens_left p + 5 <= fuel -> consumed 0 p (Parser.whileLoop fuel statement p).
Proof.
  intros Hf. pose proof (expression_consumed fuel) as Hexpression.
  pose proof (blockStatement_consumed false) as HblockStatement.
  pose proof consumed_consumeNewlineAndIndent as Hnewline.
  unfold Parser.whileLoop. eapply consumed_any; parsed.
Qed.

Lemma parametersLoop_consumed n : forall parameters p,
  tokens_left p + 1 <= n -> consumed 1 p (Parser.parametersLoop n parameters p).
Proof.
  induction n as [|n IH]; intros parameters p Hn; [lia|]. cbn [Parser.parametersLoop].
  eapply consumed_le; [parsed | lia].
Qed.

Lemma functionDeclaration_consumed style name p :
  tokens_left p + 5 <= fuel ->
  consumed 0 p (Parser.functionDeclaration fuel statement style name p).
Proof.
  intros Hf. pose proof (parametersLoop_consumed fuel) as HparametersLoop.
  pose proof blockStatement_consumed as HblockStatement.
  pose proof consumed_consumeNewlineAndIndent as Hnewline.
  unfold Parser.functionDeclaration. destruct style; eapply consumed_any; parsed.
Qed.

Lemma returnStatement_consumed p :
  tokens_left p + 4 <= fuel -> consumed 0 p (Parser.returnStatement fuel p).
Proof.
  intros Hf. pose proof (expression_consumed fuel) as Hexpression.
  unfold Parser.returnStatement. eapply consumed_any; parsed.
Qed.

Lemma printStatement_consumed p :
  tokens_left p + 4 <= fuel -> consumed 0 p (Parser.printStatement fuel p).
Proof.
  intros Hf. pose proof (expression_consumed fuel) as Hexpression.
  unfold Parser.printStatement. eapply consumed_any; parsed.
Qed.

Lemma assignmentOrExpression_consumed p :
  tokens_left p + 4 <= fuel -> consumed 1 p (Parser.assignmentOrExpression fuel p).
Proof.
  intros Hf. pose proof (expression_consumed fuel) as Hexpression.
  unfold Parser.assignmentOrExpression.
  eapply (consumed_bind 1 0); [apply Hexpression; exact Hf | intros e q E Ht Hl | lia].
  destruct e; eapply consumed_any; parsed.
Qed.

Lemma statementBody_consumed p :
  tokens_left p + 4 <= fuel -> consumed 1 p (Parser.statementBody fuel statement p).
Proof.
  intros Hf. unfold Parser.statementBody. apply consumed_recovering.
  pose proof variableDeclaration_consumed as HvariableDeclaration.
  pose proof ifStatement_consumed as HifStatement.
  pose proof forLoop_consumed as HforLoop.
  pose proof whileLoop_consumed as HwhileLoop.
  pose proof functionDeclaration_consumed as HfunctionDeclaration.
  pose proof returnStatement_consumed as HreturnStatement.
  pose proof printStatement_consumed as HprintStatement.
  cbv beta.
  repeat match goal with
         | |- context [if Parser.check ?ty p then _ else _] =>
             let E := fresh "E" in
             destruct (Parser.check ty p) eqn:E;
             [apply check_inside in E;
              try (eapply consumed_le; [solve [parsed] | lia]) |]
         end.
  - match goal with H : Parser.isAtEnd p = false |- _ => rename H into Hinside end.
    cbv zeta. unfold Parser.bind at 1, Parser.advance at 1. rewrite Hinside. cbn [negb].
    set (p1 := Parser.mk _ _).
    assert (Parser.tokens p1 = Parser.tokens p /\ tokens_left p1 + 1 <= tokens_left p /\
            tokens_left p = S (tokens_left p1)) as (Ht1 & Hl1 & Hone).
    { pose proof (peek_inside p Hinside). unfold tokens_left, p1. simpl.
      split; [reflexivity | lia]. }
    apply (consumed_from 1 0 p p1);
      [exact Ht1 | exact Hl1 | apply advance_stays_inside; exact Hinside|].
    eapply (consumed_bind 0 0); [apply match_consumed | intros m q Em Ht Hl | lia].
    destruct m.
    + pose proof (proj2 (match_consumed _ _) _ Em). apply HfunctionDeclaration. lia.
    + apply match_false in Em. subst q.
      pose proof (assignmentOrExpression_consumed (Parser.mk (Parser.tokens p1) (Parser.current p)))
        as H.
      assert (tokens_left (Parser.mk (Parser.tokens p1) (Parser.current p)) = tokens_left p)
        as Hsame by reflexivity.
      specialize (H ltac:(rewrite Hsame; lia)).
      destruct (Parser.assignmentOrExpression fuel _) as [a q|e q|]; simpl in H |- *;
        [|exact I|exact H].
      destruct H as (H1 & H2 & H3). simpl in H1.
      change (tokens_left q + 1 <= tokens_left p) in H2. split; [congruence|].
      split; [lia|]. intros [Heof Hlt]. apply H3. split; [exact Heof|].
      unfold p1 in Hlt. simpl in *. lia.
  - apply assignmentOrExpression_consumed. lia.
Qed.

End StatementsEnd.

Lemma statement_consumed fuel : forall p,
  tokens_left p + 5 <= fuel -> consumed 1 p (Parser.statement fuel p).
Proof.
  induction fuel as [|f IH]; intros p Hp; [lia|].
  change (Parser.statement (S f)) with (Parser.statementBody f (Parser.statement f)).
  apply statementBody_consumed; [exact IH | lia].
Qed.

Lemma parseLoop_consumed fuel : forall statements p,
  tokens_left p + 6 <= fuel -> consumed 0 p (Parser.parseLoop fuel statements p).
Proof.
  induction fuel as [|f IH]; intros statements p Hp; [lia|]. cbn [Parser.parseLoop].
  pose proof (statement_consumed f) as Hstatement.
  destruct (negb (Parser.isAtEnd p)) eqn:E; [|apply consumed_ret].
  apply negb_true_iff in E.
  destruct (Parser.check NEWLINE p); eapply consumed_any; parsed.
Qed.

Lemma parseLoop_stops_at_the_end fuel : forall statements p l p',
  Parser.parseLoop fuel statements p = Parser.Ok l p' -> Parser.isAtEnd p' = true.
Proof.
  induction fuel as [|f IH]; intros statements p l p'; cbn [Parser.parseLoop];
    [discriminate|].
  destruct (negb (Parser.isAtEnd p)) eqn:E.
  - destruct (Parser.check NEWLINE p); unfold Parser.bind.
    + destruct (Parser.advance p); [apply IH | discriminate | discriminate].
    + destruct (Parser.statement f p); [apply IH | discriminate | discriminate].
  - intros [= <- <-]. apply negb_false_iff in E. exact E.
Qed.

Lemma an_EOF_by_its_test ty : Parser.TokenType_eqb ty EOF = true -> ty = EOF.
Proof. destruct ty; simpl; (discriminate || reflexivity). Qed.

(** X16: on every token array that [tokenize] returns, [parse] comes to
    an end: it returns a program or throws a syntax error. Every loop of the
    parser and every level of nesting reads a token, so none can run for
    ever. A program is returned only when the parser stands on the last token
    of the array, the EOF, every other token read; and [advance] never leaves
    the array: from a token of the array it comes to a token of the array. *)
Theorem the_parser_always_returns_or_throws source ts :
  Lexer.tokenize source = Lexer.Tokens ts ->
  ((exists program p,
      Parser.parse ts = Parser.Parsed program /\
      Parser.parseLoop (2 * length ts + 16) [] (Parser.new ts) =
        Parser.Ok (program_body program) p /\
      Parser.current p = length ts - 1) \/
   (exists e, Parser.parse ts = Parser.Failed e)) /\
  (forall p tok p',
     Parser.tokens p = ts -> Parser.current p < length ts ->
     Parser.advance p = Parser.Ok tok p' ->
     Parser.tokens p' = ts /\ Parser.current p' < length ts).
Proof.
  intros Hts. unfold Lexer.tokenize in Hts.
  destruct (scanAll_ok _ _ _ (new_lexer_ok source) Hts) as (body & eof & Hshape & Hty & Hbody & _).
  assert (ends_with_EOF ts) as Heof by (exists body, eof; auto).
  split; [|intros p tok p' Htokens Hlt Hadvance;
           pose proof (consumed_advance p) as H; rewrite Hadvance in H;
           destruct H as (Ht & _ & Hin);
           destruct Hin as [_ Hlt']; [split; rewrite Htokens; assumption|];
           rewrite Ht, Htokens in *; auto].
  unfold Parser.parse.
  pose proof (parseLoop_consumed (2 * length ts + 16) [] (Parser.new ts)) as H.
  assert (tokens_left (Parser.new ts) = length ts) as Hleft
    by (unfold tokens_left; simpl; lia).
  specialize (H ltac:(rewrite Hleft; lia)).
  destruct (Parser.parseLoop _ _ _) as [statements p|e p|] eqn:Hloop;
    [left | right; eauto | destruct H].
  destruct H as (Htokens & _ & Hinside). simpl in Htokens.
  destruct Hinside as [_ Hlt].
  { split; [exists body, eof; auto|]. simpl. rewrite Hshape, length_app. simpl. lia. }
  pose proof (parseLoop_stops_at_the_end _ _ _ _ _ Hloop) as Hend.
  eexists _, p. split; [reflexivity|]. split; [reflexivity|].
  rewrite Htokens in Hlt.
  unfold Parser.isAtEnd, Parser.peek, Parser.tokenAt in Hend. rewrite Htokens in Hend.
  rewrite Hshape, length_app in *. simpl in *.
  destruct (decide (Parser.current p < length body)) as [Hin|]; [exfalso | lia].
  destruct (lookup_lt_is_Some_2 body _ Hin) as [t Ht].
  rewrite (lookup_app_l_Some _ _ _ _ Ht) in Hend. simpl in Hend.
  apply an_EOF_by_its_test in Hend.
  rewrite Forall_forall in Hbody. apply (Hbody t); [|exact Hend].
  eapply list_elem_of_lookup_2. exact Ht.
Qed.

(** The first of the two submissions: its tokens are read to the last. *)
Lemma a_source_is_parsed_to_its_end :
  exists ts,
    Lexer.tokenize Examples.firstSubmission = Lexer.Tokens ts /\
    ((exists program p,
        Parser.parse ts = Parser.Parsed program /\
        Parser.parseLoop (2 * length ts + 16) [] (Parser.new ts) =
          Parser.Ok (program_body program) p /\
        Parser.current p = length ts - 1) \/
     (exists e, Parser.parse ts = Parser.Failed e)).
Proof.
  eassert (Lexer.tokenize Examples.firstSubmission = Lexer.Tokens _) as E
    by (vm_compute; reflexivity).
  eexists. split; [exact E|].
  exact (proj1 (the_parser_always_returns_or_throws _ _ E)).
Defined.

(** ** The lexer: comments and lines of blanks *)

Lemma comment_runs body : forall pre tail lx fuel,
  Lexer.source lx = (pre ++ body ++ tail)%string ->
  Lexer.current lx = String.length pre ->
  count_char JS.LF body = 0 ->
  (tail = ""%string \/ exists rest, tail = String JS.LF rest) ->
  String.length body < fuel ->
  let lx' :=
    Lexer.advanceWhile
      (fun l => negb (Ascii.eqb (Lexer.peek l) JS.LF) && negb (Lexer.isAtEnd l)) fuel lx in
  Lexer.source lx' = Lexer.source lx /\ Lexer.tokens lx' = Lexer.tokens lx /\
  Lexer.indentStack lx' = Lexer.indentStack lx /\ Lexer.line lx' = Lexer.line lx /\
  Lexer.current lx' = String.length pre + String.length body.
Proof.
  induction body as [|c body IH]; intros pre tail lx fuel Hsrc Hcur Hq Htail Hfuel;
    (destruct fuel as [|f]; [simpl in Hfuel; lia|]); cbv zeta; simpl Lexer.advanceWhile.
  - assert (negb (Ascii.eqb (Lexer.peek lx) JS.LF) && negb (Lexer.isAtEnd lx) = false)
      as Hstop.
    { destruct Htail as [->|[rest ->]].
      - assert (Lexer.isAtEnd lx = true) as ->; [|apply andb_false_r].
        change (Lexer.source lx = (pre ++ "")%string) in Hsrc.
        unfold Lexer.isAtEnd. rewrite Hsrc, Hcur, string_app_nil_r. apply Nat.leb_refl.
      - destruct (peek_in_source lx pre JS.LF rest Hsrc Hcur) as (_ & -> & _).
        reflexivity. }
    rewrite Hstop. simpl. repeat split; lia.
  - change (Lexer.source lx = (pre ++ String c (body ++ tail))%string) in Hsrc. simpl in Hq.
    destruct (Ascii.eqb c JS.LF) eqn:Ec; [discriminate|]. simpl in Hq.
    destruct (peek_in_source lx pre c (body ++ tail) Hsrc Hcur) as (Hend & Hpeek & _).
    rewrite Hpeek, Ec, Hend. cbn [negb andb].
    match goal with |- context [Lexer.advanceWhile _ f ?l] =>
      destruct (IH (pre ++ String c "")%string tail l f) as (H1 & H2 & H3 & H4 & H5)
    end.
    + simpl. rewrite Hsrc, string_app_assoc. reflexivity.
    + simpl. rewrite Hcur, string_length_app. simpl. lia.
    + exact Hq.
    + exact Htail.
    + simpl in Hfuel. lia.
    + cbv zeta in H1, H2, H3, H4, H5.
      rewrite H1, H2, H3, H4, H5, string_length_app. simpl. repeat split; lia.
Qed.

Lemma scanToken_at_a_hash lx :
  JS.charAt (Lexer.source lx) (Lexer.current lx) = Some "#"%char ->
  Lexer.scanToken lx =
    Lexer.Ok
      (Lexer.advanceWhile
         (fun l => negb (Ascii.eqb (Lexer.peek l) JS.LF) && negb (Lexer.isAtEnd l))
         (Lexer.remaining (snd (Lexer.advance lx))) (snd (Lexer.advance lx))).
Proof. intros Hc. unfold Lexer.scanToken, Lexer.advance. rewrite Hc. reflexivity. Qed.

(** X17: a comment runs from its [#] to the end of the line, or of
    the source, and gives no token: the lexer comes out of it with the tokens,
    the indent stack and the line count it had, in front of the line feed,
    which is still to give its NEWLINE. *)
Theorem a_comment_gives_no_token lx pre body tail :
  Lexer.source lx = (pre ++ String "#" (body ++ tail))%string ->
  Lexer.current lx = String.length pre ->
  count_char JS.LF body = 0 ->
  (tail = ""%string \/ exists rest, tail = String JS.LF rest) ->
  exists lx',
    Lexer.scanToken lx = Lexer.Ok lx' /\
    Lexer.tokens lx' = Lexer.tokens lx /\
    Lexer.indentStack lx' = Lexer.indentStack lx /\
    Lexer.line lx' = Lexer.line lx /\
    Lexer.current lx' = String.length pre + String.length body + 1.
Proof.
  intros Hsrc Hcur Hq Htail.
  destruct (peek_in_source lx pre "#" _ Hsrc Hcur) as (_ & _ & Hc).
  rewrite (scanToken_at_a_hash lx Hc).
  set (lx0 := snd (Lexer.advance lx)).
  assert (Lexer.source lx0 = ((pre ++ String "#" "") ++ body ++ tail)%string) as Hsrc0
    by (unfold lx0; simpl; rewrite Hsrc, string_app_assoc; reflexivity).
  assert (Lexer.current lx0 = String.length (pre ++ String "#" "")%string) as Hcur0
    by (unfold lx0; simpl; rewrite Hcur, string_length_app; simpl; lia).
  assert (Lexer.tokens lx0 = Lexer.tokens lx /\ Lexer.indentStack lx0 = Lexer.indentStack lx /\
          Lexer.line lx0 = Lexer.line lx) as (Htok0 & Hstack0 & Hline0) by (split; auto).
  clearbody lx0.
  assert (String.length body < Lexer.remaining lx0) as Hfuel
    by (unfold Lexer.remaining; rewrite Hsrc0, Hcur0, !string_length_app; simpl; lia).
  destruct (comment_runs body _ _ lx0 (Lexer.remaining lx0) Hsrc0 Hcur0 Hq Htail Hfuel)
    as (H1 & H2 & H3 & H4 & H5).
  eexists. split; [reflexivity|].
  rewrite H2, H3, H4, H5, string_length_app. simpl. repeat split; auto; lia.
Qed.

(** A comment after a statement; the next line follows. *)
Lemma a_comment_after_a_statement :
  let lx := {| Lexer.source := Examples.source ["likho 1 # one"; "likho 2"];
               Lexer.tokens := []; Lexer.current := 8; Lexer.line := 1;
               Lexer.column := 9; Lexer.indentStack := [0] |} in
  exists lx',
    Lexer.scanToken lx = Lexer.Ok lx' /\
    Lexer.tokens lx' = [] /\ Lexer.current lx' = 13 /\
    JS.charAt (Lexer.source lx') (Lexer.current lx') = Some JS.LF.
Proof.
  intros lx.
  destruct (a_comment_gives_no_token lx "likho 1 " " one" (String JS.LF "likho 2")
              eq_refl eq_refl eq_refl (or_intror (ex_intro _ _ eq_refl)))
    as (lx' & H1 & H2 & _ & _ & H3).
  exists lx'. split; [exact H1|]. split; [exact H2|]. split; [exact H3|].
  rewrite H3. apply lexer_Ok_inj in H1. rewrite <- H1. reflexivity.
Defined.

Lemma repeat_blank_length k : String.length (JS.repeat " " k) = k.
Proof. induction k as [|k IH]; [reflexivity | exact (f_equal S IH)]. Qed.

Lemma countIndent_runs k : forall pre tail lx fuel i,
  Lexer.source lx = (pre ++ JS.repeat " " k ++ tail)%string ->
  Lexer.current lx = String.length pre ->
  (tail = ""%string \/
   exists c rest, tail = String c rest /\ c <> " "%char /\ c <> JS.TAB) ->
  k < fuel ->
  exists lx',
    Lexer.countIndent fuel i lx = (i + k, lx') /\
    Lexer.source lx' = Lexer.source lx /\ Lexer.tokens lx' = Lexer.tokens lx /\
    Lexer.indentStack lx' = Lexer.indentStack lx /\ Lexer.line lx' = Lexer.line lx /\
    Lexer.current lx' = String.length pre + k.
Proof.
  induction k as [|k IH]; intros pre tail lx fuel i Hsrc Hcur Htail Hfuel;
    (destruct fuel as [|f]; [lia|]); simpl Lexer.countIndent.
  - assert (negb (Lexer.isAtEnd lx) &&
            (Ascii.eqb (Lexer.peek lx) " " || Ascii.eqb (Lexer.peek lx) JS.TAB) = false)
      as Hstop.
    { destruct Htail as [->|(c & rest & -> & Hsp & Htab)].
      - assert (Lexer.isAtEnd lx = true) as ->; [|reflexivity].
        change (Lexer.source lx = (pre ++ "")%string) in Hsrc.
        unfold Lexer.isAtEnd. rewrite Hsrc, Hcur, string_app_nil_r. apply Nat.leb_refl.
      - change (Lexer.source lx = (pre ++ String c rest)%string) in Hsrc.
        destruct (peek_in_source lx pre c rest Hsrc Hcur) as (_ & -> & _).
        rewrite (proj2 (Ascii.eqb_neq c " ") Hsp), (proj2 (Ascii.eqb_neq c JS.TAB) Htab).
        apply andb_false_r. }
    rewrite Hstop. exists lx. repeat split; try reflexivity; [f_equal; lia | lia].
  - change (Lexer.source lx = (pre ++ String " " (JS.repeat " " k ++ tail))%string) in Hsrc.
    destruct (peek_in_source lx pre " " _ Hsrc Hcur) as (Hend & Hpeek & _).
    rewrite Hpeek, Hend. cbn [negb andb orb Ascii.eqb Bool.eqb]. cbv zeta.
    match goal with |- context [Lexer.countIndent f ?j ?l] =>
      destruct (IH (pre ++ String " " "")%string tail l f j)
        as (lx' & H1 & H2 & H3 & H4 & H5 & H6)
    end.
    + simpl. rewrite Hsrc, string_app_assoc. reflexivity.
    + simpl. rewrite Hcur, string_length_app. simpl. lia.
    + exact Htail.
    + lia.
    + exists lx'. rewrite string_length_app in H6. simpl in H6.
      split; [rewrite H1; f_equal; lia|]. repeat split; try assumption. lia.
Qed.

Lemma scanToken_at_a_blank lx :
  JS.charAt (Lexer.source lx) (Lexer.current lx) = Some " "%char ->
  Lexer.column lx = 1%Z ->
  Lexer.scanToken lx =
    Lexer.handleIndentation
      (Lexer.with_current (S (Lexer.current lx)) (Lexer.with_column 2 lx)).
Proof.
  intros Hc Hcol. unfold Lexer.scanToken, Lexer.advance. rewrite Hc, Hcol. reflexivity.
Qed.

(** X18: the blanks that start a line are measured whatever follows
    them: a line feed, a comment or the end of the source as much as a
    statement. When they are more than the current indentation the lexer
    opens a block (an INDENT token, a new width on the stack), so an empty
    line with blanks in it, or an indented comment, changes the structure of
    the program. *)
Theorem blanks_open_a_block_whatever_follows lx pre k tail :
  Lexer.source lx = (pre ++ JS.repeat " " k ++ tail)%string ->
  Lexer.current lx = String.length pre ->
  Lexer.column lx = 1%Z ->
  (tail = ""%string \/
   exists c rest, tail = String c rest /\ c <> " "%char /\ c <> JS.TAB) ->
  List.last (Lexer.indentStack lx) 0 < k ->
  exists lx' tok,
    Lexer.scanToken lx = Lexer.Ok lx' /\
    Lexer.tokens lx' = Lexer.tokens lx ++ [tok] /\
    type tok = INDENT /\ value tok = JS.repeat " " k /\
    Lexer.indentStack lx' = Lexer.indentStack lx ++ [k] /\
    Lexer.current lx' = String.length pre + k.
Proof.
  intros Hsrc Hcur Hcol Htail Hk.
  destruct k as [|k]; [lia|].
  assert (Lexer.source lx = (pre ++ String " " (JS.repeat " " k ++ tail))%string) as Hsrc'
    by exact Hsrc.
  destruct (peek_in_source lx pre " " _ Hsrc' Hcur) as (_ & _ & Hc).
  rewrite (scanToken_at_a_blank lx Hc Hcol).
  unfold Lexer.handleIndentation. cbv zeta.
  set (lxa := Lexer.with_current _ (Lexer.with_current _ _)).
  assert (Lexer.source lxa = Lexer.source lx /\ Lexer.current lxa = Lexer.current lx /\
          Lexer.tokens lxa = Lexer.tokens lx /\
          Lexer.indentStack lxa = Lexer.indentStack lx) as (Hsa & Hca & Hta & Hia).
  { unfold lxa. simpl. repeat split. lia. }
  clearbody lxa.
  destruct (countIndent_runs (S k) pre tail lxa (Lexer.remaining lxa) 0)
    as (lx1 & H1 & H2 & H3 & H4 & H5 & H6).
  - rewrite Hsa. exact Hsrc.
  - rewrite Hca. exact Hcur.
  - exact Htail.
  - unfold Lexer.remaining. rewrite Hsa, Hca, Hsrc, Hcur, !string_length_app,
      repeat_blank_length. lia.
  - rewrite H1. cbn [Nat.add]. rewrite H4, Hia, (proj2 (Nat.ltb_lt _ _) Hk).
    eexists _, _. split; [reflexivity|]. simpl.
    rewrite H3, Hta, H6. repeat split.
Qed.

(** An empty line with four blanks in it, at the top level. *)
Lemma an_empty_line_with_blanks_opens_a_block :
  let lx := {| Lexer.source := Examples.source ["likho 1"; "    "; "likho 2"];
               Lexer.tokens := []; Lexer.current := 8; Lexer.line := 2;
               Lexer.column := 1; Lexer.indentStack := [0] |} in
  exists lx' tok,
    Lexer.scanToken lx = Lexer.Ok lx' /\
    Lexer.tokens lx' = [tok] /\ type tok = INDENT /\ Lexer.indentStack lx' = [0; 4].
Proof.
  intros lx.
  destruct (blanks_open_a_block_whatever_follows lx (String.append "likho 1" (String JS.LF ""))
              4 (String JS.LF "likho 2") eq_refl eq_refl eq_refl)
    as (lx' & tok & H1 & H2 & H3 & _ & H4 & _).
  - right. exists JS.LF, "likho 2"%string. repeat split; discriminate.
  - simpl. lia.
  - exists lx', tok. auto.
Defined.

(** ** Declarations are for good *)

Lemma bound_stays_bound st st' x :
  keeps_bindings st st' ->
  Interpreter.environment st' = Interpreter.environment st ->
  Environment.has (Environment.at_ (Interpreter.heap st) (Interpreter.environment st)) x
    = true ->
  Environment.has (Environment.at_ (Interpreter.heap st') (Interpreter.environment st')) x
    = true.
Proof.
  intros Hk He H. rewrite He. unfold Environment.has, Environment.at_ in *.
  apply bool_decide_eq_true in H. apply bool_decide_eq_true.
  destruct (Interpreter.heap st !! Interpreter.environment st) as [env|] eqn:E; simpl in H.
  - destruct (Hk _ _ _ E H) as (env' & -> & H'). exact H'.
  - rewrite lookup_empty in H. destruct H; discriminate.
Qed.

Lemma expression_keeps_the_binding Math_pow fuel e st w st1 x :
  Interpreter.visitExpression Math_pow fuel e st = Interpreter.Ok w st1 ->
  Environment.has (Environment.at_ (Interpreter.heap st) (Interpreter.environment st)) x
    = true ->
  Environment.has (Environment.at_ (Interpreter.heap st1) (Interpreter.environment st1)) x
    = true.
Proof.
  intros He. apply bound_stays_bound.
  - pose proof (proj2 (visit_respects Math_pow keeps_bindings fuel
                         keeps_bindings_respects_writes) e st) as H.
    rewrite He in H. exact H.
  - exact (visitExpression_keeps_scope Math_pow fuel e st w st1 He).
Qed.

Lemma redeclaration_throws Math_pow fuel x v c pos st w st1 :
  Environment.has (Environment.at_ (Interpreter.heap st) (Interpreter.environment st)) x
    = true ->
  Interpreter.visitExpression Math_pow fuel v st = Interpreter.Ok w st1 ->
  Interpreter.visitStatement Math_pow (S fuel) (VariableDeclaration x v c pos) st =
    Interpreter.Throw (Error ("Variable '" ++ x ++ "' already defined")%string) st1.
Proof.
  intros Hx Hv. pose proof (expression_keeps_the_binding _ _ _ _ _ _ x Hv Hx) as Hx1.
  cbn [Interpreter.visitStatement Interpreter.visitStatementBody].
  unfold Interpreter.visitVariableDeclaration, Interpreter.bind. rewrite Hv.
  unfold Interpreter.onHeap, Environment.define. rewrite Hx1. reflexivity.
Qed.

(** X19: a binding is never removed: whatever statements run, and
    however they end, a name bound in an environment stays bound there. So a
    declaration of a name that its scope binds already throws whenever its
    value evaluates, and a loop whose body starts with such a declaration ends
    in that turn at the declaration: the loop catches the error and nothing is
    reported. *)
Theorem a_name_declared_once_stays_declared Math_pow fuel :
  (forall l st,
     Interpreter.related keeps_bindings st (Interpreter.run Math_pow fuel l st)) /\
  (forall x v c pos st w st1,
     Environment.has (Environment.at_ (Interpreter.heap st) (Interpreter.environment st)) x
       = true ->
     Interpreter.visitExpression Math_pow fuel v st = Interpreter.Ok w st1 ->
     Interpreter.visitStatement Math_pow (S fuel) (VariableDeclaration x v c pos) st =
       Interpreter.Throw (Error ("Variable '" ++ x ++ "' already defined")%string) st1) /\
  (forall condition x v c pos rest position st cv st1 w st2,
     Environment.has (Environment.at_ (Interpreter.heap st) (Interpreter.environment st)) x
       = true ->
     Interpreter.visitExpression Math_pow (S fuel) condition st = Interpreter.Ok cv st1 ->
     Interpreter.isTruthy cv = true ->
     Interpreter.visitExpression Math_pow fuel v st1 = Interpreter.Ok w st2 ->
     Interpreter.visitStatement Math_pow (S (S fuel))
       (WhileLoop condition (VariableDeclaration x v c pos :: rest) position) st =
       Interpreter.Ok tt st2).
Proof.
  split; [|split].
  - intros l st. exact (run_respects Math_pow keeps_bindings fuel l
                          keeps_bindings_respects_writes st).
  - intros x v c pos st w st1. apply redeclaration_throws.
  - intros condition x v c pos rest position st cv st1 w st2 Hx Hc Ht Hv.
    rewrite visit_while. cbn [Interpreter.whileTurns].
    unfold Interpreter.bind at 1. rewrite Hc, Ht.
    cbn [Interpreter.visitStatements]. unfold Interpreter.bind at 1.
    rewrite (redeclaration_throws Math_pow fuel x v c pos st1 w st2
               (expression_keeps_the_binding _ _ _ _ _ _ x Hc Hx) Hv).
    reflexivity.
Qed.

(** [x] is declared; the loop would declare it in each turn. *)
Lemma a_loop_that_declares_ends_at_once :
  Interpreter.visitStatement Examples.pow 4 MoreExamples.declaring_loop MoreExamples.after_x =
    Interpreter.Ok tt MoreExamples.after_x.
Proof.
  apply (proj2 (proj2 (a_name_declared_once_stays_declared Examples.pow 2))
           (Literal (LBoolean true) Examples.at11) "x"%string
           (Literal (LNumber 5) {| pos_line := 1; pos_column := 11 |}) false
           {| pos_line := 1; pos_column := 7 |}
           [PrintStatement (Identifier "x" Examples.at11) Examples.at11] Examples.at11
           MoreExamples.after_x (VBoolean true) MoreExamples.after_x (VNumber 5)
           MoreExamples.after_x).
  - vm_compute. reflexivity.
  - vm_compute. reflexivity.
  - reflexivity.
  - vm_compute. reflexivity.
Defined.
